(** * servers.js: context-propagating structured logging

    A shallow embedding of [src/servers.js] (the pino / AsyncLocalStorage
    server) and the properties of its logging core.

    The program is written in a small free monad [Prog] whose operations
    are the effects the source performs: reading and installing the
    AsyncLocalStorage store, allocating and updating [Map] objects,
    emitting log records, calling and awaiting async functions, and
    talking to the HTTP response object.  An interpreter [exec] runs one
    synchronous stretch of code; [step] is one turn of the event loop,
    and a run is any sequence of turns, so that requests interleave in
    every possible way.

    What the source takes from Node, Express and pino is modelled by
    its documented behaviour: [run] installs a store for its callback
    and whatever that callback awaits; a child logger writes its
    parent's bindings followed by its own; ["finish"] is emitted once a
    response has been written out, and never on a connection that is
    already closed.  [run] is the event loop as such; [live_run] is the
    process under Node's default, which ends it at the first rejection
    that nothing handles.

    The other server of the file, the event stream of [GET /sse], is
    embedded by plain state passing further down, with its own
    events. *)

From Stdlib Require Import ZArith String List Bool Lia.
From stdpp Require Import base tactics option list gmap strings pretty.

Local Open Scope Z_scope.

(** ** Values *)

(** Addresses of [Map] objects and of promises. *)
Abbreviation loc := nat.
Abbreviation promise := nat.

(** Loggable field values.  The source only ever binds strings and
    numbers; a key whose value is [undefined] is left out of the object
    (see [opt_field]), as pino does when it serialises. *)
Inductive Scalar : Type :=
| SNum (n : Z)
| SStr (s : string).

(** An object literal of loggable fields, in key order. *)
Abbreviation Obj := (list (string * Scalar)).

(** A pino logger: the bindings handed to each [child] call, from the
    base logger down.  The base logger [pino()] has none. *)
Abbreviation Logger := (list Obj).

Inductive Level : Type := Trace | Debug | Info | Warn | Error | Fatal.

(** One emitted line: pino writes the logger's bindings, then the call
    site's merge object, then the message. *)
Record LogRecord : Type := {
  rec_level : Level;
  rec_fields : Obj;
  rec_msg : string
}.

(** What a [fetch] resolves with. *)
Record FetchResponse : Type := {
  resp_ok : bool;
  resp_status : Z;
  resp_statusText : string;
  resp_body : string
}.

Inductive JsVal : Type :=
| VUndefined
| VNum (n : Z)
| VStr (s : string)
| VLogger (l : Logger)
| VMap (m : loc)
| VPromise (p : promise)
| VError (msg : string)
| VResponse (r : FetchResponse)
| VJson (text : string).

(** ** Parsed bodies *)

(** [VJson text] is the value that [response.json()] resolved with,
    kept as the JSON text it was parsed from.  Of such a value the
    program only ever needs to know whether it is falsy: [null],
    [false], the empty string, and a number that is zero -- written as
    zero, or so small that it is read as zero. *)

Definition json_space (a : Ascii.ascii) : bool :=
  let n := Ascii.nat_of_ascii a in
  Nat.eqb n 32 || Nat.eqb n 9 || Nat.eqb n 10 || Nat.eqb n 13.

Fixpoint json_trim (s : string) : string :=
  match s with
  | String a rest => if json_space a then json_trim rest else s
  | EmptyString => s
  end.

Definition json_digit (a : Ascii.ascii) : option Z :=
  let n := Z.of_nat (Ascii.nat_of_ascii a) in
  if (48 <=? n) && (n <=? 57) then Some (n - 48) else None.

(** The digits at the head of [s], read after the number [acc]: the
    number they make, how many they are, and what follows them. *)
Fixpoint json_digits (acc count : Z) (s : string) : Z * Z * string :=
  match s with
  | String a rest =>
      match json_digit a with
      | Some d => json_digits (10 * acc + d) (count + 1) rest
      | None => (acc, count, s)
      end
  | EmptyString => (acc, count, s)
  end.

(** The exponent part [e+12], [E-3], ..., if there is one. *)
Definition json_exponent (s : string) : Z :=
  match s with
  | String a rest =>
      let n := Ascii.nat_of_ascii a in
      if Nat.eqb n 101 || Nat.eqb n 69 then
        match rest with
        | String b rest' =>
            if Nat.eqb (Ascii.nat_of_ascii b) 45 then
              - fst (fst (json_digits 0 0 rest'))
            else if Nat.eqb (Ascii.nat_of_ascii b) 43 then
              fst (fst (json_digits 0 0 rest'))
            else fst (fst (json_digits 0 0 rest))
        | EmptyString => 0
        end
      else 0
  | EmptyString => 0
  end.

(** Whether the number written as [s], without its sign, is read as
    zero.  With [n] the digits of its integer and fraction parts and
    [k] its exponent less the number of fraction digits, its value is
    [n * 10 ^ k]; a double is zero when that is at most [2 ^ -1075],
    half of the smallest positive double. *)
Definition json_number_zero (s : string) : bool :=
  let '(i, _, rest) := json_digits 0 0 s in
  let '(n, f, rest') :=
    match rest with
    | String a frac =>
        if Nat.eqb (Ascii.nat_of_ascii a) 46 then json_digits i 0 frac
        else (i, 0, rest)
    | EmptyString => (i, 0, rest)
    end in
  let k := json_exponent rest' - f in
  (n =? 0) || ((k <? 0) && (n * 2 ^ 1075 <=? 10 ^ (- k))).

Definition json_falsy (text : string) : bool :=
  match json_trim text with
  | String a rest =>
      let n := Ascii.nat_of_ascii a in
      if Nat.eqb n 110 then true                        (* null *)
      else if Nat.eqb n 102 then true                   (* false *)
      else if Nat.eqb n 34 then                         (* a string *)
        match rest with
        | String b _ => Nat.eqb (Ascii.nat_of_ascii b) 34
        | EmptyString => false
        end
      else if Nat.eqb n 45 then json_number_zero rest   (* -number *)
      else
        match json_digit a with
        | Some _ => json_number_zero (String a rest)
        | None => false                                 (* object, array, true *)
        end
  | EmptyString => false
  end.

(** JavaScript truthiness, as used by [||]. *)
Definition truthy (v : JsVal) : bool :=
  match v with
  | VUndefined => false
  | VNum n => negb (n =? 0)
  | VStr s => negb (String.eqb s "")
  | VJson text => negb (json_falsy text)
  | _ => true
  end.

(** [a || b] *)
Definition js_or (a b : JsVal) : JsVal := if truthy a then a else b.

(** ** pino *)

(** [const logger = pino()] *)
Definition logger : Logger := [].

(** [parent.child(data)]: a new logger; the parent is not touched. *)
Definition child (parent : Logger) (data : Obj) : Logger := parent ++ [data].

Definition bindings (l : Logger) : Obj := concat l.

Definition mk_record (lvl : Level) (l : Logger) (payload : Obj) (msg : string)
  : LogRecord :=
  {| rec_level := lvl; rec_fields := bindings l ++ payload; rec_msg := msg |}.

(** The value a reader of the JSON line sees under [key]: a key written
    twice keeps its last value. *)
Fixpoint field (key : string) (o : Obj) : option Scalar :=
  match o with
  | [] => None
  | (k, v) :: rest =>
      match field key rest with
      | Some v' => Some v'
      | None => if String.eqb k key then Some v else None
      end
  end.

Definition keys (o : Obj) : list string := map fst o.

(** A key bound to [undefined] is not written. *)
Definition opt_field (key : string) (v : option string) : Obj :=
  match v with
  | Some s => [(key, SStr s)]
  | None => []
  end.

(** ** Programs *)

(** The effects of the source, as a free monad.  Callbacks and async
    function bodies are programs; [k] is the rest of the caller. *)
Inductive Prog : Type :=
| Ret (v : JsVal)
| Throw (e : JsVal)
(* asyncLocalStorage.getStore() *)
| GetStore (k : JsVal -> Prog)
(* asyncLocalStorage.run(store, callback) *)
| Run (store : JsVal) (callback : Prog) (k : JsVal -> Prog)
(* new Map(src): a fresh map holding the entries of [src], if any *)
| MapNew (src : option loc) (k : JsVal -> Prog)
(* m.get(key) *)
| MapGet (m : loc) (key : string) (k : JsVal -> Prog)
(* m.set(key, v) *)
| MapSet (m : loc) (key : string) (v : JsVal) (k : JsVal -> Prog)
(* lg.info(payload, msg) and its siblings: write one line *)
| Emit (r : LogRecord) (k : JsVal -> Prog)
(* performance.now() *)
| PerformanceNow (k : Z -> Prog)
(* randomUUID() *)
| RandomUUID (k : string -> Prog)
(* Math.floor(Math.random() * 10) *)
| RandomDigit (k : Z -> Prog)
(* calling an async function whose body is [body]: yields its promise *)
| CallAsync (body : Prog) (k : JsVal -> Prog)
(* await v *)
| Await (v : JsVal) (k : JsVal -> Prog)
(* fetch(url): yields a promise *)
| Fetch (url : string) (k : JsVal -> Prog)
(* response.json(): yields a promise *)
| BodyJson (r : FetchResponse) (k : JsVal -> Prog)
(* res.on(event, listener) *)
| ResOn (res : nat) (event : string) (listener : Prog) (k : JsVal -> Prog)
(* res.statusCode *)
| ResStatusCode (res : nat) (k : Z -> Prog)
(* res.statusCode = code *)
| ResSetStatus (res : nat) (code : Z) (k : JsVal -> Prog)
(* res.json(body) / res.end(body) *)
| ResSend (res : nat) (body : JsVal) (k : JsVal -> Prog).

Fixpoint bind (c : Prog) (f : JsVal -> Prog) : Prog :=
  match c with
  | Ret v => f v
  | Throw e => Throw e
  | GetStore k => GetStore (fun x => bind (k x) f)
  | Run s cb k => Run s cb (fun x => bind (k x) f)
  | MapNew src k => MapNew src (fun x => bind (k x) f)
  | MapGet m key k => MapGet m key (fun x => bind (k x) f)
  | MapSet m key v k => MapSet m key v (fun x => bind (k x) f)
  | Emit r k => Emit r (fun x => bind (k x) f)
  | PerformanceNow k => PerformanceNow (fun x => bind (k x) f)
  | RandomUUID k => RandomUUID (fun x => bind (k x) f)
  | RandomDigit k => RandomDigit (fun x => bind (k x) f)
  | CallAsync body k => CallAsync body (fun x => bind (k x) f)
  | Await v k => Await v (fun x => bind (k x) f)
  | Fetch url k => Fetch url (fun x => bind (k x) f)
  | BodyJson r k => BodyJson r (fun x => bind (k x) f)
  | ResOn res ev l k => ResOn res ev l (fun x => bind (k x) f)
  | ResStatusCode res k => ResStatusCode res (fun x => bind (k x) f)
  | ResSetStatus res code k => ResSetStatus res code (fun x => bind (k x) f)
  | ResSend res body k => ResSend res body (fun x => bind (k x) f)
  end.

(** [let! x := c in k] sequences two programs; [call! x := op in k]
    names the result of a primitive whose result is not a [JsVal]. *)
Notation "'let!' x ':=' c 'in' k" := (bind c (fun x => k))
  (at level 10, x name, c at level 100, k at level 200, only parsing).
Notation "'call!' x ':=' op 'in' k" := (op (fun x => k))
  (at level 10, x name, op at level 100, k at level 200, only parsing).
Notation "c ';;;' k" := (bind c (fun _ => k))
  (at level 100, k at level 200, right associativity, only parsing).

Definition type_error (what : string) : Prog :=
  Throw (VError ("TypeError: " +:+ what)).

(** Method calls on a value whose type is only known at run time. *)

Definition getStore : Prog := GetStore Ret.

(** [store?.get(key)] *)
Definition opt_get (store : JsVal) (key : string) : Prog :=
  match store with
  | VUndefined => Ret VUndefined
  | VMap m => MapGet m key Ret
  | _ => type_error "store.get is not a function"
  end.

(** [m.set(key, v)] *)
Definition map_set (m : JsVal) (key : string) (v : JsVal) : Prog :=
  match m with
  | VMap l => MapSet l key v Ret
  | _ => type_error "set is not a function"
  end.

(** [new Map(src)] *)
Definition new_Map (src : JsVal) : Prog :=
  match src with
  | VUndefined => MapNew None Ret
  | VMap m => MapNew (Some m) Ret
  | _ => type_error "object is not iterable"
  end.

(** [parentLogger.child(data)] *)
Definition logger_child (lg : JsVal) (data : Obj) : Prog :=
  match lg with
  | VLogger l => Ret (VLogger (child l data))
  | _ => type_error "parentLogger.child is not a function"
  end.

(** [lg.info(payload, msg)], [lg.warn(...)], [lg.error(...)] *)
Definition log_at (lvl : Level) (lg : JsVal) (payload : Obj) (msg : string)
  : Prog :=
  match lg with
  | VLogger l => Emit (mk_record lvl l payload msg) Ret
  | _ => type_error "not a logger"
  end.

(** [a || b ()] on an optional string: the right operand is only
    evaluated when the left one is [undefined] or empty. *)
Definition or_else (a : option string) (b : (string -> Prog) -> Prog)
    (k : string -> Prog) : Prog :=
  match a with
  | Some s => if String.eqb s "" then b k else k s
  | None => b k
  end.

(** ** The source *)

(** [function withLogContext(data, callback)] *)
Definition withLogContext (data : Obj) (callback : Prog) : Prog :=
  let! store := getStore in
  let! entry := opt_get store "logger" in
  let parentLogger := js_or entry (VLogger logger) in
  let! childLogger := logger_child parentLogger data in
  let! newStore := new_Map store in
  map_set newStore "logger" childLogger ;;;
  Run newStore callback Ret.

(** [function getLogger()] *)
Definition getLogger : Prog :=
  let! store := getStore in
  let! entry := opt_get store "logger" in
  Ret (js_or entry (VLogger logger)).

(** Where the framework sends a request after the logging middleware. *)
Inductive Route : Type := RouteFetchUser | RouteNone.

(** The request object, as far as the source reads it; [req_route] is
    the framework's routing decision. *)
Record Request : Type := {
  req_method : string;
  req_url : string;
  req_ip : option string;
  req_headers : gmap string string;
  req_route : Route
}.

(** The listener of [res.on("finish", ...)]. *)
Definition on_finish (res : nat) (start : Z) (reqLogger : Logger) : Prog :=
  call! statusCode := ResStatusCode res in
  call! now := PerformanceNow in
  let logData :=
    [("duration_ms", SNum (now - start)); ("status_code", SNum statusCode)] in
  if 500 <=? statusCode then
    log_at Error (VLogger reqLogger) logData "server error"
  else if 400 <=? statusCode then
    log_at Warn (VLogger reqLogger) logData "client error"
  else
    log_at Info (VLogger reqLogger) logData "request completed".

(** The request middleware, [app.use((req, res, next) => ...)]. *)
Definition middleware (req : Request) (res : nat) (next : Prog) : Prog :=
  call! start := PerformanceNow in
  call! requestId := or_else (req_headers req !! "x-request-id") RandomUUID in
  let userAgent := req_headers req !! "user-agent" in
  let reqLogger := child logger [("request.id", SStr requestId)] in
  log_at Info (VLogger reqLogger)
    ([("http.request.method", SStr (req_method req));
      ("url.path", SStr (req_url req))]
     ++ opt_field "client.address" (req_ip req)
     ++ opt_field "user_agent.original" userAgent)
    ("incoming " +:+ req_method req +:+ " request to " +:+ req_url req) ;;;
  ResOn res "finish" (on_finish res start reqLogger) Ret ;;;
  let! store := new_Map VUndefined in
  Run store
    (let! s := getStore in
     map_set s "logger" (VLogger reqLogger) ;;;
     withLogContext [("request.id", SStr requestId)] next ;;;
     Ret VUndefined)
    (fun _ => Ret VUndefined).

(** [async function fetchUser(id)]; [pretty] prints the number as the
    template literal does. *)
Definition fetchUser (id : Z) : Prog :=
  let! p := Fetch ("https://jsonplaceholder.typicode.com/users/" +:+ pretty id)
                  Ret in
  let! response := Await p Ret in
  match response with
  | VResponse r =>
      if negb (resp_ok r) then
        Throw (VError ("Failed to fetch user: " +:+ pretty (resp_status r)
                       +:+ " " +:+ resp_statusText r))
      else
        let! q := BodyJson r Ret in
        let! user := Await q Ret in
        let! lg := getLogger in
        log_at Info lg []
          ("profile info for user " +:+ pretty id
           +:+ " retrieved successfully") ;;;
        Ret user
  | _ => type_error "fetch resolved with something else than a Response"
  end.

(** The body of the [async () => ...] bound in the [/fetch-user] route. *)
Definition fetch_user_work (res : nat) (userID : Z) : Prog :=
  let! lg := getLogger in
  log_at Info lg [] "fetching user data" ;;;
  let! p := CallAsync (fetchUser userID) Ret in
  let! user := Await p Ret in
  ResSend res user Ret ;;;
  Ret VUndefined.

(** [app.get("/fetch-user", async (req, res) => ...)] *)
Definition fetch_user_handler (res : nat) : Prog :=
  call! digit := RandomDigit in
  let userID := digit + 1 in
  withLogContext [("user.id", SNum userID)]
    (CallAsync (fetch_user_work res userID) Ret) ;;;
  Ret VUndefined.

(** [next()]: the framework calls the matching route, whose returned
    promise it drops, or answers 404 itself. *)
Definition express_next (req : Request) (res : nat) : Prog :=
  match req_route req with
  | RouteFetchUser => CallAsync (fetch_user_handler res) (fun _ => Ret VUndefined)
  | RouteNone =>
      ResSetStatus res 404 Ret ;;;
      ResSend res (VStr "Not Found") Ret ;;;
      Ret VUndefined
  end.

(** ** The run-time state *)

Inductive PState : Type :=
| Pending
| Fulfilled (v : JsVal)
| Rejected (e : JsVal).

(** Who settles a promise: an async function of the program, or the
    environment when the network answers. *)
Inductive PKind : Type :=
| Internal
| FetchIO (url : string)
| JsonIO (r : FetchResponse).

(** [p_handled] records whether anything ever awaited the promise. *)
Record PromiseCell : Type := {
  p_state : PState;
  p_kind : PKind;
  p_handled : bool
}.

(** An async function suspended at an [await]: the promise it waits
    for, the rest of its body, the store that was current when it
    suspended, and the promise its own call returned.  [r_origin] is
    bookkeeping: the request whose handling reached this [await]. *)
Record Reaction : Type := {
  r_awaits : promise;
  r_k : JsVal -> Prog;
  r_ctx : JsVal;
  r_origin : nat;
  r_settles : promise
}.

(** The response object of one request. *)
Record Response : Type := {
  res_status : Z;
  res_sent : option JsVal;
  res_finished : bool;
  res_closed : bool;
  res_listeners : list (string * Prog)
}.

(** Everything the process holds.  A log line is paired with the
    request whose handling wrote it; the program cannot see that tag. *)
Record World : Type := {
  heap : list (gmap string JsVal);
  promises : list PromiseCell;
  reactions : list (option Reaction);
  responses : list Response;
  log : list (nat * LogRecord);
  uuids : nat;
  digits : nat;
  clock : Z
}.

Definition init : World :=
  {| heap := []; promises := []; reactions := []; responses := [];
     log := []; uuids := 0; digits := 0; clock := 0 |}.

Definition set_heap (h : list (gmap string JsVal)) (w : World) : World :=
  {| heap := h; promises := promises w; reactions := reactions w;
     responses := responses w; log := log w; uuids := uuids w;
     digits := digits w; clock := clock w |}.

Definition set_promises (ps : list PromiseCell) (w : World) : World :=
  {| heap := heap w; promises := ps; reactions := reactions w;
     responses := responses w; log := log w; uuids := uuids w;
     digits := digits w; clock := clock w |}.

Definition set_reactions (rs : list (option Reaction)) (w : World) : World :=
  {| heap := heap w; promises := promises w; reactions := rs;
     responses := responses w; log := log w; uuids := uuids w;
     digits := digits w; clock := clock w |}.

Definition set_responses (rs : list Response) (w : World) : World :=
  {| heap := heap w; promises := promises w; reactions := reactions w;
     responses := rs; log := log w; uuids := uuids w;
     digits := digits w; clock := clock w |}.

Definition set_log (l : list (nat * LogRecord)) (w : World) : World :=
  {| heap := heap w; promises := promises w; reactions := reactions w;
     responses := responses w; log := l; uuids := uuids w;
     digits := digits w; clock := clock w |}.

Definition set_uuids (n : nat) (w : World) : World :=
  {| heap := heap w; promises := promises w; reactions := reactions w;
     responses := responses w; log := log w; uuids := n;
     digits := digits w; clock := clock w |}.

Definition set_digits (n : nat) (w : World) : World :=
  {| heap := heap w; promises := promises w; reactions := reactions w;
     responses := responses w; log := log w; uuids := uuids w;
     digits := n; clock := clock w |}.

Definition set_clock (t : Z) (w : World) : World :=
  {| heap := heap w; promises := promises w; reactions := reactions w;
     responses := responses w; log := log w; uuids := uuids w;
     digits := digits w; clock := t |}.

(** A new promise; its address is the next free one. *)
Definition new_promise (st : PState) (kind : PKind) (w : World)
  : promise * World :=
  (length (promises w),
   set_promises
     (promises w ++ [{| p_state := st; p_kind := kind; p_handled := false |}])
     w).

Definition mark_handled (p : promise) (w : World) : World :=
  match promises w !! p with
  | Some c =>
      set_promises
        (<[p := {| p_state := p_state c; p_kind := p_kind c;
                   p_handled := true |}]> (promises w)) w
  | None => w
  end.

(** Settling only acts on a pending promise. *)
Definition settle (p : promise) (st : PState) (w : World) : World :=
  match promises w !! p with
  | Some {| p_state := Pending; p_kind := kd; p_handled := h |} =>
      set_promises
        (<[p := {| p_state := st; p_kind := kd; p_handled := h |}]>
           (promises w)) w
  | _ => w
  end.

Definition add_reaction (r : Reaction) (w : World) : World :=
  set_reactions (reactions w ++ [Some r]) w.

Definition upd_response (res : nat) (f : Response -> Response) (w : World)
  : World :=
  match responses w !! res with
  | Some r => set_responses (<[res := f r]> (responses w)) w
  | None => w
  end.

Definition with_status (code : Z) (r : Response) : Response :=
  {| res_status := code; res_sent := res_sent r;
     res_finished := res_finished r; res_closed := res_closed r;
     res_listeners := res_listeners r |}.

Definition with_sent (body : JsVal) (r : Response) : Response :=
  {| res_status := res_status r; res_sent := Some body;
     res_finished := res_finished r; res_closed := res_closed r;
     res_listeners := res_listeners r |}.

Definition with_finished (r : Response) : Response :=
  {| res_status := res_status r; res_sent := res_sent r;
     res_finished := true; res_closed := res_closed r;
     res_listeners := res_listeners r |}.

Definition with_closed (r : Response) : Response :=
  {| res_status := res_status r; res_sent := res_sent r;
     res_finished := res_finished r; res_closed := true;
     res_listeners := res_listeners r |}.

Definition with_listener (ev : string) (l : Prog) (r : Response) : Response :=
  {| res_status := res_status r; res_sent := res_sent r;
     res_finished := res_finished r; res_closed := res_closed r;
     res_listeners := res_listeners r ++ [(ev, l)] |}.

Definition new_response : Response :=
  {| res_status := 200; res_sent := None; res_finished := false;
     res_closed := false; res_listeners := [] |}.

(** How a synchronous stretch of code ends: it returns, it throws, or
    it reaches an [await] on promise [p] with [k] left to run under the
    store [ctx]. *)
Inductive Outcome : Type :=
| ORet (v : JsVal)
| OThrow (e : JsVal)
| OSusp (p : promise) (k : JsVal -> Prog) (ctx : JsVal).

Definition internal_error (what : string) : JsVal :=
  VError ("Error: " +:+ what).

(** ** The interpreter *)

Section Interpreter.

(** The two sources of randomness: what [randomUUID()] returns on its
    n-th call, and what [Math.floor(Math.random() * 10)] yields on
    its n-th evaluation. *)
Variable uuid_gen : nat -> string.
Variable random_digit : nat -> Z.

(** [exec o c ctx w] runs [c] to its end or to its first [await],
    with [ctx] as the current AsyncLocalStorage store.  [run] installs
    its store for the callback only: the caller goes on under [ctx]. *)
Fixpoint exec (o : nat) (c : Prog) (ctx : JsVal) (w : World) {struct c}
  : Outcome * World :=
  match c with
  | Ret v => (ORet v, w)
  | Throw e => (OThrow e, w)
  | GetStore k => exec o (k ctx) ctx w
  | Run store cb k =>
      match exec o cb store w with
      | (ORet v, w1) => exec o (k v) ctx w1
      | (OThrow e, w1) => (OThrow e, w1)
      | (OSusp _ _ _, w1) =>
          (OThrow (internal_error "await outside of an async function"), w1)
      end
  | MapNew src k =>
      match src with
      | None =>
          exec o (k (VMap (length (heap w)))) ctx
            (set_heap (heap w ++ [∅]) w)
      | Some l =>
          match heap w !! l with
          | Some m =>
              exec o (k (VMap (length (heap w)))) ctx
                (set_heap (heap w ++ [m]) w)
          | None => (OThrow (internal_error "no such map"), w)
          end
      end
  | MapGet l key k =>
      match heap w !! l with
      | Some m => exec o (k (default VUndefined (m !! key))) ctx w
      | None => (OThrow (internal_error "no such map"), w)
      end
  | MapSet l key v k =>
      match heap w !! l with
      | Some m =>
          exec o (k (VMap l)) ctx
            (set_heap (<[l := <[key := v]> m]> (heap w)) w)
      | None => (OThrow (internal_error "no such map"), w)
      end
  | Emit r k => exec o (k VUndefined) ctx (set_log (log w ++ [(o, r)]) w)
  | PerformanceNow k => exec o (k (clock w)) ctx w
  | RandomUUID k =>
      exec o (k (uuid_gen (uuids w))) ctx (set_uuids (S (uuids w)) w)
  | RandomDigit k =>
      exec o (k (random_digit (digits w))) ctx (set_digits (S (digits w)) w)
  | CallAsync body k =>
      match exec o body ctx w with
      | (ORet v, w1) =>
          let '(p, w2) := new_promise (Fulfilled v) Internal w1 in
          exec o (k (VPromise p)) ctx w2
      | (OThrow e, w1) =>
          let '(p, w2) := new_promise (Rejected e) Internal w1 in
          exec o (k (VPromise p)) ctx w2
      | (OSusp q kk c', w1) =>
          let '(p, w2) := new_promise Pending Internal w1 in
          exec o (k (VPromise p)) ctx
            (add_reaction
               {| r_awaits := q; r_k := kk; r_ctx := c'; r_origin := o;
                  r_settles := p |} w2)
      end
  | Await v k =>
      match v with
      | VPromise p => (OSusp p k ctx, mark_handled p w)
      | _ =>
          let '(p, w1) := new_promise (Fulfilled v) Internal w in
          (OSusp p k ctx, mark_handled p w1)
      end
  | Fetch url k =>
      let '(p, w1) := new_promise Pending (FetchIO url) w in
      exec o (k (VPromise p)) ctx w1
  | BodyJson r k =>
      let '(p, w1) := new_promise Pending (JsonIO r) w in
      exec o (k (VPromise p)) ctx w1
  | ResOn res ev l k =>
      exec o (k VUndefined) ctx (upd_response res (with_listener ev l) w)
  | ResStatusCode res k =>
      match responses w !! res with
      | Some r => exec o (k (res_status r)) ctx w
      | None => (OThrow (internal_error "no such response"), w)
      end
  | ResSetStatus res code k =>
      exec o (k VUndefined) ctx (upd_response res (with_status code) w)
  | ResSend res body k =>
      match responses w !! res with
      | Some r =>
          match res_sent r with
          | None =>
              exec o (k VUndefined) ctx (upd_response res (with_sent body) w)
          | Some _ => (OThrow (VError "ERR_HTTP_HEADERS_SENT"), w)
          end
      | None => (OThrow (internal_error "no such response"), w)
      end
  end.

(** ** The event loop *)

(** What the network hands back. *)
Inductive IOResult : Type :=
| IOResponse (r : FetchResponse)
| IOJson (text : string)
| IOFailure (msg : string).

(** One turn of the loop.  [Arrive]: a request reaches the logging
    middleware.  [Complete]: the network settles a [fetch] or a body
    read.  [Resume]: a suspended async function whose promise has
    settled runs on.  [Finish]: the response has been written out and
    the framework emits ["finish"], from a callback whose current
    store is [ctx].  [Close]: the connection is gone.  [Elapse]: the
    monotonic clock advances. *)
Inductive Event : Type :=
| Arrive (req : Request)
| Complete (p : promise) (r : IOResult)
| Resume (t : nat)
| Finish (res : nat) (ctx : JsVal)
| Close (res : nat) (ctx : JsVal)
| Elapse (d : N).

(** The end of a (resumed) async function call: its promise settles,
    or it waits again. *)
Definition conclude (o : nat) (p : promise) (r : Outcome * World) : World :=
  match r with
  | (ORet v, w) => settle p (Fulfilled v) w
  | (OThrow e, w) => settle p (Rejected e) w
  | (OSusp q k c, w) =>
      add_reaction
        {| r_awaits := q; r_k := k; r_ctx := c; r_origin := o;
           r_settles := p |} w
  end.

(** A request reaches the logging middleware.  [express.json()] is
    registered before it: a request whose body that parser refuses is
    answered by the framework without ever getting here, and is no
    [Arrive] of a run. *)
Definition arrive (req : Request) (w : World) : World :=
  let res := length (responses w) in
  let w1 := set_responses (responses w ++ [new_response]) w in
  match exec res (middleware req res (express_next req res)) VUndefined w1
  with
  | (OThrow _, w2) =>
      (* the framework's error handler answers 500 *)
      match responses w2 !! res with
      | Some {| res_sent := None |} =>
          upd_response res
            (fun r => with_sent (VStr "Internal Server Error")
                        (with_status 500 r)) w2
      | _ => w2
      end
  | (_, w2) => w2
  end.

Definition complete (p : promise) (r : IOResult) (w : World) : World :=
  match promises w !! p with
  | Some c =>
      match p_kind c, r with
      | FetchIO _, IOResponse resp => settle p (Fulfilled (VResponse resp)) w
      | JsonIO _, IOJson text => settle p (Fulfilled (VJson text)) w
      | FetchIO _, IOFailure msg
      | JsonIO _, IOFailure msg => settle p (Rejected (VError msg)) w
      | _, _ => w
      end
  | None => w
  end.

(** A suspended async function runs on with the value of the promise
    it awaited; when that promise was rejected the [await] throws the
    error, and since the source has no [try], the error becomes the
    rejection of the function's own promise. *)
Definition resume (t : nat) (w : World) : World :=
  match reactions w !! t with
  | Some (Some r) =>
      match p_state <$> promises w !! r_awaits r with
      | Some (Fulfilled v) =>
          conclude (r_origin r) (r_settles r)
            (exec (r_origin r) (r_k r v) (r_ctx r)
               (set_reactions (<[t := None]> (reactions w)) w))
      | Some (Rejected e) =>
          conclude (r_origin r) (r_settles r)
            (OThrow e, set_reactions (<[t := None]> (reactions w)) w)
      | _ => w
      end
  | _ => w
  end.

(** [res.emit(ev)]: the listeners registered for [ev], in order. *)
Fixpoint emit (res : nat) (ev : string) (ls : list (string * Prog))
    (ctx : JsVal) (w : World) : World :=
  match ls with
  | [] => w
  | (ev', l) :: rest =>
      emit res ev rest ctx
        (if String.eqb ev' ev then snd (exec res l ctx w) else w)
  end.

(** ["finish"] is emitted once, for a response that was ended while
    its connection was still open. *)
Definition finish (res : nat) (ctx : JsVal) (w : World) : World :=
  match responses w !! res with
  | Some r =>
      match res_sent r, res_finished r, res_closed r with
      | Some _, false, false =>
          emit res "finish" (res_listeners r) ctx
            (upd_response res with_finished w)
      | _, _, _ => w
      end
  | None => w
  end.

Definition close (res : nat) (ctx : JsVal) (w : World) : World :=
  match responses w !! res with
  | Some r =>
      if res_closed r then w
      else emit res "close" (res_listeners r) ctx
             (upd_response res with_closed w)
  | None => w
  end.

Definition step (e : Event) (w : World) : World :=
  match e with
  | Arrive req => arrive req w
  | Complete p r => complete p r w
  | Resume t => resume t w
  | Finish res ctx => finish res ctx w
  | Close res ctx => close res ctx w
  | Elapse d => set_clock (clock w + Z.of_N d) w
  end.

Definition run (tr : list Event) (w : World) : World :=
  fold_left (fun w e => step e w) tr w.

(** ** The ambient frame *)

(** The current store is absent, or a [Map] that is either without a
    ["logger"] entry or holds a logger there. *)
Inductive frame (w : World) : JsVal -> Logger -> Prop :=
| frame_absent : frame w VUndefined logger
| frame_empty (l : loc) (m : gmap string JsVal) :
    heap w !! l = Some m -> m !! "logger" = None ->
    frame w (VMap l) logger
| frame_bound (l : loc) (m : gmap string JsVal) (lg : Logger) :
    heap w !! l = Some m -> m !! "logger" = Some (VLogger lg) ->
    frame w (VMap l) lg.

(** The entries a new store inherits from the current one. *)
Definition inherited (w : World) (ctx : JsVal) : gmap string JsVal :=
  match ctx with
  | VMap l => default ∅ (heap w !! l)
  | _ => ∅
  end.

(** The world in which the callback of [withLogContext] starts: one
    more store, a copy of the current one with its logger replaced. *)
Definition bound_world (w : World) (ctx : JsVal) (lg : Logger) (data : Obj)
  : World :=
  set_heap
    (heap w ++ [<["logger" := VLogger (child lg data)]> (inherited w ctx)]) w.

(** The store [l] holds the logger [lg]. *)
Definition ambient (w : World) (l : loc) (lg : Logger) : Prop :=
  exists m, heap w !! l = Some m /\ m !! "logger" = Some (VLogger lg).

(** ** What a suspended chain may do *)

(** Every response keeps its listeners and its finished flag, and a
    closed one stays closed. *)
Definition same_hooks (rs rs' : list Response) : Prop :=
  length rs' = length rs /\
  forall i r, rs !! i = Some r ->
    exists r', rs' !! i = Some r' /\ res_listeners r' = res_listeners r /\
               res_finished r' = res_finished r /\
               (res_closed r = true -> res_closed r' = true).

(** What running on after an [await] changes, for the chain [o] whose
    ambient logger is [lg]: it may write lines through that logger and
    answer its request; stores, suspended chains, the generator and the
    hooks of every response stay as they are. *)
Record effect (o : nat) (lg : Logger) (w w' : World) : Prop := {
  eff_heap : heap w' = heap w;
  eff_reactions : reactions w' = reactions w;
  eff_uuids : uuids w' = uuids w;
  eff_log : exists added,
      log w' = log w ++ added /\
      Forall (fun e => exists msg, e = (o, mk_record Info lg [] msg)) added;
  eff_responses : same_hooks (responses w) (responses w')
}.

(** [contract n o l lg k]: whenever the store [l] holds [lg], running
    [k] on any value has only the effects above and, if it suspends
    again, does so under the same store and with a rest that obeys the
    contract for [n - 1] further suspensions. *)
Fixpoint contract (n : nat) (o : nat) (l : loc) (lg : Logger)
    (k : JsVal -> Prog) {struct n} : Prop :=
  forall v w, ambient w l lg ->
    effect o lg w (snd (exec o (k v) (VMap l) w)) /\
    match fst (exec o (k v) (VMap l) w) with
    | OSusp q k' c =>
        c = VMap l /\
        match n with
        | O => False
        | S n' => contract n' o l lg k'
        end
    | _ => True
    end.

(** ** Requests and their identifiers *)

(** The requests of a run, in arrival order: request number [i] is the
    [i]-th of them, and its response object has the same number. *)
Definition arrivals (tr : list Event) : list Request :=
  flat_map (fun e => match e with Arrive req => [req] | _ => [] end) tr.

(** A request without [x-request-id], or with an empty one. *)
Definition wants_uuid (req : Request) : bool :=
  match req_headers req !! "x-request-id" with
  | Some s => String.eqb s ""
  | None => true
  end.

(** The identifier of a request when [n] identifiers have been
    generated before it: its header, or the generator's next one. *)
Definition assigned_id (req : Request) (n : nat) : string :=
  if wants_uuid req then uuid_gen n
  else default "" (req_headers req !! "x-request-id").

(** The identifier of request number [i] among [reqs]. *)
Definition request_id (reqs : list Request) (i : nat) : option string :=
  match reqs !! i with
  | Some req =>
      Some (assigned_id req (length (List.filter wants_uuid (take i reqs))))
  | None => None
  end.

(** The entry line of a request. *)
Definition entry_record (req : Request) (id : string) : LogRecord :=
  mk_record Info (child logger [("request.id", SStr id)])
    ([("http.request.method", SStr (req_method req));
      ("url.path", SStr (req_url req))]
     ++ opt_field "client.address" (req_ip req)
     ++ opt_field "user_agent.original" (req_headers req !! "user-agent"))
    ("incoming " +:+ req_method req +:+ " request to " +:+ req_url req).

(** The world in which the middleware calls [next()]: the entry line
    is written, the ["finish"] listener registered, and two stores are
    allocated, the request's and the one bound by [withLogContext]. *)
Definition prelude (req : Request) (res : nat) (w : World) : World :=
  let id := assigned_id req (uuids w) in
  let reqLogger := child logger [("request.id", SStr id)] in
  let m0 : gmap string JsVal := <["logger" := VLogger reqLogger]> ∅ in
  set_heap
    (heap w ++
     [m0;
      <["logger" := VLogger (child reqLogger [("request.id", SStr id)])]> m0])
    (upd_response res
       (with_listener "finish" (on_finish res (clock w) reqLogger))
       (set_log (log w ++ [(res, entry_record req id)])
          (if wants_uuid req then set_uuids (S (uuids w)) w else w))).

(** ** Reading the log *)


(** A completion line is one that carries [duration_ms]. *)
Definition is_completion (r : LogRecord) : bool :=
  match field "duration_ms" (rec_fields r) with
  | Some _ => true
  | None => false
  end.

(** The completion lines of request [res]. *)
Definition completions (res : nat) (lg : list (nat * LogRecord)) : nat :=
  length (List.filter (fun e => Nat.eqb (fst e) res && is_completion (snd e)) lg).

(** The first line request [i] wrote. *)
Definition entry_of (lg : list (nat * LogRecord)) (i : nat)
  : option LogRecord :=
  match List.find (fun e => Nat.eqb (fst e) i) lg with
  | Some e => Some (snd e)
  | None => None
  end.

(** ** The invariant of a run *)

(** A logger of the chain whose identifier is [id]. *)
Definition good_logger (id : string) (lg : Logger) : Prop :=
  field "request.id" (bindings lg) = Some (SStr id) /\
  field "duration_ms" (bindings lg) = None.

(** A line of the log: it carries the identifier of the request whose
    handling wrote it, and if it is a completion line it has the three
    fields of one. *)
Definition good_entry (reqs : list Request) (e : nat * LogRecord) : Prop :=
  exists id,
    request_id reqs (fst e) = Some id /\
    field "request.id" (rec_fields (snd e)) = Some (SStr id) /\
    (is_completion (snd e) = true ->
     keys (rec_fields (snd e)) = ["request.id"; "duration_ms"; "status_code"]).

(** A suspended chain: its store holds a logger of its request, and
    what is left of it obeys the contract. *)
Definition good_reaction (reqs : list Request) (w : World) (r : Reaction)
  : Prop :=
  exists l lg id n,
    r_ctx r = VMap l /\ ambient w l lg /\
    request_id reqs (r_origin r) = Some id /\ good_logger id lg /\
    contract n (r_origin r) l lg (r_k r).

(** How a [fetch] fails for [fetchUser]: the network rejects it, or
    the response is not ok; with the error [fetchUser] then throws. *)
Definition fetch_failure (io : IOResult) : option JsVal :=
  match io with
  | IOFailure msg => Some (VError msg)
  | IOResponse r =>
      if resp_ok r then None
      else Some (VError ("Failed to fetch user: " +:+ pretty (resp_status r)
                         +:+ " " +:+ resp_statusText r))
  | IOJson _ => None
  end.

(** A response that was closed before it finished stays so. *)
Definition stays_shut (rs rs' : list Response) : Prop :=
  forall i r, rs !! i = Some r ->
    res_closed r = true -> res_finished r = false ->
    exists r', rs' !! i = Some r' /\ res_closed r' = true /\
               res_finished r' = false.

Record Inv (reqs : list Request) (w : World) : Prop := {
  inv_responses : length (responses w) = length reqs;
  inv_uuids : uuids w = length (List.filter wants_uuid reqs);
  inv_log : Forall (good_entry reqs) (log w);
  inv_entry : forall i req, reqs !! i = Some req ->
    exists id, request_id reqs i = Some id /\
               entry_of (log w) i = Some (entry_record req id);
  inv_count : forall res r, responses w !! res = Some r ->
    completions res (log w) = if res_finished r then 1%nat else 0%nat;
  inv_listeners : forall res r, responses w !! res = Some r ->
    exists id start,
      request_id reqs res = Some id /\
      res_listeners r =
        [("finish",
          on_finish res start (child logger [("request.id", SStr id)]))];
  inv_reactions : forall t r, reactions w !! t = Some (Some r) ->
    good_reaction reqs w r
}.

(** What one arrival adds to the process. *)
Definition arrival_adds (req : Request) (w w' : World) : Prop :=
  let res := length (responses w) in
  let id := assigned_id req (uuids w) in
  exists hx added newr rsp,
    heap w' = heap w ++ hx
    /\ log w' = log w ++ (res, entry_record req id) :: added
    /\ Forall (fun e => exists lg msg,
                 e = (res, mk_record Info lg [] msg) /\ good_logger id lg) added
    /\ reactions w' = reactions w ++ newr
    /\ Forall (fun x => exists r l lg n,
                 x = Some r /\ r_origin r = res /\ r_ctx r = VMap l /\
                 ambient w' l lg /\ good_logger id lg /\
                 contract n res l lg (r_k r)) newr
    /\ responses w' = responses w ++ [rsp]
    /\ res_listeners rsp =
         [("finish",
           on_finish res (clock w) (child logger [("request.id", SStr id)]))]
    /\ res_finished rsp = false
    /\ uuids w' = (if wants_uuid req then S (uuids w) else uuids w).

(** ** The two async functions of the route, once suspended *)

(** What is left of [fetchUser id] after its first [await]: on a
    response that is not ok it throws; on one that is ok it asks for
    the body and suspends again, and what is then left writes the
    success line through the ambient logger and returns the body. *)
Definition fetchUser_rest (o : nat) (id : Z) (k : JsVal -> Prog) : Prop :=
  (forall r c w,
     resp_ok r = false ->
     exec o (k (VResponse r)) c w =
       (OThrow (VError ("Failed to fetch user: " +:+ pretty (resp_status r)
                        +:+ " " +:+ resp_statusText r)), w))
  /\ (forall r c w,
       resp_ok r = true ->
       exists k',
         exec o (k (VResponse r)) c w =
           (OSusp (length (promises w)) k' c,
            set_promises
              (promises w ++
               [{| p_state := Pending; p_kind := JsonIO r;
                   p_handled := true |}]) w)
         /\ forall v l lg w1,
             ambient w1 l lg ->
             exec o (k' v) (VMap l) w1 =
               (ORet v,
                set_log
                  (log w1 ++
                   [(o, mk_record Info lg []
                          ("profile info for user " +:+ pretty id
                           +:+ " retrieved successfully"))]) w1)).

(** What is left of the route's unit of work after [await
    fetchUser(userID)]: it sends the user as the response. *)
Definition work_rest (o res : nat) (k : JsVal -> Prog) : Prop :=
  forall v c w r,
    responses w !! res = Some r -> res_sent r = None ->
    exec o (k v) c w = (ORet VUndefined, upd_response res (with_sent v) w).

(** The state a [/fetch-user] request leaves behind when the
    middleware returns, in full. *)
Definition fetch_user_arrived (req : Request) (w w' : World) : Prop :=
  let res := length (responses w) in
  let pF := length (promises w) in
  let id := assigned_id req (uuids w) in
  let uid := random_digit (digits w) + 1 in
  let lgr := child logger [("request.id", SStr id)] in
  let lg2 :=
    child (child lgr [("request.id", SStr id)]) [("user.id", SNum uid)] in
  exists rB rA m0 m1 m2,
    promises w' =
      promises w ++
      [{| p_state := Pending;
          p_kind := FetchIO ("https://jsonplaceholder.typicode.com/users/"
                             +:+ pretty uid);
          p_handled := true |};
       {| p_state := Pending; p_kind := Internal; p_handled := true |};
       {| p_state := Pending; p_kind := Internal; p_handled := false |};
       {| p_state := Fulfilled VUndefined; p_kind := Internal;
          p_handled := false |}]
    /\ reactions w' = reactions w ++ [Some rB; Some rA]
    /\ r_awaits rB = pF /\ r_settles rB = S pF /\ r_origin rB = res
    /\ r_ctx rB = VMap (S (S (length (heap w))))
    /\ fetchUser_rest res uid (r_k rB)
    /\ r_awaits rA = S pF /\ r_settles rA = S (S pF) /\ r_origin rA = res
    /\ r_ctx rA = VMap (S (S (length (heap w))))
    /\ work_rest res res (r_k rA)
    /\ heap w' = heap w ++ [m0; m1; m2]
    /\ m2 !! "logger" = Some (VLogger lg2)
    /\ log w' =
         log w ++
         [(res, entry_record req id);
          (res, mk_record Info lg2 [] "fetching user data")]
    /\ responses w' =
         responses w ++
         [with_listener "finish" (on_finish res (clock w) lgr) new_response]
    /\ clock w' = clock w.

(** ** Time *)

(** The time that passes during a stretch of a run. *)
Definition elapsed (tr : list Event) : Z :=
  fold_right
    (fun e t => match e with Elapse d => Z.of_N d + t | _ => t end) 0 tr.

(** Every response has the one listener the middleware gave it, and
    that listener was registered at a time that is not in the future. *)
Definition started (w : World) : Prop :=
  forall res r, responses w !! res = Some r ->
    exists start lg,
      res_listeners r = [("finish", on_finish res start lg)] /\
      start <= clock w.

(** A line that reports a duration reports a number that is not
    negative. *)
Definition sane_duration (r : LogRecord) : Prop :=
  forall v, field "duration_ms" (rec_fields r) = Some v ->
    exists d, v = SNum d /\ 0 <= d.

(** ** Whose response a program talks to *)

(** [confined o c]: the only response object that [c] ever talks to is
    number [o]; so do the async functions it calls, the listeners it
    registers, and what is left of it after an [await]. *)
Inductive confined (o : nat) : Prog -> Prop :=
| confined_Ret (v : JsVal) : confined o (Ret v)
| confined_Throw (e : JsVal) : confined o (Throw e)
| confined_GetStore (k : JsVal -> Prog) :
    (forall v, confined o (k v)) -> confined o (GetStore k)
| confined_Run (s : JsVal) (cb : Prog) (k : JsVal -> Prog) :
    confined o cb -> (forall v, confined o (k v)) -> confined o (Run s cb k)
| confined_MapNew (src : option loc) (k : JsVal -> Prog) :
    (forall v, confined o (k v)) -> confined o (MapNew src k)
| confined_MapGet (m : loc) (key : string) (k : JsVal -> Prog) :
    (forall v, confined o (k v)) -> confined o (MapGet m key k)
| confined_MapSet (m : loc) (key : string) (x : JsVal) (k : JsVal -> Prog) :
    (forall v, confined o (k v)) -> confined o (MapSet m key x k)
| confined_Emit (r : LogRecord) (k : JsVal -> Prog) :
    (forall v, confined o (k v)) -> confined o (Emit r k)
| confined_PerformanceNow (k : Z -> Prog) :
    (forall t, confined o (k t)) -> confined o (PerformanceNow k)
| confined_RandomUUID (k : string -> Prog) :
    (forall s, confined o (k s)) -> confined o (RandomUUID k)
| confined_RandomDigit (k : Z -> Prog) :
    (forall n, confined o (k n)) -> confined o (RandomDigit k)
| confined_CallAsync (body : Prog) (k : JsVal -> Prog) :
    confined o body -> (forall v, confined o (k v)) ->
    confined o (CallAsync body k)
| confined_Await (x : JsVal) (k : JsVal -> Prog) :
    (forall v, confined o (k v)) -> confined o (Await x k)
| confined_Fetch (url : string) (k : JsVal -> Prog) :
    (forall v, confined o (k v)) -> confined o (Fetch url k)
| confined_BodyJson (r : FetchResponse) (k : JsVal -> Prog) :
    (forall v, confined o (k v)) -> confined o (BodyJson r k)
| confined_ResOn (ev : string) (l : Prog) (k : JsVal -> Prog) :
    confined o l -> (forall v, confined o (k v)) -> confined o (ResOn o ev l k)
| confined_ResStatusCode (k : Z -> Prog) :
    (forall c, confined o (k c)) -> confined o (ResStatusCode o k)
| confined_ResSetStatus (code : Z) (k : JsVal -> Prog) :
    (forall v, confined o (k v)) -> confined o (ResSetStatus o code k)
| confined_ResSend (body : JsVal) (k : JsVal -> Prog) :
    (forall v, confined o (k v)) -> confined o (ResSend o body k).

(** Every listener and every suspended chain of the process is
    confined to the response of its own request. *)
Definition confined_world (w : World) : Prop :=
  (forall i r, responses w !! i = Some r ->
     Forall (fun l => confined i (snd l)) (res_listeners r))
  /\ (forall t r, reactions w !! t = Some (Some r) ->
        forall v, confined (r_origin r) (r_k r v)).

(** What code confined to [o] can have done to the tables of the
    process: the other responses are as they were, and the chains it
    left behind are its own. *)
Record moved (o : nat) (w w' : World) : Prop := {
  mv_world : confined_world w';
  mv_length : length (responses w') = length (responses w);
  mv_other : forall i, i <> o -> responses w' !! i = responses w !! i;
  mv_reactions : exists added,
      reactions w' = reactions w ++ added /\
      Forall (fun x => exists rc, x = Some rc /\ r_origin rc = o) added
}.

(** The turns of the loop that run code of request [i]: its arrival,
    a chain of its own that runs on, and the end of its response or of
    its connection. *)
Definition concerns (i : nat) (w : World) (e : Event) : bool :=
  match e with
  | Arrive _ => Nat.eqb (length (responses w)) i
  | Resume t =>
      match reactions w !! t with
      | Some (Some r) => Nat.eqb (r_origin r) i
      | _ => false
      end
  | Finish res _ | Close res _ => Nat.eqb res i
  | Complete _ _ | Elapse _ => false
  end.


(** Where a confined program stops at an [await], what is left of it
    is confined too. *)
Definition susp_ok (o : nat) (out : Outcome) : Prop :=
  match out with
  | OSusp _ k _ => forall v, confined o (k v)
  | _ => True
  end.

(** ** The end of the process *)

(** A promise that was rejected and that nothing handles. *)
Definition unhandled (c : PromiseCell) : bool :=
  match p_state c with
  | Rejected _ => negb (p_handled c)
  | _ => false
  end.

(** The source installs no ['unhandledRejection'] handler, and by
    Node's default a rejection that nothing handles when its turn is
    over is raised as an uncaught exception: the process exits, every
    connection is reset, and nothing is served any more. *)
Definition doomed (w : World) : bool := existsb unhandled (promises w).

(** [step] and [run] are the event loop as such, going on whatever
    was rejected; [live_step] and [live_run] are the process under
    Node's default: once it is doomed, no event has any effect. *)
Definition live_step (e : Event) (w : World) : World :=
  if doomed w then w else step e w.

Definition live_run (tr : list Event) (w : World) : World :=
  fold_left (fun w e => live_step e w) tr w.

End Interpreter.

(** * The server-sent events server

    The first server of [src/servers.js]: [GET /sse] answers with an
    event stream and writes the time of day to it once a second until
    the client goes away.  Its state is small enough for plain state
    passing: the response objects of the requests, and the table of
    the timers that [setInterval] has handed out. *)

(** The response of one [/sse] request: what [writeHead] and
    [setHeader] put into its head, whether the head has been flushed,
    the chunks written so far, whether [end] was called, and how many
    writes came after that -- each of those makes Node raise
    [ERR_STREAM_WRITE_AFTER_END] instead of sending the chunk. *)
Record SseStream : Type := {
  st_status : option Z;
  st_headers : gmap string string;
  st_flushed : bool;
  st_chunks : list string;
  st_ended : bool;
  st_late_writes : nat;
  (* the listeners of [req.on("close", ...)]: each holds the interval
     it clears *)
  st_on_close : list nat
}.

(** A timer of [setInterval] is the response its callback writes to,
    until [clearInterval] strikes it out. *)
Record SseServer : Type := {
  sse_streams : list SseStream;
  sse_timers : list (option nat)
}.

Definition sse_init : SseServer := {| sse_streams := []; sse_timers := [] |}.

Definition new_stream : SseStream :=
  {| st_status := None; st_headers := ∅; st_flushed := false;
     st_chunks := []; st_ended := false; st_late_writes := 0;
     st_on_close := [] |}.

Definition upd_stream (c : nat) (f : SseStream -> SseStream)
    (srv : SseServer) : SseServer :=
  match sse_streams srv !! c with
  | Some s =>
      {| sse_streams := <[c := f s]> (sse_streams srv);
         sse_timers := sse_timers srv |}
  | None => srv
  end.

(** What the methods of the response do to it. *)

Definition st_setHeader (name value : string) (s : SseStream) : SseStream :=
  {| st_status := st_status s;
     st_headers := <[name := value]> (st_headers s);
     st_flushed := st_flushed s; st_chunks := st_chunks s;
     st_ended := st_ended s; st_late_writes := st_late_writes s;
     st_on_close := st_on_close s |}.

(** The headers given to [writeHead] are merged into those already
    set, and win. *)
Definition st_writeHead (code : Z) (headers : list (string * string))
    (s : SseStream) : SseStream :=
  {| st_status := Some code;
     st_headers := list_to_map headers ∪ st_headers s;
     st_flushed := st_flushed s; st_chunks := st_chunks s;
     st_ended := st_ended s; st_late_writes := st_late_writes s;
     st_on_close := st_on_close s |}.

Definition st_flushHeaders (s : SseStream) : SseStream :=
  {| st_status := st_status s; st_headers := st_headers s;
     st_flushed := true; st_chunks := st_chunks s;
     st_ended := st_ended s; st_late_writes := st_late_writes s;
     st_on_close := st_on_close s |}.

Definition st_write (chunk : string) (s : SseStream) : SseStream :=
  if st_ended s then
    {| st_status := st_status s; st_headers := st_headers s;
       st_flushed := st_flushed s; st_chunks := st_chunks s;
       st_ended := true; st_late_writes := S (st_late_writes s);
       st_on_close := st_on_close s |}
  else
    {| st_status := st_status s; st_headers := st_headers s;
       st_flushed := st_flushed s; st_chunks := st_chunks s ++ [chunk];
       st_ended := false; st_late_writes := st_late_writes s;
       st_on_close := st_on_close s |}.

Definition st_end (s : SseStream) : SseStream :=
  {| st_status := st_status s; st_headers := st_headers s;
     st_flushed := st_flushed s; st_chunks := st_chunks s;
     st_ended := true; st_late_writes := st_late_writes s;
     st_on_close := st_on_close s |}.

Definition st_listen (id : nat) (s : SseStream) : SseStream :=
  {| st_status := st_status s; st_headers := st_headers s;
     st_flushed := st_flushed s; st_chunks := st_chunks s;
     st_ended := st_ended s; st_late_writes := st_late_writes s;
     st_on_close := st_on_close s ++ [id] |}.

(** [res.setHeader(name, value)] *)
Definition setHeader (c : nat) (name value : string)
  : SseServer -> SseServer :=
  upd_stream c (st_setHeader name value).

(** [res.writeHead(code, headers)] *)
Definition writeHead (c : nat) (code : Z) (headers : list (string * string))
  : SseServer -> SseServer :=
  upd_stream c (st_writeHead code headers).

(** [res.flushHeaders()] *)
Definition flushHeaders (c : nat) : SseServer -> SseServer :=
  upd_stream c st_flushHeaders.

(** [res.write(chunk)] *)
Definition res_write (c : nat) (chunk : string) : SseServer -> SseServer :=
  upd_stream c (st_write chunk).

(** [res.end()] *)
Definition res_end (c : nat) : SseServer -> SseServer :=
  upd_stream c st_end.

(** [req.on("close", () => { clearInterval(id); res.end(); })] *)
Definition on_close (c : nat) (id : nat) : SseServer -> SseServer :=
  upd_stream c (st_listen id).

(** [setInterval(() => res.write(...), 1000)]: the new timer's id. *)
Definition setInterval (c : nat) (srv : SseServer) : nat * SseServer :=
  (length (sse_timers srv),
   {| sse_streams := sse_streams srv;
      sse_timers := sse_timers srv ++ [Some c] |}).

(** [clearInterval(id)] *)
Definition clearInterval (id : nat) (srv : SseServer) : SseServer :=
  {| sse_streams := sse_streams srv;
     sse_timers := <[id := None]> (sse_timers srv) |}.

(** [req.headers.origin || "*"] *)
Definition cors_origin (header : option string) : string :=
  match header with
  | Some s => if String.eqb s "" then "*" else s
  | None => "*"
  end.

Definition nl : string := String (Ascii.ascii_of_nat 10) EmptyString.

(** The chunk the timer writes: [`data: ${now}\n\n`]. *)
Definition sse_frame (now : string) : string :=
  "data: " +:+ now +:+ nl +:+ nl.

(** The response as the handler leaves it, for a request with the
    [Origin] header [header] whose timer is [id]. *)
Definition answered (header : option string) (id : nat) : SseStream :=
  st_listen id
    (st_flushHeaders
       (st_writeHead 200
          [("Content-Type", "text/event-stream");
           ("Cache-Control", "no-cache");
           ("Connection", "keep-alive");
           ("Access-Control-Allow-Origin", cors_origin header);
           ("Access-Control-Allow-Credentials", "true")]
          (st_setHeader "X-Accel-Buffering" "no" new_stream))).

(** [app.get("/sse", (req, res) => ...)], for the request whose
    response is number [c]. *)
Definition sse_handler (header : option string) (c : nat) (srv : SseServer)
  : SseServer :=
  let origin := cors_origin header in
  let srv := setHeader c "X-Accel-Buffering" "no" srv in
  let srv :=
    writeHead c 200
      [("Content-Type", "text/event-stream");
       ("Cache-Control", "no-cache");
       ("Connection", "keep-alive");
       ("Access-Control-Allow-Origin", origin);
       ("Access-Control-Allow-Credentials", "true")] srv in
  let srv := flushHeaders c srv in
  let '(intervalId, srv) := setInterval c srv in
  on_close c intervalId srv.

(** What happens to the server: a request for [/sse] arrives, with or
    without an [Origin] header; a timer is due, at the time of day
    [now]; the connection of a request goes away. *)
Inductive SseEvent : Type :=
| SseRequest (origin : option string)
| SseTick (id : nat) (now : string)
| SseClose (c : nat).

(** The callback of the timer [id], if it has not been cleared. *)
Definition sse_tick (id : nat) (now : string) (srv : SseServer) : SseServer :=
  match sse_timers srv !! id with
  | Some (Some c) => res_write c (sse_frame now) srv
  | _ => srv
  end.

(** The ["close"] listeners of request [c], in order. *)
Definition sse_close (c : nat) (srv : SseServer) : SseServer :=
  match sse_streams srv !! c with
  | Some s =>
      fold_left (fun srv id => res_end c (clearInterval id srv))
        (st_on_close s) srv
  | None => srv
  end.

Definition sse_step (e : SseEvent) (srv : SseServer) : SseServer :=
  match e with
  | SseRequest header =>
      let c := length (sse_streams srv) in
      sse_handler header c
        {| sse_streams := sse_streams srv ++ [new_stream];
           sse_timers := sse_timers srv |}
  | SseTick id now => sse_tick id now srv
  | SseClose c => sse_close c srv
  end.

Definition sse_run (tr : list SseEvent) (srv : SseServer) : SseServer :=
  fold_left (fun srv e => sse_step e srv) tr srv.

(** Timers and responses go in pairs: request [c] set timer [c], its
    one ["close"] listener clears that timer, the timer is running as
    long as the response has not been ended, and no write came late. *)
Definition sse_inv (srv : SseServer) : Prop :=
  length (sse_timers srv) = length (sse_streams srv) /\
  forall c s, sse_streams srv !! c = Some s ->
    st_on_close s = [c] /\ st_late_writes s = 0%nat /\
    sse_timers srv !! c = Some (if st_ended s then None else Some c).

(** ** What a client of [/sse] is due *)

(** The [Origin] headers of the requests of a run, in arrival order. *)
Definition sse_requests (tr : list SseEvent) : list (option string) :=
  flat_map (fun e => match e with SseRequest h => [h] | _ => [] end) tr.

(** The times of day that client [c] is sent during [tr], when [n]
    requests have arrived before [tr] and [live] tells whether [c] is
    connected then: the ticks of its timer -- the [c]-th that
    [setInterval] handed out -- between its request and the end of its
    connection. *)
Fixpoint sse_due (c : nat) (n : nat) (live : bool) (tr : list SseEvent)
  : list string :=
  match tr with
  | [] => []
  | SseRequest _ :: rest =>
      sse_due c (S n) (live || Nat.eqb n c) rest
  | SseTick id now :: rest =>
      if live && Nat.eqb id c then now :: sse_due c n live rest
      else sse_due c n live rest
  | SseClose c' :: rest =>
      sse_due c n (live && negb (Nat.eqb c' c)) rest
  end.

(** ** Sample inputs *)

(** A generator that never repeats itself, and a constant digit. *)
Definition sample_uuid (n : nat) : string := "uuid-" +:+ pretty n.
Definition sample_digit (n : nat) : Z := 6.

(** [GET /fetch-user] with [x-request-id: abc-123]. *)
Definition fetch_request : Request :=
  {| req_method := "GET"; req_url := "/fetch-user"; req_ip := Some "::1";
     req_headers := {[ "x-request-id" := "abc-123" ]};
     req_route := RouteFetchUser |}.

(** [GET /nope] without headers: no route, the framework answers 404. *)
Definition stray_request : Request :=
  {| req_method := "GET"; req_url := "/nope"; req_ip := None;
     req_headers := ∅; req_route := RouteNone |}.

Definition ok_response : FetchResponse :=
  {| resp_ok := true; resp_status := 200; resp_statusText := "OK";
     resp_body := "{}" |}.

(** A [/fetch-user] request whose client goes away while the [fetch]
    is under way; the handler then runs to its end and answers. *)
Definition early_close : list Event :=
  [Arrive fetch_request; Close 0 VUndefined;
   Complete 0 (IOResponse ok_response); Resume 0;
   Complete 4 (IOJson "{}"); Resume 2; Resume 1;
   Finish 0 VUndefined].

(** A store that holds a logger bound to [request.id]. *)
Definition one_store : World :=
  set_heap [{[ "logger" := VLogger [[("request.id", SStr "r-1")]] ]}] init.

(** A [/fetch-user] request that is served: the remote service
    answers, the body is read, and the response is written out. *)
Definition served : list Event :=
  [Arrive fetch_request; Complete 0 (IOResponse ok_response); Resume 0;
   Complete 4 (IOJson "{}"); Resume 2; Resume 1; Finish 0 VUndefined].

(** A [fetch] answered 503. *)
Definition unavailable : FetchResponse :=
  {| resp_ok := false; resp_status := 503;
     resp_statusText := "Service Unavailable"; resp_body := "" |}.

(** Two clients of [/sse]; the first one leaves after two ticks. *)
Definition two_clients : list SseEvent :=
  [SseRequest (Some "https://a.example"); SseTick 0 "10:00:00";
   SseRequest None; SseTick 1 "10:00:01"; SseTick 0 "10:00:01";
   SseClose 0; SseTick 0 "10:00:02"; SseTick 1 "10:00:02"].

(** * Properties *)

(** ** Parsed bodies *)

(** [null], [false], the empty string and the zeros are falsy, also a
    number too small for a double; objects, arrays, [true] and the
    other numbers are not. *)
Lemma json_falsy_samples :
  let quote := String (Ascii.ascii_of_nat 34) EmptyString in
  List.map json_falsy
    ["null"; "false"; quote +:+ quote; "0"; "-0.0"; "0e5"; "1e-400";
     " null "] = [true; true; true; true; true; true; true; true]
  /\ List.map json_falsy
       ["{}"; "[]"; "true"; quote +:+ "a" +:+ quote; "1"; "0.5"; "5e-324";
        "-1"] = [false; false; false; false; false; false; false; false].
Proof. split; vm_compute; reflexivity. Qed.

(** ** Records and their fields *)

Lemma field_app (key : string) (a b : Obj) :
  field key (a ++ b) =
  match field key b with
  | Some v => Some v
  | None => field key a
  end.
Proof.
  induction a as [|[k v] a IH]; simpl.
  - destruct (field key b); reflexivity.
  - rewrite IH. destruct (field key b); reflexivity.
Qed.

Lemma bindings_child (l : Logger) (data : Obj) :
  bindings (child l data) = bindings l ++ data.
Proof.
  unfold bindings, child. rewrite concat_app. simpl.
  rewrite app_nil_r. reflexivity.
Qed.

Lemma field_None_keys (key : string) (o : Obj) :
  field key o = None <-> ~ In key (keys o).
Proof.
  induction o as [|[k v] o IH]; simpl.
  - tauto.
  - destruct (field key o) eqn:E.
    + split; [discriminate|]. intros H. exfalso.
      assert (Hn : ~ In key (keys o)) by tauto.
      apply IH in Hn. discriminate.
    + destruct (String.eqb_spec k key) as [->|Hne].
      * split; [discriminate|]. intros H. exfalso. apply H. now left.
      * split; [|reflexivity]. intros _ [H|H]; [congruence|].
        apply IH in H; [exact H|reflexivity].
Qed.

(** ** Lists used as stores: the cell appended last *)

Lemma lookup_snoc {A} (l : list A) (x : A) : (l ++ [x]) !! length l = Some x.
Proof. apply list_lookup_middle. reflexivity. Qed.

Lemma insert_snoc {A} (l : list A) (x y : A) :
  <[length l := y]> (l ++ [x]) = l ++ [y].
Proof.
  rewrite insert_app_r_alt by lia. rewrite Nat.sub_diag. reflexivity.
Qed.

Lemma lookup_snoc_old {A} (l : list A) (x : A) (i : nat) (y : A) :
  l !! i = Some y -> (l ++ [x]) !! i = Some y.
Proof. intros H. apply lookup_app_l_Some. exact H. Qed.

(** Symbolic execution of a program up to the next data-dependent
    choice. *)
Ltac exec_steps :=
  cbn [exec bind fst snd new_promise type_error log_at negb getStore
       opt_get map_set new_Map logger_child or_else].

(** Reading a field of an updated world. *)
Ltac world_steps :=
  cbn [heap promises reactions responses log uuids digits clock
       set_heap set_promises set_reactions set_responses set_log set_uuids
       set_digits set_clock add_reaction] in *.

Ltac unfold_contract H := cbn [contract] in H.
Ltac unfold_step := cbn [step arrivals flat_map app].
Ltac unfold_run := unfold run.

Section Laws.

Variable uuid_gen : nat -> string.
Variable random_digit : nat -> Z.

Local Abbreviation exec := (exec uuid_gen random_digit).
Local Abbreviation step := (step uuid_gen random_digit).
Local Abbreviation run := (run uuid_gen random_digit).
Local Abbreviation contract := (contract uuid_gen random_digit).
Local Abbreviation assigned_id := (assigned_id uuid_gen).
Local Abbreviation request_id := (request_id uuid_gen).
Local Abbreviation prelude := (prelude uuid_gen).
Local Abbreviation good_entry := (good_entry uuid_gen).
Local Abbreviation good_reaction := (good_reaction uuid_gen random_digit).
Local Abbreviation Inv := (Inv uuid_gen random_digit).
Local Abbreviation arrival_adds := (arrival_adds uuid_gen random_digit).
Local Abbreviation fetchUser_rest := (fetchUser_rest uuid_gen random_digit).
Local Abbreviation work_rest := (work_rest uuid_gen random_digit).
Local Abbreviation fetch_user_arrived :=
  (fetch_user_arrived uuid_gen random_digit).

(** ** Sequencing *)

Lemma exec_bind (o : nat) (c : Prog) (f : JsVal -> Prog) (ctx : JsVal)
    (w : World) :
  exec o (bind c f) ctx w =
  match exec o c ctx w with
  | (ORet v, w1) => exec o (f v) ctx w1
  | (OThrow e, w1) => (OThrow e, w1)
  | (OSusp p k c', w1) => (OSusp p (fun x => bind (k x) f) c', w1)
  end.
Proof.
  revert ctx w.
  induction c as [v|e|k IH|s cb _ k IH|src k IH|m key k IH|m key v k IH
                 |r k IH|k IH|k IH|k IH|body _ k IH|v k IH|url k IH|r k IH
                 |res ev l _ k IH|res k IH|res code k IH|res body k IH];
    intros ctx w; simpl; try reflexivity; try apply IH.
  - destruct (exec o cb s w) as [[v|e|p k' c'] w1];
      [apply IH|reflexivity|reflexivity].
  - destruct src as [l|]; [|apply IH].
    destruct (heap w !! l); [apply IH|reflexivity].
  - destruct (heap w !! m); [apply IH|reflexivity].
  - destruct (heap w !! m); [apply IH|reflexivity].
  - destruct (exec o body ctx w) as [[v|e|p k' c'] w1]; apply IH.
  - destruct v; reflexivity.
  - destruct (responses w !! res); [apply IH|reflexivity].
  - destruct (responses w !! res) as [r|]; [|reflexivity].
    destruct (res_sent r); [reflexivity|apply IH].
Qed.

Lemma exec_getLogger (o : nat) (ctx : JsVal) (w : World) (lg : Logger) :
  frame w ctx lg ->
  exec o getLogger ctx w = (ORet (VLogger lg), w).
Proof.
  intros [|l m Hl Hm|l m lg' Hl Hm]; unfold getLogger; simpl.
  - reflexivity.
  - rewrite Hl. simpl. rewrite Hm. reflexivity.
  - rewrite Hl. simpl. rewrite Hm. reflexivity.
Qed.

Lemma exec_withLogContext (o : nat) (data : Obj) (cb : Prog) (ctx : JsVal)
    (w : World) (lg : Logger) :
  frame w ctx lg ->
  exec o (withLogContext data cb) ctx w =
  exec o (Run (VMap (length (heap w))) cb Ret) ctx (bound_world w ctx lg data).
Proof.
  intros [|l m Hl Hm|l m lg' Hl Hm]; unfold withLogContext, bound_world;
    simpl.
  - rewrite lookup_snoc. simpl. rewrite insert_snoc. reflexivity.
  - rewrite Hl. simpl. rewrite Hm. simpl. rewrite Hl. simpl.
    rewrite lookup_snoc. simpl. rewrite insert_snoc. reflexivity.
  - rewrite Hl. simpl. rewrite Hm. simpl. rewrite Hl. simpl.
    rewrite lookup_snoc. simpl. rewrite insert_snoc. reflexivity.
Qed.

Lemma exec_run_ret (o : nat) (store : JsVal) (cb : Prog) (ctx : JsVal)
    (w : World) :
  exec o (Run store cb Ret) ctx w =
  match exec o cb store w with
  | (OSusp _ _ _, w1) =>
      (OThrow (internal_error "await outside of an async function"), w1)
  | r => r
  end.
Proof.
  simpl. destruct (exec o cb store w) as [[v|e|p k c] w1]; reflexivity.
Qed.

Lemma frame_bound_world (w : World) (ctx : JsVal) (lg : Logger) (data : Obj) :
  frame (bound_world w ctx lg data) (VMap (length (heap w))) (child lg data).
Proof.
  eapply frame_bound.
  - unfold bound_world. simpl. apply lookup_snoc.
  - apply lookup_insert_eq.
Qed.

(** C5. [getLogger()] called with no ambient frame -- no store for the
    current chain, or a store without a ["logger"] entry -- returns the
    base logger: it returns (it neither throws nor suspends) and leaves
    the process state as it was. *)
Theorem getLogger_fallback (o : nat) (ctx : JsVal) (w : World) :
  (ctx = VUndefined \/
   exists l m, ctx = VMap l /\ heap w !! l = Some m /\ m !! "logger" = None) ->
  exec o getLogger ctx w = (ORet (VLogger logger), w).
Proof.
  intros [->|(l & m & -> & Hl & Hm)]; apply exec_getLogger.
  - constructor.
  - econstructor; eassumption.
Qed.

(** The ["finish"] listener writes one line through the logger it
    closed over, whatever the current store is. *)
Lemma exec_on_finish (o res : nat) (start : Z) (lg : Logger)
    (ctx : JsVal) (w : World) (r : Response) :
  responses w !! res = Some r ->
  exists lvl msg,
    exec o (on_finish res start lg) ctx w =
      (ORet VUndefined,
       set_log
         (log w ++
          [(o, mk_record lvl lg
                 [("duration_ms", SNum (clock w - start));
                  ("status_code", SNum (res_status r))] msg)]) w).
Proof.
  intros Hr. unfold on_finish. simpl. rewrite Hr.
  destruct (500 <=? res_status r); [|destruct (400 <=? res_status r)];
    eexists; eexists; reflexivity.
Qed.

(** C4. The completion record written by the ["finish"] listener has
    level error when the status code is at least 500, warn when it is
    in 400..499, and info otherwise; so 200 and 399 give info, 400, 404
    and 499 give warn, and 500 gives error. *)
Theorem completion_severity (o res : nat) (start : Z) (lg : Logger)
    (ctx : JsVal) (w : World) (r : Response) :
  responses w !! res = Some r ->
  exists lvl msg,
    exec o (on_finish res start lg) ctx w =
      (ORet VUndefined,
       set_log
         (log w ++
          [(o, mk_record lvl lg
                 [("duration_ms", SNum (clock w - start));
                  ("status_code", SNum (res_status r))] msg)]) w)
    /\ (500 <= res_status r -> lvl = Error)
    /\ (400 <= res_status r < 500 -> lvl = Warn)
    /\ (res_status r < 400 -> lvl = Info)
    /\ (res_status r = 200 -> lvl = Info)
    /\ (res_status r = 399 -> lvl = Info)
    /\ (res_status r = 400 -> lvl = Warn)
    /\ (res_status r = 404 -> lvl = Warn)
    /\ (res_status r = 499 -> lvl = Warn)
    /\ (res_status r = 500 -> lvl = Error).
Proof.
  intros Hr. unfold on_finish. simpl. rewrite Hr.
  destruct (500 <=? res_status r) eqn:E5.
  - apply Z.leb_le in E5. exists Error, "server error".
    split; [reflexivity|]. repeat split; intros; lia || reflexivity.
  - apply Z.leb_gt in E5. destruct (400 <=? res_status r) eqn:E4.
    + apply Z.leb_le in E4. exists Warn, "client error".
      split; [reflexivity|]. repeat split; intros; lia || reflexivity.
    + apply Z.leb_gt in E4. exists Info, "request completed".
      split; [reflexivity|]. repeat split; intros; lia || reflexivity.
Qed.

Lemma length_mark_handled (p : promise) (w : World) :
  length (promises (mark_handled p w)) = length (promises w).
Proof.
  unfold mark_handled. destruct (promises w !! p); [|reflexivity].
  simpl. apply length_insert.
Qed.

(** C7. [withLogContext] hands back what the unit of work returns and
    lets what it throws pass unchanged; a unit of work that is an async
    function yields its promise, rejected with the very failure when
    the body fails.  The binder writes no log line of its own; the
    caller goes on under the store it had, after a result as after a
    failure caught by an enclosing async call; and the suspended chains
    and the stores that existed before are left as they were. *)
Theorem withLogContext_transparent (o : nat) (data : Obj) (cb : Prog)
    (ctx : JsVal) (w : World) (lg : Logger) :
  frame w ctx lg ->
  let w1 := bound_world w ctx lg data in
  let inner := VMap (length (heap w)) in
  (forall v w2, exec o cb inner w1 = (ORet v, w2) ->
     exec o (withLogContext data cb) ctx w = (ORet v, w2))
  /\ (forall e w2, exec o cb inner w1 = (OThrow e, w2) ->
     exec o (withLogContext data cb) ctx w = (OThrow e, w2))
  /\ (forall body e w2, exec o body inner w1 = (OThrow e, w2) ->
     exec o (withLogContext data (CallAsync body Ret)) ctx w =
       (ORet (VPromise (length (promises w2))),
        snd (new_promise (Rejected e) Internal w2)))
  /\ (forall v w2 k, exec o cb inner w1 = (ORet v, w2) ->
     exec o (bind (withLogContext data cb) k) ctx w = exec o (k v) ctx w2)
  /\ (forall e w2 k, exec o cb inner w1 = (OThrow e, w2) ->
     exec o (CallAsync (withLogContext data cb) k) ctx w =
       exec o (k (VPromise (length (promises w2)))) ctx
         (snd (new_promise (Rejected e) Internal w2)))
  /\ log w1 = log w
  /\ reactions w1 = reactions w
  /\ promises w1 = promises w
  /\ responses w1 = responses w
  /\ (forall i m, heap w !! i = Some m -> heap w1 !! i = Some m).
Proof.
  intros Hf w1 inner.
  pose proof (exec_withLogContext o data cb ctx w lg Hf) as E.
  rewrite exec_run_ret in E. fold w1 inner in E.
  repeat split.
  - intros v w2 H. rewrite E, H. reflexivity.
  - intros e w2 H. rewrite E, H. reflexivity.
  - intros body e w2 H.
    rewrite (exec_withLogContext o data _ ctx w lg Hf), exec_run_ret.
    fold w1 inner. simpl. rewrite H. reflexivity.
  - intros v w2 k H. rewrite exec_bind, E, H. reflexivity.
  - intros e w2 k H. exec_steps. rewrite E, H. reflexivity.
  - intros i m H. unfold w1, bound_world. simpl.
    apply lookup_snoc_old. exact H.
Qed.

(** C8. [withLogContext] does not touch what its caller holds: the new
    store is a fresh [Map], a copy of the parent's entries with the
    logger replaced by a child built from the parent logger and the
    data; the parent's store, and every store that existed, keeps its
    entries; and once the bound work is over the caller reads its own
    logger again. *)
Theorem withLogContext_preserves_parent (o : nat) (data : Obj) (cb : Prog)
    (l : loc) (m : gmap string JsVal) (lg : Logger) (w : World) :
  heap w !! l = Some m ->
  m !! "logger" = Some (VLogger lg) ->
  let w1 := bound_world w (VMap l) lg data in
  let l' := length (heap w) in
  exec o (withLogContext data cb) (VMap l) w =
    exec o (Run (VMap l') cb Ret) (VMap l) w1
  /\ heap w !! l' = None
  /\ heap w1 !! l' = Some (<["logger" := VLogger (child lg data)]> m)
  /\ heap w1 !! l = Some m
  /\ (forall i x, heap w !! i = Some x -> heap w1 !! i = Some x)
  /\ bindings (child lg data) = bindings lg ++ data
  /\ (forall v w2,
        exec o cb (VMap l') w1 = (ORet v, w2) ->
        heap w2 !! l = Some m ->
        exec o (withLogContext data cb ;;; getLogger) (VMap l) w =
          (ORet (VLogger lg), w2)).
Proof.
  intros Hl Hm w1 l'.
  assert (Hf : frame w (VMap l) lg) by (econstructor; eassumption).
  assert (Hold : forall i x, heap w !! i = Some x -> heap w1 !! i = Some x).
  { intros i x H. unfold w1, bound_world. simpl.
    apply lookup_snoc_old. exact H. }
  repeat split.
  - apply exec_withLogContext. exact Hf.
  - apply lookup_ge_None. unfold l'. lia.
  - unfold w1, bound_world, inherited, l'. simpl. rewrite Hl. simpl.
    apply lookup_snoc.
  - apply Hold. exact Hl.
  - exact Hold.
  - apply bindings_child.
  - intros v w2 H H2.
    rewrite exec_bind, (exec_withLogContext o data cb _ w lg Hf), exec_run_ret.
    fold w1 l'. rewrite H. apply exec_getLogger.
    econstructor; eassumption.
Qed.

(** C3. In [withLogContext(f1, () => withLogContext(f2, work))] the
    work runs under the innermost store, whose logger is the current
    logger extended with [f1] and then [f2].  This is the logger
    [getLogger()] returns there, also to the part of an async unit of
    work that runs after an [await]; a line written through it shows,
    under each key, the call site's value, else [f2]'s, else [f1]'s,
    else the one inherited from the enclosing scope. *)
Theorem withLogContext_nested (o : nat) (f1 f2 : Obj) (work : Prog)
    (ctx : JsVal) (w : World) (lg : Logger) :
  frame w ctx lg ->
  let l1 := length (heap w) in
  let l2 := S l1 in
  let L := child (child lg f1) f2 in
  let w2 := bound_world (bound_world w ctx lg f1) (VMap l1) (child lg f1) f2 in
  exec o (withLogContext f1 (withLogContext f2 work)) ctx w =
    exec o (Run (VMap l2) work Ret) ctx w2
  /\ exec o getLogger (VMap l2) w2 = (ORet (VLogger L), w2)
  /\ (forall lvl payload msg,
        exec o (withLogContext f1 (withLogContext f2
                  (let! g := getLogger in log_at lvl g payload msg))) ctx w =
          (ORet VUndefined,
           set_log (log w2 ++ [(o, mk_record lvl L payload msg)]) w2))
  /\ (forall p k,
        exec o (withLogContext f1 (withLogContext f2
                  (CallAsync (Await (VPromise p) k) Ret))) ctx w =
          (ORet (VPromise (length (promises w2))),
           add_reaction
             {| r_awaits := p; r_k := k; r_ctx := VMap l2; r_origin := o;
                r_settles := length (promises w2) |}
             (snd (new_promise Pending Internal (mark_handled p w2)))))
  /\ (forall lvl payload msg key,
        field key (rec_fields (mk_record lvl L payload msg)) =
        match field key payload with
        | Some v => Some v
        | None =>
            match field key f2 with
            | Some v => Some v
            | None =>
                match field key f1 with
                | Some v => Some v
                | None => field key (bindings lg)
                end
            end
        end).
Proof.
  intros Hf l1 l2 L w2.
  pose proof (frame_bound_world w ctx lg f1) as Hf1. fold l1 in Hf1.
  pose proof (frame_bound_world (bound_world w ctx lg f1) (VMap l1)
                (child lg f1) f2) as Hf2.
  assert (El : length (heap (bound_world w ctx lg f1)) = l2).
  { unfold bound_world. simpl. rewrite length_app. simpl. unfold l2, l1. lia. }
  rewrite El in Hf2. fold L w2 in Hf2.
  assert (E : forall work',
    exec o (withLogContext f1 (withLogContext f2 work')) ctx w =
    exec o (Run (VMap l2) work' Ret) ctx w2).
  { intros work'.
    rewrite (exec_withLogContext o f1 _ ctx w lg Hf). fold l1.
    rewrite exec_run_ret.
    rewrite (exec_withLogContext o f2 _ (VMap l1) _ (child lg f1) Hf1).
    rewrite El. fold w2. rewrite !exec_run_ret.
    destruct (exec o work' (VMap l2) w2) as [[v|e|p k c] w3]; reflexivity. }
  repeat split.
  - apply E.
  - apply exec_getLogger. exact Hf2.
  - intros lvl payload msg. rewrite E, exec_run_ret, exec_bind.
    rewrite (exec_getLogger o _ w2 L Hf2). reflexivity.
  - intros p k. rewrite E, exec_run_ret. simpl.
    rewrite length_mark_handled. reflexivity.
  - intros lvl payload msg key. unfold L. simpl.
    rewrite !bindings_child, !field_app.
    destruct (field key payload); [reflexivity|].
    destruct (field key f2); [reflexivity|].
    destruct (field key f1); reflexivity.
Qed.

Lemma ambient_frame (w : World) (l : loc) (lg : Logger) :
  ambient w l lg -> frame w (VMap l) lg.
Proof. intros (m & Hl & Hm). econstructor; eassumption. Qed.

Lemma ambient_heap (w w' : World) (l : loc) (lg : Logger) :
  (forall i m, heap w !! i = Some m -> heap w' !! i = Some m) ->
  ambient w l lg -> ambient w' l lg.
Proof. intros H (m & Hl & Hm). exists m. split; [apply H|]; assumption. Qed.

Lemma same_hooks_refl (rs : list Response) : same_hooks rs rs.
Proof. split; [reflexivity|]. intros i r H. exists r. auto. Qed.

Lemma same_hooks_insert (rs : list Response) (res : nat) (r r' : Response) :
  rs !! res = Some r ->
  res_listeners r' = res_listeners r ->
  res_finished r' = res_finished r ->
  (res_closed r = true -> res_closed r' = true) ->
  same_hooks rs (<[res := r']> rs).
Proof.
  intros Hr Hl Hf Hc. split; [apply length_insert|].
  intros i r0 Hi. destruct (decide (i = res)) as [->|Hne].
  - rewrite Hr in Hi. injection Hi as <-.
    exists r'. split; [|split_and!; assumption].
    apply list_lookup_insert_eq. eapply lookup_lt_Some. exact Hr.
  - exists r0. split; [|split_and!; auto].
    rewrite list_lookup_insert_ne by congruence. exact Hi.
Qed.

Lemma effect_refl (o : nat) (lg : Logger) (w : World) : effect o lg w w.
Proof.
  split; try reflexivity.
  - exists []. split; [symmetry; apply app_nil_r|constructor].
  - apply same_hooks_refl.
Qed.

Lemma same_hooks_sent (rs : list Response) (res : nat) (r : Response)
    (body : JsVal) :
  rs !! res = Some r ->
  same_hooks rs (<[res := with_sent body r]> rs).
Proof. intros Hr. apply (same_hooks_insert rs res r); auto. Qed.

Lemma effect_quiet (o : nat) (lg : Logger) (w w' : World) :
  heap w' = heap w -> reactions w' = reactions w -> uuids w' = uuids w ->
  log w' = log w -> responses w' = responses w ->
  effect o lg w w'.
Proof.
  intros Hh Hr Hu Hl Hs. split; try assumption.
  - exists []. rewrite Hl. split; [symmetry; apply app_nil_r|constructor].
  - rewrite Hs. apply same_hooks_refl.
Qed.

(** Marking and settling promises only touch the promise table. *)
Lemma mark_handled_eq (p : promise) (w : World) :
  exists ps, mark_handled p w = set_promises ps w /\
             length ps = length (promises w).
Proof.
  unfold mark_handled. destruct (promises w !! p).
  - eexists. split; [reflexivity|]. apply length_insert.
  - exists (promises w). split; [|reflexivity]. destruct w; reflexivity.
Qed.

Lemma settle_eq (p : promise) (st : PState) (w : World) :
  exists ps, settle p st w = set_promises ps w /\
             length ps = length (promises w).
Proof.
  unfold settle.
  destruct (promises w !! p) as [[[] ? ?]|];
    try (exists (promises w); split; [destruct w; reflexivity|reflexivity]).
  eexists. split; [reflexivity|]. apply length_insert.
Qed.

Ltac quiet :=
  apply effect_quiet; unfold mark_handled, settle;
  repeat case_match; reflexivity.

(** The rest of [fetchUser] once the body has been read. *)
Lemma contract_after_json (o : nat) (l : loc) (lg : Logger) (msg : string) :
  contract 0 o l lg
    (fun x => let! g := getLogger in log_at Info g [] msg ;;; Ret x).
Proof.
  intros v w Ha. rewrite exec_bind.
  rewrite (exec_getLogger o _ w lg (ambient_frame _ _ _ Ha)).
  exec_steps. split; [|exact I].
  split; try reflexivity.
  - eexists. split; [reflexivity|]. repeat constructor. eexists; reflexivity.
  - apply same_hooks_refl.
Qed.

Lemma mark_handled_last (ps : list PromiseCell) (c : PromiseCell)
    (w : World) (p : promise) :
  promises w = ps ++ [c] -> p = length ps ->
  mark_handled p w =
  set_promises
    (ps ++ [{| p_state := p_state c; p_kind := p_kind c;
               p_handled := true |}]) w.
Proof.
  intros E ->. unfold mark_handled. rewrite E, lookup_snoc, insert_snoc.
  reflexivity.
Qed.

(** Awaiting a promise that was just created marks it as handled. *)
Lemma mark_new (st : PState) (kd : PKind) (w : World) :
  mark_handled (length (promises w)) (snd (new_promise st kd w)) =
  set_promises
    (promises w ++ [{| p_state := st; p_kind := kd; p_handled := true |}]) w.
Proof.
  unfold mark_handled, new_promise. world_steps. cbn [snd]. world_steps.
  rewrite lookup_snoc. cbn [p_state p_kind]. rewrite insert_snoc. reflexivity.
Qed.

(** [fetchUser] runs up to its first [await]; what is left obeys the
    contract, and throws when the response is not ok. *)
Lemma exec_fetchUser (o : nat) (id : Z) (l : loc) (lg : Logger) (w : World) :
  exists k,
    exec o (fetchUser id) (VMap l) w =
      (OSusp (length (promises w)) k (VMap l),
       set_promises
         (promises w ++
          [{| p_state := Pending;
              p_kind := FetchIO ("https://jsonplaceholder.typicode.com/users/"
                                 +:+ pretty id);
              p_handled := true |}]) w)
    /\ contract 1 o l lg k
    /\ (forall r c w',
          resp_ok r = false ->
          exec o (k (VResponse r)) c w' =
            (OThrow (VError ("Failed to fetch user: " +:+ pretty (resp_status r)
                             +:+ " " +:+ resp_statusText r)), w')).
Proof.
  unfold fetchUser. exec_steps.
  eexists. split; [rewrite <- mark_new; reflexivity|]. split.
  - intros v w' Ha.
    destruct v; exec_steps; try (split; [apply effect_refl|exact I]).
    destruct (resp_ok r); exec_steps.
    2: split; [apply effect_refl|exact I].
    split; [quiet|]. split; [reflexivity|].
    apply contract_after_json.
  - intros r c w' Hok. exec_steps. rewrite Hok. reflexivity.
Qed.

(** The rest of the route's unit of work once [fetchUser] is back. *)
Lemma contract_send (o : nat) (l : loc) (lg : Logger) (res : nat) :
  contract 0 o l lg
    (fun user => ResSend res user Ret ;;; Ret VUndefined).
Proof.
  intros v w Ha. exec_steps.
  destruct (responses w !! res) as [r|] eqn:Hr;
    [|split; [apply effect_refl|exact I]].
  destruct (res_sent r); exec_steps;
    [split; [apply effect_refl|exact I]|].
  split; [|exact I]. unfold upd_response. rewrite Hr.
  split; try reflexivity.
  - exists []. split; [symmetry; apply app_nil_r|constructor].
  - apply same_hooks_sent. exact Hr.
Qed.

(** ** The middleware *)

Lemma heap_upd_response (res : nat) (f : Response -> Response) (w : World) :
  heap (upd_response res f w) = heap w.
Proof. unfold upd_response. destruct (responses w !! res); reflexivity. Qed.

Lemma set_heap_set_heap (h h' : list (gmap string JsVal)) (w : World) :
  set_heap h (set_heap h' w) = set_heap h w.
Proof. reflexivity. Qed.

(** The body of [asyncLocalStorage.run(store, ...)] in the middleware:
    the request's store gets its logger, [withLogContext] binds a
    second store, and [next] runs under that one. *)
Lemma exec_request_scope (o : nat) (lgr : Logger) (data : Obj) (next : Prog)
    (ctx : JsVal) (w : World) :
  let m0 : gmap string JsVal := <["logger" := VLogger lgr]> ∅ in
  exec o
    (Run (VMap (length (heap w)))
       (let! s := getStore in
        map_set s "logger" (VLogger lgr) ;;;
        withLogContext data next ;;;
        Ret VUndefined)
       (fun _ => Ret VUndefined))
    ctx (set_heap (heap w ++ [∅]) w) =
  match exec o next (VMap (S (length (heap w))))
          (set_heap
             (heap w ++ [m0; <["logger" := VLogger (child lgr data)]> m0]) w)
  with
  | (ORet _, w') => (ORet VUndefined, w')
  | (OThrow e, w') => (OThrow e, w')
  | (OSusp _ _ _, w') =>
      (OThrow (internal_error "await outside of an async function"), w')
  end.
Proof.
  intros m0. exec_steps. world_steps. rewrite lookup_snoc.
  exec_steps. world_steps. rewrite insert_snoc. fold m0.
  rewrite exec_bind.
  set (w1 := set_heap (heap w ++ [m0]) (set_heap (heap w ++ [∅]) w)).
  assert (Hf : frame w1 (VMap (length (heap w))) lgr).
  { eapply frame_bound; [apply lookup_snoc|apply lookup_insert_eq]. }
  rewrite (exec_withLogContext o data next _ w1 lgr Hf), exec_run_ret.
  unfold bound_world, inherited, w1. world_steps.
  rewrite lookup_snoc, length_app, Nat.add_1_r, <- app_assoc.
  cbn [default from_option id app]. rewrite !set_heap_set_heap.
  match goal with
  | |- context [exec o next ?c ?W] => destruct (exec o next c W) as [[v|e|p k c'] w2]
  end; reflexivity.
Qed.

Lemma exec_middleware (req : Request) (res : nat) (next : Prog) (w : World) :
  exec res (middleware req res next) VUndefined w =
  match exec res next (VMap (S (length (heap w)))) (prelude req res w) with
  | (ORet _, w') => (ORet VUndefined, w')
  | (OThrow e, w') => (OThrow e, w')
  | (OSusp _ _ _, w') =>
      (OThrow (internal_error "await outside of an async function"), w')
  end.
Proof.
  unfold middleware, prelude, assigned_id, wants_uuid, entry_record.
  exec_steps.
  destruct (req_headers req !! "x-request-id") as [s|] eqn:Hh;
    [destruct (String.eqb s "") eqn:Es|];
    exec_steps; rewrite ?Es; exec_steps; world_steps;
    match goal with
    | |- context [upd_response ?r
                    (with_listener ?ev
                       (on_finish ?r' ?t (child logger ?data))) ?W] =>
        assert (Hu : heap (upd_response r
                             (with_listener ev
                                (on_finish r' t (child logger data))) W)
                     = heap w)
          by (rewrite heap_upd_response; reflexivity);
        set (w0 := upd_response r
                     (with_listener ev (on_finish r' t (child logger data)))
                     W) in *;
        rewrite <- Hu;
        etransitivity;
        [exact (exec_request_scope res (child logger data) data next
                  VUndefined w0)|reflexivity]
    end.
Qed.

(** ** The [/fetch-user] route *)

Lemma exec_fetch_user_work (o res : nat) (uid : Z) (l : loc) (lg : Logger)
    (w : World) :
  ambient w l lg ->
  exists kB kA w',
    exec o (fetch_user_work res uid) (VMap l) w =
      (OSusp (S (length (promises w))) kA (VMap l), w')
    /\ contract 0 o l lg kA
    /\ contract 1 o l lg kB
    /\ heap w' = heap w
    /\ log w' = log w ++ [(o, mk_record Info lg [] "fetching user data")]
    /\ reactions w' =
         reactions w ++
         [Some {| r_awaits := length (promises w); r_k := kB;
                  r_ctx := VMap l; r_origin := o;
                  r_settles := S (length (promises w)) |}]
    /\ responses w' = responses w
    /\ uuids w' = uuids w
    /\ promises w' =
         promises w ++
         [{| p_state := Pending;
             p_kind := FetchIO ("https://jsonplaceholder.typicode.com/users/"
                                +:+ pretty uid);
             p_handled := true |};
          {| p_state := Pending; p_kind := Internal; p_handled := true |}]
    /\ (forall r c w0,
          resp_ok r = false ->
          exec o (kB (VResponse r)) c w0 =
            (OThrow (VError ("Failed to fetch user: " +:+ pretty (resp_status r)
                             +:+ " " +:+ resp_statusText r)), w0)).
Proof.
  intros Ha. unfold fetch_user_work. rewrite exec_bind.
  rewrite (exec_getLogger o _ w lg (ambient_frame _ _ _ Ha)).
  exec_steps.
  set (w1 := set_log _ w).
  destruct (exec_fetchUser o uid l lg w1) as (kB & E & HB & HF).
  rewrite E. exec_steps. world_steps.
  rewrite length_app. cbn [length]. rewrite Nat.add_1_r.
  match goal with
  | |- context [mark_handled ?p ?X] =>
      match X with
      | context [set_promises (?ps ++ [?c]) _] =>
          rewrite (mark_handled_last ps c X p eq_refl)
            by (rewrite length_app; cbn [length]; lia)
      end
  end.
  cbn [p_state p_kind]. unfold w1. world_steps.
  exists kB. eexists. eexists. split; [reflexivity|].
  split; [apply contract_send|]. split; [exact HB|].
  world_steps. rewrite <- app_assoc. cbn [app].
  split_and!; try reflexivity. exact HF.
Qed.

Lemma ambient_bound_world (w : World) (ctx : JsVal) (lg : Logger) (data : Obj) :
  ambient (bound_world w ctx lg data) (length (heap w)) (child lg data).
Proof.
  eexists. split.
  - unfold bound_world. world_steps. apply lookup_snoc.
  - apply lookup_insert_eq.
Qed.

(** The route handler returns at once: it leaves two suspended async
    functions behind, both under the store bound to [user.id], and
    three promises: the [fetch], the call of [fetchUser], and the one
    [withLogContext] returned, which nothing awaits. *)
Lemma exec_fetch_user_handler (o res : nat) (l1 : loc) (lg1 : Logger)
    (w : World) :
  ambient w l1 lg1 ->
  let uid := random_digit (digits w) + 1 in
  let lg2 := child lg1 [("user.id", SNum uid)] in
  let l2 := length (heap w) in
  let pF := length (promises w) in
  exists w' m2 rB rA,
    exec o (fetch_user_handler res) (VMap l1) w = (ORet VUndefined, w')
    /\ heap w' = heap w ++ [m2]
    /\ m2 !! "logger" = Some (VLogger lg2)
    /\ log w' = log w ++ [(o, mk_record Info lg2 [] "fetching user data")]
    /\ reactions w' = reactions w ++ [Some rB; Some rA]
    /\ r_origin rB = o /\ r_ctx rB = VMap l2 /\ contract 1 o l2 lg2 (r_k rB)
    /\ r_origin rA = o /\ r_ctx rA = VMap l2 /\ contract 0 o l2 lg2 (r_k rA)
    /\ responses w' = responses w
    /\ uuids w' = uuids w
    /\ promises w' =
         promises w ++
         [{| p_state := Pending;
             p_kind := FetchIO ("https://jsonplaceholder.typicode.com/users/"
                                +:+ pretty uid);
             p_handled := true |};
          {| p_state := Pending; p_kind := Internal; p_handled := true |};
          {| p_state := Pending; p_kind := Internal; p_handled := false |}]
    /\ r_awaits rB = pF /\ r_settles rB = S pF
    /\ r_awaits rA = S pF /\ r_settles rA = S (S pF)
    /\ (forall r c w0,
          resp_ok r = false ->
          exec o (r_k rB (VResponse r)) c w0 =
            (OThrow (VError ("Failed to fetch user: " +:+ pretty (resp_status r)
                             +:+ " " +:+ resp_statusText r)), w0)).
Proof.
  intros Ha uid lg2 l2 pF. unfold fetch_user_handler. exec_steps.
  rewrite exec_bind.
  set (w0 := set_digits _ w).
  assert (Ha0 : ambient w0 l1 lg1) by exact Ha.
  rewrite (exec_withLogContext o _ _ _ w0 lg1 (ambient_frame _ _ _ Ha0)).
  rewrite exec_run_ret.
  set (w1 := bound_world w0 (VMap l1) lg1 _).
  assert (Ha1 : ambient w1 l2 lg2) by apply ambient_bound_world.
  change (length (heap w0)) with l2.
  destruct (exec_fetch_user_work o res uid l2 lg2 w1 Ha1)
    as (kB & kA & w2 & E & HA & HB & Hh & Hl & Hr & Hs & Hu & Hp & HF).
  exec_steps. fold uid. rewrite E. exec_steps.
  eexists. eexists. eexists. eexists.
  split; [reflexivity|]. world_steps.
  rewrite Hh, Hl, Hr, Hs, Hu, Hp. unfold w1, bound_world, w0. world_steps.
  rewrite <- !app_assoc, !length_app. cbn [app length].
  replace (length (promises w) + 2)%nat with (S (S pF)) by (unfold pF; lia).
  split_and!; try reflexivity; try assumption.
  apply lookup_insert_eq.
Qed.

(** ** One arrival *)

Lemma prelude_fresh (req : Request) (w : World) :
  let res := length (responses w) in
  let id := assigned_id req (uuids w) in
  let lgr := child logger [("request.id", SStr id)] in
  let m0 : gmap string JsVal := <["logger" := VLogger lgr]> ∅ in
  let p := prelude req res (set_responses (responses w ++ [new_response]) w) in
  heap p =
    heap w ++
    [m0; <["logger" := VLogger (child lgr [("request.id", SStr id)])]> m0]
  /\ log p = log w ++ [(res, entry_record req id)]
  /\ reactions p = reactions w
  /\ responses p =
       responses w ++
       [with_listener "finish" (on_finish res (clock w) lgr) new_response]
  /\ uuids p = (if wants_uuid req then S (uuids w) else uuids w)
  /\ promises p = promises w
  /\ digits p = digits w.
Proof.
  intros res id lgr m0 p. subst p m0 lgr id res.
  unfold prelude, upd_response, assigned_id.
  destruct (wants_uuid req); world_steps;
    rewrite lookup_snoc; world_steps; rewrite insert_snoc;
    split_and!; reflexivity.
Qed.

(** The identifier of a chain's logger survives one more binding of
    fields that are neither [request.id] nor [duration_ms]. *)
Lemma good_logger_child (id : string) (lg : Logger) (data : Obj) :
  good_logger id lg ->
  field "request.id" data = None ->
  field "duration_ms" data = None ->
  good_logger id (child lg data).
Proof.
  intros [H1 H2] Hd1 Hd2. unfold good_logger.
  rewrite bindings_child, !field_app, Hd1, Hd2. split; assumption.
Qed.

Lemma good_logger_request (id : string) :
  good_logger id
    (child (child logger [("request.id", SStr id)]) [("request.id", SStr id)]).
Proof. split; reflexivity. Qed.

Lemma arrive_adds (req : Request) (w : World) :
  arrival_adds req w (arrive uuid_gen random_digit req w).
Proof.
  unfold arrival_adds, arrive. rewrite exec_middleware.
  destruct (prelude_fresh req w) as (Hh & Hl & Hr & Hs & Hu & Hp & Hd).
  set (res := length (responses w)) in *.
  set (id := assigned_id req (uuids w)) in *.
  set (p := prelude req res _) in *. world_steps.
  unfold express_next. destruct (req_route req).
  - (* /fetch-user *)
    assert (Ha : ambient p (S (length (heap w)))
                   (child (child logger [("request.id", SStr id)])
                      [("request.id", SStr id)])).
    { eexists. split.
      - rewrite Hh. rewrite lookup_app_r by lia.
        replace (S (length (heap w)) - length (heap w))%nat with 1%nat by lia.
        reflexivity.
      - apply lookup_insert_eq. }
    destruct (exec_fetch_user_handler res res _ _ p Ha)
      as (w' & m2 & rB & rA & E & Hh' & Hm2 & Hl' & Hr' & HoB & HcB & HkB
          & HoA & HcA & HkA & Hs' & Hu' & _).
    exec_steps. rewrite E. exec_steps.
    set (lg2 := child _ [("user.id", _)]) in *.
    assert (Hg : good_logger id lg2).
    { apply good_logger_child; [apply good_logger_request| |]; reflexivity. }
    assert (Ha' : ambient w' (length (heap p)) lg2).
    { exists m2. split; [|exact Hm2]. rewrite Hh'. apply lookup_snoc. }
    eexists.
    exists [(res, mk_record Info lg2 [] "fetching user data")],
      [Some rB; Some rA]. eexists.
    world_steps. rewrite Hh', Hl', Hr', Hs', Hu', Hh, Hl, Hr, Hs, Hu.
    rewrite <- !app_assoc. cbn [app].
    split_and!; try reflexivity.
    + repeat constructor. exists lg2. eexists. split; [reflexivity|exact Hg].
    + repeat constructor.
      * exists rB, (length (heap p)), lg2, 1%nat. split_and!; auto.
      * exists rA, (length (heap p)), lg2, 0%nat. split_and!; auto.
  - (* no route: 404 *)
    exec_steps. unfold upd_response. rewrite Hs. unfold res.
    repeat first
      [ rewrite lookup_snoc | rewrite insert_snoc | progress world_steps
      | progress exec_steps
      | progress cbn [res_sent with_status with_listener new_response] ].
    eexists. exists [], []. eexists.
    world_steps. rewrite Hh, Hl, Hr, Hu.
    split_and!; try reflexivity; try (symmetry; apply app_nil_r);
      constructor.
Qed.

(** ** Identifiers, entries and counts along a run *)

Lemma request_id_lt (reqs : list Request) (i : nat) (id : string) :
  request_id reqs i = Some id -> (i < length reqs)%nat.
Proof.
  unfold request_id. destruct (reqs !! i) eqn:E; [|discriminate].
  intros _. eapply lookup_lt_Some. exact E.
Qed.

Lemma request_id_app (reqs more : list Request) (i : nat) (id : string) :
  request_id reqs i = Some id -> request_id (reqs ++ more) i = Some id.
Proof.
  intros H. pose proof (request_id_lt _ _ _ H) as Hlt.
  unfold request_id in *.
  destruct (reqs !! i) as [req|] eqn:E; [|discriminate].
  rewrite (lookup_app_l_Some _ _ _ _ E).
  rewrite take_app_le by lia. exact H.
Qed.

Lemma request_id_snoc (reqs : list Request) (req : Request) :
  request_id (reqs ++ [req]) (length reqs) =
  Some (assigned_id req (length (List.filter wants_uuid reqs))).
Proof.
  unfold request_id. rewrite lookup_snoc.
  rewrite take_app_length. reflexivity.
Qed.

Lemma good_entry_app (reqs more : list Request) (e : nat * LogRecord) :
  good_entry reqs e -> good_entry (reqs ++ more) e.
Proof.
  intros (id & H1 & H2 & H3). exists id.
  split; [apply request_id_app; exact H1|]. split; assumption.
Qed.

Lemma completions_app (res : nat) (a b : list (nat * LogRecord)) :
  completions res (a ++ b) = (completions res a + completions res b)%nat.
Proof. unfold completions. rewrite List.filter_app, length_app. reflexivity. Qed.

Lemma completions_plain (res : nat) (lg : list (nat * LogRecord)) :
  Forall (fun e => is_completion (snd e) = false) lg ->
  completions res lg = 0%nat.
Proof.
  unfold completions. induction 1 as [|e lg He _ IH]; [reflexivity|].
  cbn [List.filter]. rewrite He, andb_false_r. exact IH.
Qed.

Lemma completions_foreign (reqs : list Request) (res : nat)
    (lg : list (nat * LogRecord)) :
  Forall (good_entry reqs) lg -> (length reqs <= res)%nat ->
  completions res lg = 0%nat.
Proof.
  intros H Hle. unfold completions.
  induction H as [|e lg (id & He & _) _ IH]; [reflexivity|].
  cbn [List.filter]. apply request_id_lt in He.
  destruct (Nat.eqb_spec (fst e) res) as [E|E]; [lia|]. exact IH.
Qed.

Lemma entry_of_app (a b : list (nat * LogRecord)) (i : nat) :
  entry_of (a ++ b) i =
  match entry_of a i with
  | Some r => Some r
  | None => entry_of b i
  end.
Proof.
  unfold entry_of. induction a as [|e a IH]; [reflexivity|].
  cbn [app List.find]. destruct (Nat.eqb (fst e) i); [reflexivity|exact IH].
Qed.

Lemma entry_of_foreign (reqs : list Request) (i : nat)
    (lg : list (nat * LogRecord)) :
  Forall (good_entry reqs) lg -> (length reqs <= i)%nat ->
  entry_of lg i = None.
Proof.
  intros H Hle. unfold entry_of.
  induction H as [|e lg (id & He & _) _ IH]; [reflexivity|].
  cbn [List.find]. apply request_id_lt in He.
  destruct (Nat.eqb_spec (fst e) i) as [E|E]; [lia|]. exact IH.
Qed.

(** A line written through a chain's ambient logger. *)
Lemma ambient_line_good (reqs : list Request) (o : nat) (id : string)
    (lg : Logger) (msg : string) :
  request_id reqs o = Some id -> good_logger id lg ->
  good_entry reqs (o, mk_record Info lg [] msg) /\
  is_completion (mk_record Info lg [] msg) = false.
Proof.
  intros Hid [H1 H2].
  assert (E : is_completion (mk_record Info lg [] msg) = false).
  { unfold is_completion. cbn [rec_fields mk_record].
    rewrite app_nil_r, H2. reflexivity. }
  split; [|exact E]. exists id. cbn [fst snd]. split; [exact Hid|].
  split; [|rewrite E; discriminate].
  cbn [rec_fields mk_record]. rewrite app_nil_r. exact H1.
Qed.

Lemma entry_record_good (reqs : list Request) (res : nat) (req : Request)
    (id : string) :
  request_id reqs res = Some id ->
  good_entry reqs (res, entry_record req id) /\
  is_completion (entry_record req id) = false.
Proof.
  intros Hid.
  assert (E : is_completion (entry_record req id) = false).
  { unfold is_completion, entry_record, opt_field.
    destruct (req_ip req), (req_headers req !! "user-agent"); reflexivity. }
  split; [|exact E]. exists id. cbn [fst snd]. split; [exact Hid|].
  split; [|rewrite E; discriminate].
  unfold entry_record, opt_field.
  destruct (req_ip req), (req_headers req !! "user-agent"); reflexivity.
Qed.

Lemma same_hooks_back (rs rs' : list Response) (i : nat) (r' : Response) :
  same_hooks rs rs' -> rs' !! i = Some r' ->
  exists r, rs !! i = Some r /\ res_listeners r' = res_listeners r /\
            res_finished r' = res_finished r /\
            (res_closed r = true -> res_closed r' = true).
Proof.
  intros [Hlen H] Hi.
  destruct (lookup_lt_is_Some_2 rs i) as [r Hr].
  { rewrite <- Hlen. eapply lookup_lt_Some. exact Hi. }
  destruct (H i r Hr) as (r'' & Hr'' & Hl & Hf & Hc).
  rewrite Hi in Hr''. injection Hr'' as <-. eauto.
Qed.

(** ** Preservation of the invariant *)

Lemma good_reaction_heap (reqs : list Request) (w w' : World) (r : Reaction) :
  (forall i m, heap w !! i = Some m -> heap w' !! i = Some m) ->
  good_reaction reqs w r -> good_reaction reqs w' r.
Proof.
  intros Hh (l & lg & id & n & H1 & H2 & H3 & H4 & H5).
  exists l, lg, id, n. split_and!; try assumption.
  eapply ambient_heap; eassumption.
Qed.

Lemma good_reaction_app (reqs more : list Request) (w : World) (r : Reaction) :
  good_reaction reqs w r -> good_reaction (reqs ++ more) w r.
Proof.
  intros (l & lg & id & n & H1 & H2 & H3 & H4 & H5).
  exists l, lg, id, n. split_and!; try assumption.
  apply request_id_app. exact H3.
Qed.

(** A turn that writes no completion line, keeps the hooks of every
    response and leaves only good suspended chains keeps the
    invariant. *)
Lemma Inv_evolve (reqs : list Request) (w w' : World)
    (added : list (nat * LogRecord)) :
  Inv reqs w ->
  (forall i m, heap w !! i = Some m -> heap w' !! i = Some m) ->
  uuids w' = uuids w ->
  log w' = log w ++ added ->
  Forall (fun e => good_entry reqs e /\ is_completion (snd e) = false) added ->
  same_hooks (responses w) (responses w') ->
  (forall t r, reactions w' !! t = Some (Some r) ->
     reactions w !! t = Some (Some r) \/ good_reaction reqs w' r) ->
  Inv reqs w'.
Proof.
  intros [I1 I2 I3 I4 I5 I6 I7] Hh Hu Hl Ha Hs Hr.
  split.
  - rewrite (proj1 Hs). exact I1.
  - rewrite Hu. exact I2.
  - rewrite Hl. apply Forall_app. split; [exact I3|].
    eapply Forall_impl; [exact Ha|]. intros e [H _]. exact H.
  - intros i req Hi. destruct (I4 i req Hi) as (id & Hid & He).
    exists id. split; [exact Hid|]. rewrite Hl, entry_of_app, He. reflexivity.
  - intros res r' Hr'.
    destruct (same_hooks_back _ _ _ _ Hs Hr') as (r & Hr0 & _ & Hf & _).
    rewrite Hl, completions_app, (I5 res r Hr0), Hf.
    rewrite (completions_plain res added); [lia|].
    eapply Forall_impl; [exact Ha|]. intros e [_ H]. exact H.
  - intros res r' Hr'.
    destruct (same_hooks_back _ _ _ _ Hs Hr') as (r & Hr0 & Hls & _ & _).
    rewrite Hls. apply (I6 res r Hr0).
  - intros t r Ht. destruct (Hr t r Ht) as [H|H]; [|exact H].
    eapply good_reaction_heap; [exact Hh|]. apply (I7 t r H).
Qed.

Lemma Inv_promises (reqs : list Request) (w : World) (ps : list PromiseCell) :
  Inv reqs w -> Inv reqs (set_promises ps w).
Proof.
  intros I. apply (Inv_evolve reqs w _ []); auto.
  - symmetry. apply app_nil_r.
  - apply same_hooks_refl.
Qed.

Lemma Inv_settle (reqs : list Request) (w : World) (p : promise) (st : PState) :
  Inv reqs w -> Inv reqs (settle p st w).
Proof.
  intros I. destruct (settle_eq p st w) as (ps & -> & _).
  apply Inv_promises. exact I.
Qed.

Lemma inv_complete (reqs : list Request) (w : World) (p : promise)
    (r : IOResult) :
  Inv reqs w -> Inv reqs (complete p r w).
Proof.
  intros I. unfold complete.
  destruct (promises w !! p) as [c|]; [|exact I].
  destruct (p_kind c), r; try exact I; apply Inv_settle; exact I.
Qed.

Lemma inv_elapse (reqs : list Request) (w : World) (t : Z) :
  Inv reqs w -> Inv reqs (set_clock t w).
Proof.
  intros I. apply (Inv_evolve reqs w _ []); auto.
  - symmetry. apply app_nil_r.
  - apply same_hooks_refl.
Qed.

Lemma contract_run (n : nat) (o : nat) (l : loc) (lg : Logger)
    (k : JsVal -> Prog) (v : JsVal) (w : World) :
  contract n o l lg k -> ambient w l lg ->
  effect o lg w (snd (exec o (k v) (VMap l) w)) /\
  match fst (exec o (k v) (VMap l) w) with
  | OSusp q k' c => c = VMap l /\ exists n', contract n' o l lg k'
  | _ => True
  end.
Proof.
  intros Hk Ha. destruct n as [|n]; unfold_contract Hk;
    destruct (Hk v w Ha) as [He Hs]; (split; [exact He|]);
    destruct (fst (exec o (k v) (VMap l) w)); try exact I.
  - destruct Hs as [_ []].
  - destruct Hs as [Hc Hn]. split; [exact Hc|]. exists n. exact Hn.
Qed.

(** The state after a suspended chain has run on, with the chains
    [extra] it may have left behind. *)
Lemma Inv_after_effect (reqs : list Request) (w w1 w2 : World) (t o : nat)
    (id : string) (lg : Logger) (extra : list (option Reaction)) :
  Inv reqs w ->
  request_id reqs o = Some id -> good_logger id lg ->
  effect o lg (set_reactions (<[t := None]> (reactions w)) w) w1 ->
  heap w2 = heap w1 -> log w2 = log w1 -> uuids w2 = uuids w1 ->
  responses w2 = responses w1 ->
  reactions w2 = reactions w1 ++ extra ->
  Forall (fun x => exists r, x = Some r /\ good_reaction reqs w2 r) extra ->
  Inv reqs w2.
Proof.
  intros I Hid Hg [Eh Er Eu (added & El & Ea) Es] Hh Hl Hu Hs Hr Hx.
  revert Eh Er Eu El Es. world_steps. intros Eh Er Eu El Es.
  apply (Inv_evolve reqs w w2 added I).
  - intros i m H. rewrite Hh, Eh. exact H.
  - rewrite Hu, Eu. reflexivity.
  - rewrite Hl, El. reflexivity.
  - eapply Forall_impl; [exact Ea|]. intros e [msg ->].
    apply (ambient_line_good reqs o id lg msg Hid Hg).
  - rewrite Hs. exact Es.
  - intros t' r' Ht'. rewrite Hr, Er in Ht'.
    apply lookup_app_Some in Ht' as [Ht'|[_ Ht']].
    + left. apply list_lookup_insert_Some in Ht' as [(_ & ? & _)|[_ Ht']];
        [discriminate|exact Ht'].
    + right. rewrite Forall_forall in Hx.
      destruct (Hx (Some r')) as (r'' & E & Hgood).
      { eapply list_elem_of_lookup_2. exact Ht'. }
      injection E as <-. exact Hgood.
Qed.

Lemma resume_inv (reqs : list Request) (w : World) (t : nat) :
  Inv reqs w ->
  Inv reqs (resume uuid_gen random_digit t w) /\
  heap (resume uuid_gen random_digit t w) = heap w /\
  same_hooks (responses w) (responses (resume uuid_gen random_digit t w)).
Proof.
  intros I. unfold resume.
  destruct (reactions w !! t) as [[r|]|] eqn:Ht;
    try (split; [exact I|split; [reflexivity|apply same_hooks_refl]]).
  destruct (inv_reactions _ _ _ _ I t r Ht)
    as (l & lg & id & n & Hc & Ha & Hid & Hg & Hk).
  destruct (p_state <$> promises w !! r_awaits r) as [[|v|e]|];
    try (split; [exact I|split; [reflexivity|apply same_hooks_refl]]).
  - set (w0 := set_reactions (<[t := None]> (reactions w)) w).
    assert (Ha0 : ambient w0 l lg) by exact Ha.
    rewrite Hc.
    destruct (contract_run n _ l lg (r_k r) v w0 Hk Ha0) as [He Hs].
    destruct (exec (r_origin r) (r_k r v) (VMap l) w0) as [[v'|e'|q k' c] w1];
      cbn [fst snd] in He, Hs; unfold conclude.
    + destruct (settle_eq (r_settles r) (Fulfilled v') w1) as (ps & -> & _).
      split;
        [|split; [world_steps; apply (eff_heap _ _ _ _ He)
                 |world_steps; apply (eff_responses _ _ _ _ He)]].
      apply (Inv_after_effect reqs w w1 _ t (r_origin r) id lg []
               I Hid Hg He); try reflexivity.
      * symmetry. apply app_nil_r.
      * constructor.
    + destruct (settle_eq (r_settles r) (Rejected e') w1) as (ps & -> & _).
      split;
        [|split; [world_steps; apply (eff_heap _ _ _ _ He)
                 |world_steps; apply (eff_responses _ _ _ _ He)]].
      apply (Inv_after_effect reqs w w1 _ t (r_origin r) id lg []
               I Hid Hg He); try reflexivity.
      * symmetry. apply app_nil_r.
      * constructor.
    + destruct Hs as [-> [n' Hk']].
      split;
        [|split; [world_steps; apply (eff_heap _ _ _ _ He)
                 |world_steps; apply (eff_responses _ _ _ _ He)]].
      eapply (Inv_after_effect reqs w w1 _ t (r_origin r) id lg
                [Some _] I Hid Hg He); try reflexivity.
      repeat constructor. eexists. split; [reflexivity|].
      exists l, lg, id, n'. cbn [r_ctx r_origin r_k].
      split_and!; try assumption; try reflexivity.
      destruct Ha as (m & Hm & Hlg). exists m. split; [|exact Hlg].
      world_steps. rewrite (eff_heap _ _ _ _ He). exact Hm.
  - destruct (settle_eq (r_settles r) (Rejected e)
                (set_reactions (<[t := None]> (reactions w)) w))
      as (ps & E & _).
    unfold conclude. rewrite E.
    split; [|split; [reflexivity|apply same_hooks_refl]].
    apply (Inv_after_effect reqs w _ _ t (r_origin r) id lg []
             I Hid Hg (effect_refl _ _ _)); try reflexivity.
    + symmetry. apply app_nil_r.
    + constructor.
Qed.

Lemma close_inv (reqs : list Request) (w : World) (res : nat) (ctx : JsVal) :
  Inv reqs w ->
  Inv reqs (close uuid_gen random_digit res ctx w) /\
  heap (close uuid_gen random_digit res ctx w) = heap w.
Proof.
  intros I. unfold close.
  destruct (responses w !! res) as [r|] eqn:Hr; [|split; [exact I|reflexivity]].
  destruct (res_closed r); [split; [exact I|reflexivity]|].
  destruct (inv_listeners _ _ _ _ I res r Hr) as (id & start & _ & ->).
  cbn [emit String.eqb Ascii.eqb Bool.eqb]. unfold upd_response. rewrite Hr.
  split; [|reflexivity].
  apply (Inv_evolve reqs w _ [] I); try reflexivity; auto.
  - symmetry. apply app_nil_r.
  - world_steps. apply (same_hooks_insert _ res r); auto.
Qed.

Lemma completions_snoc (res o : nat) (lg : list (nat * LogRecord))
    (r : LogRecord) :
  completions res (lg ++ [(o, r)]) =
  (completions res lg +
   (if Nat.eqb o res && is_completion r then 1 else 0))%nat.
Proof.
  rewrite completions_app. unfold completions at 2. cbn [List.filter fst snd].
  destruct (Nat.eqb o res && is_completion r); reflexivity.
Qed.

Lemma finish_inv (reqs : list Request) (w : World) (res : nat) (ctx : JsVal) :
  Inv reqs w ->
  Inv reqs (finish uuid_gen random_digit res ctx w) /\
  heap (finish uuid_gen random_digit res ctx w) = heap w.
Proof.
  intros I. unfold finish.
  destruct (responses w !! res) as [r|] eqn:Hr; [|split; [exact I|reflexivity]].
  destruct (res_sent r) as [body|] eqn:Hsent; [|split; [exact I|reflexivity]].
  destruct (res_finished r) eqn:Hfin; [split; [exact I|reflexivity]|].
  destruct (res_closed r); [split; [exact I|reflexivity]|].
  destruct (inv_listeners _ _ _ _ I res r Hr) as (id & start & Hid & ->).
  cbn [emit String.eqb Ascii.eqb Bool.eqb]. unfold upd_response. rewrite Hr.
  set (wf := set_responses _ w).
  assert (Hrf : responses wf !! res = Some (with_finished r)).
  { unfold wf. world_steps. apply list_lookup_insert_eq.
    eapply lookup_lt_Some. exact Hr. }
  destruct (exec_on_finish res res start
              (child logger [("request.id", SStr id)]) ctx wf _ Hrf)
    as (lvl & msg & E).
  rewrite E. cbn [snd]. unfold wf. world_steps.
  split; [|reflexivity].
  destruct I as [I1 I2 I3 I4 I5 I6 I7]. split; world_steps.
  - rewrite length_insert. exact I1.
  - exact I2.
  - apply Forall_app. split; [exact I3|]. repeat constructor.
    exists id. split; [exact Hid|]. split; reflexivity.
  - intros i req Hi. destruct (I4 i req Hi) as (id' & Hid' & He).
    exists id'. split; [exact Hid'|]. rewrite entry_of_app, He. reflexivity.
  - intros res' r' Hr'. rewrite completions_snoc.
    destruct (decide (res' = res)) as [->|Hne].
    + rewrite list_lookup_insert_eq in Hr'
        by (eapply lookup_lt_Some; exact Hr).
      injection Hr' as <-. rewrite (I5 res r Hr), Hfin, Nat.eqb_refl.
      reflexivity.
    + rewrite list_lookup_insert_ne in Hr' by congruence.
      rewrite (I5 res' r' Hr').
      destruct (Nat.eqb_spec res res') as [E'|_]; [congruence|].
      cbn [andb]. lia.
  - intros res' r' Hr'.
    destruct (decide (res' = res)) as [->|Hne].
    + rewrite list_lookup_insert_eq in Hr'
        by (eapply lookup_lt_Some; exact Hr).
      injection Hr' as <-. cbn [res_listeners with_finished].
      apply (I6 res r Hr).
    + rewrite list_lookup_insert_ne in Hr' by congruence.
      apply (I6 res' r' Hr').
  - intros t r' Ht. eapply good_reaction_heap; [|apply (I7 t r' Ht)].
    intros i m H. exact H.
Qed.

Lemma arrive_inv (reqs : list Request) (w : World) (req : Request) :
  Inv reqs w ->
  Inv (reqs ++ [req]) (arrive uuid_gen random_digit req w) /\
  exists ext, heap (arrive uuid_gen random_digit req w) = heap w ++ ext.
Proof.
  intros [I1 I2 I3 I4 I5 I6 I7].
  destruct (arrive_adds req w)
    as (hx & added & newr & rsp & Hh & Hl & Ha & Hr & Hn & Hs & Hls & Hf & Hu).
  set (w' := arrive uuid_gen random_digit req w) in *.
  rewrite I1, I2 in *.
  set (id := assigned_id req (length (List.filter wants_uuid reqs))) in *.
  pose proof (request_id_snoc reqs req) as Hid. fold id in Hid.
  assert (Hplain : Forall (fun e => good_entry (reqs ++ [req]) e /\
                                    is_completion (snd e) = false)
                     ((length reqs, entry_record req id) :: added)).
  { constructor; [apply entry_record_good; exact Hid|].
    eapply Forall_impl; [exact Ha|]. intros e (lg & msg & -> & Hg).
    apply (ambient_line_good _ _ id); assumption. }
  assert (Hold : forall i m, heap w !! i = Some m -> heap w' !! i = Some m).
  { intros i m H. rewrite Hh. apply lookup_app_l_Some. exact H. }
  split; [|exists hx; exact Hh].
  split.
  - rewrite Hs, !length_app, I1. reflexivity.
  - rewrite Hu, List.filter_app, length_app. cbn [List.filter].
    destruct (wants_uuid req); cbn [length]; lia.
  - rewrite Hl. apply Forall_app. split.
    + eapply Forall_impl; [exact I3|]. intros e. apply good_entry_app.
    + eapply Forall_impl; [exact Hplain|]. intros e [H _]. exact H.
  - intros i req' Hi. rewrite Hl, entry_of_app.
    apply lookup_app_Some in Hi as [Hi|[Hge Hi]].
    + destruct (I4 i req' Hi) as (id' & Hid' & He).
      exists id'. split; [apply request_id_app; exact Hid'|].
      rewrite He. reflexivity.
    + assert (i = length reqs) as ->.
      { apply lookup_lt_Some in Hi. cbn [length] in Hi. lia. }
      rewrite Nat.sub_diag in Hi. injection Hi as <-.
      exists id. split; [exact Hid|].
      rewrite (entry_of_foreign reqs _ _ I3) by lia.
      unfold entry_of. cbn [List.find fst snd]. rewrite Nat.eqb_refl.
      reflexivity.
  - intros res' r' Hr'. rewrite Hl, completions_app.
    rewrite (completions_plain res' (_ :: added))
      by (eapply Forall_impl; [exact Hplain|]; intros e [_ H]; exact H).
    rewrite Hs in Hr'. apply lookup_app_Some in Hr' as [Hr'|[Hge Hr']].
    + rewrite (I5 res' r' Hr'). lia.
    + assert (res' = length reqs) as ->.
      { apply lookup_lt_Some in Hr'. cbn [length] in Hr'. lia. }
      rewrite I1, Nat.sub_diag in Hr'. injection Hr' as <-.
      rewrite Hf, (completions_foreign reqs _ _ I3) by lia. reflexivity.
  - intros res' r' Hr'. rewrite Hs in Hr'.
    apply lookup_app_Some in Hr' as [Hr'|[Hge Hr']].
    + destruct (I6 res' r' Hr') as (id' & start & Hid' & Hls').
      exists id', start. split; [apply request_id_app; exact Hid'|exact Hls'].
    + assert (res' = length reqs) as ->.
      { apply lookup_lt_Some in Hr'. cbn [length] in Hr'. lia. }
      rewrite I1, Nat.sub_diag in Hr'. injection Hr' as <-.
      exists id, (clock w). split; [exact Hid|exact Hls].
  - intros t r Ht. rewrite Hr in Ht.
    apply lookup_app_Some in Ht as [Ht|[_ Ht]].
    + apply good_reaction_app. eapply good_reaction_heap; [exact Hold|].
      apply (I7 t r Ht).
    + rewrite Forall_forall in Hn.
      destruct (Hn (Some r))
        as (r0 & l & lg & n & E & Ho & Hc & Hamb & Hg & Hk).
      { eapply list_elem_of_lookup_2. exact Ht. }
      injection E as <-. exists l, lg, id, n. rewrite Ho.
      split_and!; assumption.
Qed.

(** Every turn of the loop keeps the invariant, and only ever adds
    stores: no store that exists is changed. *)
Lemma step_inv (reqs : list Request) (w : World) (e : Event) :
  Inv reqs w ->
  Inv (reqs ++ arrivals [e]) (step e w) /\
  exists ext, heap (step e w) = heap w ++ ext.
Proof.
  intros I. destruct e as [req|p r|t|res ctx|res ctx|d]; unfold_step;
    rewrite ?app_nil_r.
  - apply arrive_inv. exact I.
  - split; [apply inv_complete; exact I|].
    exists []. rewrite app_nil_r. unfold complete.
    destruct (promises w !! p) as [c|]; [|reflexivity].
    destruct (p_kind c), r; try reflexivity;
      match goal with
      | |- context [settle ?p ?st ?w] =>
          destruct (settle_eq p st w) as (ps & -> & _)
      end; reflexivity.
  - destruct (resume_inv reqs w t I) as (H1 & H2 & _).
    split; [exact H1|]. exists []. rewrite app_nil_r. exact H2.
  - destruct (finish_inv reqs w res ctx I) as [H1 H2].
    split; [exact H1|]. exists []. rewrite app_nil_r. exact H2.
  - destruct (close_inv reqs w res ctx I) as [H1 H2].
    split; [exact H1|]. exists []. rewrite app_nil_r. exact H2.
  - split; [apply inv_elapse; exact I|].
    exists []. rewrite app_nil_r. reflexivity.
Qed.

Lemma arrivals_app (a b : list Event) :
  arrivals (a ++ b) = arrivals a ++ arrivals b.
Proof. unfold arrivals. apply flat_map_app. Qed.

Lemma run_cons (e : Event) (tr : list Event) (w : World) :
  run (e :: tr) w = run tr (step e w).
Proof. reflexivity. Qed.

Lemma run_snoc (tr : list Event) (e : Event) (w : World) :
  run (tr ++ [e]) w = step e (run tr w).
Proof. unfold_run. apply fold_left_app. Qed.

(** ** A response whose connection closed before it finished *)

Lemma responses_settle (p : promise) (st : PState) (w : World) :
  responses (settle p st w) = responses w.
Proof. destruct (settle_eq p st w) as (ps & -> & _). reflexivity. Qed.

Lemma step_shut (reqs : list Request) (w : World) (e : Event) :
  Inv reqs w -> stays_shut (responses w) (responses (step e w)).
Proof.
  intros I i r Hi Hc Hf.
  destruct e as [req|p io|t|res ctx|res ctx|d]; unfold_step.
  - destruct (arrive_adds req w)
      as (_ & _ & _ & rsp & _ & _ & _ & _ & _ & Hs & _).
    rewrite Hs. exists r. split; [apply lookup_app_l_Some; exact Hi|auto].
  - exists r. split; [|auto]. unfold complete.
    destruct (promises w !! p) as [c|]; [|exact Hi].
    destruct (p_kind c), io; rewrite ?responses_settle; exact Hi.
  - destruct (resume_inv reqs w t I) as (_ & _ & [_ Hs]).
    destruct (Hs i r Hi) as (r' & Hr' & _ & Hf' & Hc').
    exists r'. split; [exact Hr'|]. split; [auto|congruence].
  - exists r. split; [|auto]. unfold finish.
    destruct (responses w !! res) as [r0|] eqn:Hr; [|exact Hi].
    destruct (res_sent r0); [|exact Hi].
    destruct (res_finished r0); [exact Hi|].
    destruct (res_closed r0) eqn:Hc0; [exact Hi|].
    destruct (inv_listeners _ _ _ _ I res r0 Hr) as (id & start & _ & ->).
    cbn [emit String.eqb Ascii.eqb Bool.eqb]. unfold upd_response. rewrite Hr.
    set (wf := set_responses _ w).
    assert (Hrf : responses wf !! res = Some (with_finished r0)).
    { unfold wf. world_steps. apply list_lookup_insert_eq.
      eapply lookup_lt_Some. exact Hr. }
    destruct (exec_on_finish res res start
                (child logger [("request.id", SStr id)]) ctx wf _ Hrf)
      as (lvl & msg & E).
    rewrite E. cbn [snd]. unfold wf. world_steps.
    rewrite list_lookup_insert_ne; [exact Hi|]. congruence.
  - unfold close.
    destruct (responses w !! res) as [r0|] eqn:Hr; [|exists r; auto].
    destruct (res_closed r0); [exists r; auto|].
    destruct (inv_listeners _ _ _ _ I res r0 Hr) as (id & start & _ & ->).
    cbn [emit String.eqb Ascii.eqb Bool.eqb]. unfold upd_response. rewrite Hr.
    world_steps. destruct (decide (i = res)) as [->|Hne].
    + rewrite Hr in Hi. injection Hi as <-. exists (with_closed r0).
      split; [|auto]. apply list_lookup_insert_eq.
      eapply lookup_lt_Some. exact Hr.
    + exists r. split; [|auto].
      rewrite list_lookup_insert_ne by congruence. exact Hi.
  - exists r. auto.
Qed.

Lemma run_inv (tr : list Event) : Inv (arrivals tr) (run tr init).
Proof.
  induction tr as [|e tr IH] using rev_ind.
  - split; try reflexivity; try constructor;
      intros i r H; cbn in H; rewrite lookup_nil in H; discriminate.
  - rewrite run_snoc, arrivals_app. apply step_inv. exact IH.
Qed.

(** ** Runs of the server *)

(** C1. In every run, whatever the interleaving of requests, network
    completions and resumptions: every line carries the [request.id] of
    the request whose handling wrote it, hence never that of a request
    with another identifier; every suspended chain holds a store whose
    logger -- the one [getLogger()] gives it when it runs on -- carries
    its own request's identifier; and no turn of the loop changes a
    store that exists, it can only add stores. *)
Theorem isolation (tr : list Event) :
  let w := run tr init in
  let reqs := arrivals tr in
  (forall o rcd, In (o, rcd) (log w) ->
     exists id, request_id reqs o = Some id /\
                field "request.id" (rec_fields rcd) = Some (SStr id))
  /\ (forall o o' rcd id id',
        In (o, rcd) (log w) ->
        request_id reqs o = Some id -> request_id reqs o' = Some id' ->
        id <> id' ->
        field "request.id" (rec_fields rcd) <> Some (SStr id'))
  /\ (forall t r, reactions w !! t = Some (Some r) ->
        exists l lg id,
          r_ctx r = VMap l /\ ambient w l lg /\
          exec (r_origin r) getLogger (r_ctx r) w = (ORet (VLogger lg), w) /\
          request_id reqs (r_origin r) = Some id /\
          field "request.id" (bindings lg) = Some (SStr id))
  /\ (forall e, exists ext, heap (step e w) = heap w ++ ext).
Proof.
  intros w reqs. pose proof (run_inv tr) as I. fold w reqs in I.
  assert (H1 : forall o rcd, In (o, rcd) (log w) ->
     exists id, request_id reqs o = Some id /\
                field "request.id" (rec_fields rcd) = Some (SStr id)).
  { intros o rcd Hin. pose proof (inv_log _ _ _ _ I) as Hl.
    rewrite Forall_forall in Hl.
    destruct (Hl (o, rcd)) as (id & Hid & Hf & _).
    { apply list_elem_of_In. exact Hin. }
    exists id. split; assumption. }
  split_and!.
  - exact H1.
  - intros o o' rcd id id' Hin Hid Hid' Hne.
    destruct (H1 o rcd Hin) as (id0 & Hid0 & ->). congruence.
  - intros t r Ht.
    destruct (inv_reactions _ _ _ _ I t r Ht)
      as (l & lg & id & n & Hc & Ha & Hid & [Hg _] & _).
    exists l, lg, id. split_and!; try assumption.
    rewrite Hc. apply exec_getLogger, ambient_frame. exact Ha.
  - intros e. apply (step_inv reqs w e I).
Qed.

Lemma run_shut (tr tr' : list Event) (i : nat) (r : Response) :
  responses (run tr init) !! i = Some r ->
  res_closed r = true -> res_finished r = false ->
  exists r', responses (run (tr ++ tr') init) !! i = Some r' /\
             res_closed r' = true /\ res_finished r' = false.
Proof.
  induction tr' as [|e tr' IH] using rev_ind; intros Hi Hc Hf.
  - rewrite app_nil_r. exists r. auto.
  - destruct (IH Hi Hc Hf) as (r1 & Hr1 & Hc1 & Hf1).
    rewrite app_assoc, run_snoc.
    apply (step_shut (arrivals (tr ++ tr')) _ e (run_inv _) i r1); assumption.
Qed.

(** C2, as the code has it.  A request that reaches the logging
    middleware -- every response of a run belongs to one -- has at
    most one completion line: none until the framework emits
    ["finish"], exactly one from then on, whatever the status code and
    whatever the handler did.  A response whose connection closed
    before it finished never finishes, and its request never gets a
    completion line. *)
Theorem completion_once (tr : list Event) (res : nat) (r : Response) :
  responses (run tr init) !! res = Some r ->
  completions res (log (run tr init)) =
    (if res_finished r then 1%nat else 0%nat)
  /\ (res_closed r = true -> res_finished r = false ->
      forall tr', completions res (log (run (tr ++ tr') init)) = 0%nat).
Proof.
  intros Hr. split.
  - apply (inv_count _ _ _ _ (run_inv tr) res r Hr).
  - intros Hc Hf tr'.
    destruct (run_shut tr tr' res r Hr Hc Hf) as (r' & Hr' & _ & Hf').
    rewrite (inv_count _ _ _ _ (run_inv (tr ++ tr')) res r' Hr'), Hf'.
    reflexivity.
Qed.

(** C9. When ["finish"] is emitted for a response, under whatever
    store is current at that moment, the one line written carries
    exactly [request.id], [duration_ms] and [status_code], with the
    identifier of that request; and in every run a line that carries
    [duration_ms] has exactly these three fields, so no [user.id]. *)
Theorem completion_fields (tr : list Event) (res : nat) (r : Response)
    (ctx : JsVal) :
  let w := run tr init in
  responses w !! res = Some r ->
  res_sent r <> None -> res_finished r = false -> res_closed r = false ->
  (exists id start lvl msg,
      request_id (arrivals tr) res = Some id /\
      log (step (Finish res ctx) w) =
        log w ++
        [(res,
          {| rec_level := lvl;
             rec_fields :=
               [("request.id", SStr id);
                ("duration_ms", SNum (clock w - start));
                ("status_code", SNum (res_status r))];
             rec_msg := msg |})])
  /\ (forall tr' o rcd,
        In (o, rcd) (log (run tr' init)) -> is_completion rcd = true ->
        keys (rec_fields rcd) = ["request.id"; "duration_ms"; "status_code"]
        /\ field "user.id" (rec_fields rcd) = None).
Proof.
  intros w Hr Hsent Hfin Hcl. split.
  - pose proof (run_inv tr) as I. fold w in I.
    destruct (inv_listeners _ _ _ _ I res r Hr) as (id & start & Hid & Hls).
    unfold_step. unfold finish. rewrite Hr, Hfin, Hcl, Hls.
    destruct (res_sent r); [|congruence].
    cbn [emit String.eqb Ascii.eqb Bool.eqb]. unfold upd_response. rewrite Hr.
    set (wf := set_responses _ w).
    assert (Hrf : responses wf !! res = Some (with_finished r)).
    { unfold wf. world_steps. apply list_lookup_insert_eq.
      eapply lookup_lt_Some. exact Hr. }
    destruct (exec_on_finish res res start
                (child logger [("request.id", SStr id)]) ctx wf _ Hrf)
      as (lvl & msg & E).
    rewrite E. cbn [snd]. unfold wf. world_steps.
    exists id, start, lvl, msg. split; [exact Hid|reflexivity].
  - intros tr' o rcd Hin Hc.
    pose proof (inv_log _ _ _ _ (run_inv tr')) as Hl.
    rewrite Forall_forall in Hl.
    destruct (Hl (o, rcd)) as (id & _ & _ & Hk).
    { apply list_elem_of_In. exact Hin. }
    specialize (Hk Hc). cbn [snd] in Hk. split; [exact Hk|].
    apply field_None_keys. rewrite Hk. cbn [In].
    intros [H|[H|[H|[]]]]; discriminate.
Qed.

(** ** Generated identifiers *)

Lemma generated_before_lt (reqs : list Request) (i j : nat) (ri : Request) :
  (i < j)%nat -> reqs !! i = Some ri -> wants_uuid ri = true ->
  (length (List.filter wants_uuid (take i reqs)) <
   length (List.filter wants_uuid (take j reqs)))%nat.
Proof.
  intros Hlt Hi Hw.
  assert (E : take j reqs !! i = Some ri).
  { rewrite lookup_take_lt by lia. exact Hi. }
  apply take_drop_middle in E. rewrite take_take in E.
  replace (i `min` j)%nat with i in E by lia.
  rewrite <- E, List.filter_app, length_app. cbn [List.filter].
  rewrite Hw. cbn [length]. lia.
Qed.

Section FreshIdentifiers.

(** What [randomUUID] promises: no identifier twice, none empty. *)
Hypothesis uuid_distinct : forall i j, uuid_gen i = uuid_gen j -> i = j.
Hypothesis uuid_nonempty : forall i, uuid_gen i <> "".

(** C6. The identifier in the entry line of a request is its
    [x-request-id] header when there is one and it is not empty;
    otherwise it is an identifier of the generator, not empty and
    different from the one generated for any other request of the
    run. *)
Theorem request_id_rule (tr : list Event) (i : nat) (req : Request) :
  arrivals tr !! i = Some req ->
  exists id,
    request_id (arrivals tr) i = Some id
    /\ entry_of (log (run tr init)) i = Some (entry_record req id)
    /\ field "request.id" (rec_fields (entry_record req id)) = Some (SStr id)
    /\ (forall s, req_headers req !! "x-request-id" = Some s -> s <> "" ->
          id = s)
    /\ (req_headers req !! "x-request-id" = None \/
        req_headers req !! "x-request-id" = Some "" ->
        id <> "" /\ (exists n, id = uuid_gen n) /\
        forall j reqj idj,
          j <> i -> arrivals tr !! j = Some reqj ->
          wants_uuid reqj = true ->
          request_id (arrivals tr) j = Some idj ->
          idj <> id).
Proof.
  intros Hi.
  destruct (inv_entry _ _ _ _ (run_inv tr) i req Hi) as (id & Hid & He).
  exists id. split; [exact Hid|]. split; [exact He|].
  assert (Hdef : id = assigned_id req
                        (length (List.filter wants_uuid (take i (arrivals tr))))).
  { unfold request_id in Hid. rewrite Hi in Hid. congruence. }
  split_and!.
  - unfold entry_record, opt_field.
    destruct (req_ip req), (req_headers req !! "user-agent"); reflexivity.
  - intros s Hs Hne. rewrite Hdef. unfold assigned_id, wants_uuid.
    rewrite Hs. destruct (String.eqb_spec s ""); [congruence|reflexivity].
  - intros Hh.
    assert (Hw : wants_uuid req = true).
    { unfold wants_uuid. destruct Hh as [->| ->]; reflexivity. }
    unfold assigned_id in Hdef. rewrite Hw in Hdef.
    split; [rewrite Hdef; apply uuid_nonempty|].
    split; [eexists; exact Hdef|].
    intros j reqj idj Hne Hj Hwj Hidj Heq.
    unfold request_id in Hidj. rewrite Hj in Hidj. unfold assigned_id in Hidj.
    rewrite Hwj in Hidj. injection Hidj as <-.
    rewrite Hdef in Heq. apply uuid_distinct in Heq.
    destruct (Nat.lt_total i j) as [Hlt|[->|Hlt]]; [|congruence|].
    + pose proof (generated_before_lt _ _ _ _ Hlt Hi Hw). lia.
    + pose proof (generated_before_lt _ _ _ _ Hlt Hj Hwj). lia.
Qed.

End FreshIdentifiers.

(** ** A failing [fetchUser] *)

Lemma lookup_app_plus {A} (l l' : list A) (k : nat) :
  (l ++ l') !! (length l + k)%nat = l' !! k.
Proof.
  rewrite lookup_app_r by lia. f_equal. lia.
Qed.

(** The state a [/fetch-user] request leaves behind when the
    middleware returns. *)
Lemma arrive_fetch_user (req : Request) (w : World) :
  req_route req = RouteFetchUser ->
  let pF := length (promises w) in
  let uid := random_digit (digits w) + 1 in
  exists rB rA rsp,
    promises (arrive uuid_gen random_digit req w) =
      promises w ++
      [{| p_state := Pending;
          p_kind := FetchIO ("https://jsonplaceholder.typicode.com/users/"
                             +:+ pretty uid);
          p_handled := true |};
       {| p_state := Pending; p_kind := Internal; p_handled := true |};
       {| p_state := Pending; p_kind := Internal; p_handled := false |};
       {| p_state := Fulfilled VUndefined; p_kind := Internal;
          p_handled := false |}]
    /\ reactions (arrive uuid_gen random_digit req w) =
         reactions w ++ [Some rB; Some rA]
    /\ r_awaits rB = pF /\ r_settles rB = S pF
    /\ r_awaits rA = S pF /\ r_settles rA = S (S pF)
    /\ (forall r c w0,
          resp_ok r = false ->
          exec (r_origin rB) (r_k rB (VResponse r)) c w0 =
            (OThrow (VError ("Failed to fetch user: " +:+ pretty (resp_status r)
                             +:+ " " +:+ resp_statusText r)), w0))
    /\ responses (arrive uuid_gen random_digit req w) = responses w ++ [rsp]
    /\ res_sent rsp = None.
Proof.
  intros Hroute pF uid. unfold arrive. rewrite exec_middleware.
  destruct (prelude_fresh req w) as (Hh & Hl & Hr & Hs & Hu & Hp & Hd).
  set (res := length (responses w)) in *.
  set (id := assigned_id req (uuids w)) in *.
  set (p := prelude req res _) in *. world_steps.
  unfold express_next. rewrite Hroute.
  assert (Ha : ambient p (S (length (heap w)))
                 (child (child logger [("request.id", SStr id)])
                    [("request.id", SStr id)])).
  { eexists. split.
    - rewrite Hh. rewrite lookup_app_r by lia.
      replace (S (length (heap w)) - length (heap w))%nat with 1%nat by lia.
      reflexivity.
    - apply lookup_insert_eq. }
  destruct (exec_fetch_user_handler res res _ _ p Ha)
    as (w' & m2 & rB & rA & E & _ & _ & _ & Hr' & HoB & _ & _
        & _ & _ & _ & Hs' & _ & Hp' & HaB & HsB & HaA & HsA & HF).
  exec_steps. rewrite E. exec_steps. world_steps.
  exists rB, rA. eexists.
  rewrite Hp', Hr', Hs', Hp, Hr, Hs, Hd, <- app_assoc. cbn [app].
  rewrite Hp in HaB, HsB, HaA, HsA.
  rewrite HoB. fold uid pF. split_and!; try reflexivity; try assumption.
Qed.

Lemma lookup_tail {A} (l t : list A) (p k : nat) :
  p = (length l + k)%nat -> (l ++ t) !! p = t !! k.
Proof. intros ->. apply lookup_app_plus. Qed.

Lemma insert_tail {A} (l t : list A) (p k : nat) (x : A) :
  p = (length l + k)%nat -> <[p := x]> (l ++ t) = l ++ <[k := x]> t.
Proof. intros ->. apply insert_app_r. Qed.

Lemma promises_settle (p : promise) (st : PState) (w : World)
    (kd : PKind) (h : bool) :
  promises w !! p = Some {| p_state := Pending; p_kind := kd; p_handled := h |} ->
  promises (settle p st w) =
  <[p := {| p_state := st; p_kind := kd; p_handled := h |}]> (promises w).
Proof. intros H. unfold settle. rewrite H. reflexivity. Qed.

Lemma reactions_settle (p : promise) (st : PState) (w : World) :
  reactions (settle p st w) = reactions w.
Proof. destruct (settle_eq p st w) as (ps & -> & _). reflexivity. Qed.

Lemma log_settle (p : promise) (st : PState) (w : World) :
  log (settle p st w) = log w.
Proof. destruct (settle_eq p st w) as (ps & -> & _). reflexivity. Qed.

(** Resuming a chain whose awaited promise was rejected, or whose rest
    throws, rejects the promise of its call with that error. *)
Lemma resume_rejects (t : nat) (r : Reaction) (e : JsVal) (w : World) :
  reactions w !! t = Some (Some r) ->
  (p_state <$> promises w !! r_awaits r = Some (Rejected e) \/
   exists v,
     p_state <$> promises w !! r_awaits r = Some (Fulfilled v) /\
     forall c w0, exec (r_origin r) (r_k r v) c w0 = (OThrow e, w0)) ->
  resume uuid_gen random_digit t w =
  settle (r_settles r) (Rejected e)
    (set_reactions (<[t := None]> (reactions w)) w).
Proof.
  intros Ht [H|(v & H & Hx)]; unfold resume; rewrite Ht, H.
  - reflexivity.
  - rewrite Hx. reflexivity.
Qed.

(** C10. The [/fetch-user] handler returns without awaiting the
    promise [withLogContext] gave it: that promise is pending and
    unhandled when the middleware returns.  When the [fetch] then
    fails -- the network rejects it, or the response is not ok -- and
    the two suspended async functions run on, [fetchUser]'s promise is
    rejected with the error, the promise of the bound work is rejected
    with the same error and nothing has ever handled it, both chains
    are over, no line was written, and the response was never sent. *)
Theorem fetch_user_failure_unhandled (w : World) (req : Request)
    (io : IOResult) (err : JsVal) :
  req_route req = RouteFetchUser ->
  fetch_failure io = Some err ->
  let pF := length (promises w) in
  let tB := length (reactions w) in
  let res := length (responses w) in
  let w1 := step (Arrive req) w in
  let w3 := run [Complete pF io; Resume tB; Resume (S tB)] w1 in
  promises w1 !! S (S pF) =
    Some {| p_state := Pending; p_kind := Internal; p_handled := false |}
  /\ promises w3 !! S pF =
       Some {| p_state := Rejected err; p_kind := Internal;
               p_handled := true |}
  /\ promises w3 !! S (S pF) =
       Some {| p_state := Rejected err; p_kind := Internal;
               p_handled := false |}
  /\ reactions w3 = reactions w ++ [None; None]
  /\ (exists rsp, responses w3 !! res = Some rsp /\ res_sent rsp = None)
  /\ log w3 = log w1.
Proof.
  intros Hroute Hfail pF tB res w1 w3.
  destruct (arrive_fetch_user req w Hroute)
    as (rB & rA & rsp & Hp1 & Hr1 & HaB & HsB & HaA & HsA & HF & Hs1 & Hsent).
  change (arrive uuid_gen random_digit req w) with w1 in Hp1, Hr1, Hs1.
  fold pF in HaB, HsB, HaA, HsA. clearbody w1.
  set (uid := random_digit (digits w) + 1) in *.
  (* the network answers *)
  set (w2 := step (Complete pF io) w1).
  assert (H2 : exists st,
     promises w2 =
       promises w ++
       [{| p_state := st;
           p_kind := FetchIO ("https://jsonplaceholder.typicode.com/users/"
                              +:+ pretty uid);
           p_handled := true |};
        {| p_state := Pending; p_kind := Internal; p_handled := true |};
        {| p_state := Pending; p_kind := Internal; p_handled := false |};
        {| p_state := Fulfilled VUndefined; p_kind := Internal;
           p_handled := false |}]
     /\ reactions w2 = reactions w1 /\ responses w2 = responses w1
     /\ log w2 = log w1
     /\ (st = Rejected err \/
         exists r, st = Fulfilled (VResponse r) /\ resp_ok r = false /\
           err = VError ("Failed to fetch user: " +:+ pretty (resp_status r)
                         +:+ " " +:+ resp_statusText r))).
  { assert (Hl : promises w1 !! pF =
              Some {| p_state := Pending;
                      p_kind := FetchIO
                        ("https://jsonplaceholder.typicode.com/users/"
                         +:+ pretty uid);
                      p_handled := true |}).
    { rewrite Hp1. rewrite (lookup_tail _ _ pF 0) by (unfold pF; lia).
      reflexivity. }
    unfold w2. unfold_step. unfold complete. rewrite Hl. cbn [p_kind].
    destruct io as [r|text|msg]; cbn [fetch_failure] in Hfail;
      [|discriminate|].
    - destruct (resp_ok r) eqn:Hok; [discriminate|]. injection Hfail as <-.
      eexists. rewrite (promises_settle _ _ _ _ _ Hl), reactions_settle,
        responses_settle, log_settle, Hp1.
      rewrite (insert_tail _ _ pF 0) by (unfold pF; lia).
      split_and!; try reflexivity. right. exists r. auto.
    - injection Hfail as <-.
      eexists. rewrite (promises_settle _ _ _ _ _ Hl), reactions_settle,
        responses_settle, log_settle, Hp1.
      rewrite (insert_tail _ _ pF 0) by (unfold pF; lia).
      split_and!; try reflexivity. left. reflexivity. }
  destruct H2 as (st & Hp2 & Hr2 & Hs2 & Hl2 & Hst).
  (* fetchUser runs on and fails *)
  set (w2' := step (Resume tB) w2).
  assert (HtB : reactions w2 !! tB = Some (Some rB)).
  { rewrite Hr2, Hr1. rewrite (lookup_tail _ _ tB 0) by (unfold tB; lia).
    reflexivity. }
  assert (E2 : w2' = settle (S pF) (Rejected err)
                       (set_reactions (<[tB := None]> (reactions w2)) w2)).
  { unfold w2'. unfold_step. rewrite <- HsB.
    apply resume_rejects; [exact HtB|]. rewrite HaB, Hp2.
    rewrite (lookup_tail _ _ pF 0) by (unfold pF; lia). cbn.
    destruct Hst as [->|(r & -> & Hok & ->)]; [left; reflexivity|].
    right. eexists. split; [reflexivity|]. intros c w0. apply HF. exact Hok. }
  assert (Hp2' : promises w2' =
     promises w ++
     [{| p_state := st;
         p_kind := FetchIO ("https://jsonplaceholder.typicode.com/users/"
                            +:+ pretty uid);
         p_handled := true |};
      {| p_state := Rejected err; p_kind := Internal; p_handled := true |};
      {| p_state := Pending; p_kind := Internal; p_handled := false |};
      {| p_state := Fulfilled VUndefined; p_kind := Internal;
         p_handled := false |}]).
  { rewrite E2. erewrite promises_settle.
    - world_steps. rewrite Hp2.
      rewrite (insert_tail _ _ (S pF) 1) by (unfold pF; lia). reflexivity.
    - world_steps. rewrite Hp2.
      rewrite (lookup_tail _ _ (S pF) 1) by (unfold pF; lia). reflexivity. }
  assert (Hr2' : reactions w2' = reactions w ++ [None; Some rA]).
  { rewrite E2, reactions_settle. world_steps. rewrite Hr2, Hr1.
    rewrite (insert_tail _ _ tB 0) by (unfold tB; lia). reflexivity. }
  (* the bound work runs on and fails *)
  assert (E3 : w3 = settle (S (S pF)) (Rejected err)
                      (set_reactions (<[S tB := None]> (reactions w2')) w2')).
  { unfold w3. unfold_run. cbn [fold_left]. fold w2 w2'. rewrite <- HsA.
    apply resume_rejects.
    - rewrite Hr2'. rewrite (lookup_tail _ _ (S tB) 1) by (unfold tB; lia).
      reflexivity.
    - left. rewrite HaA, Hp2'.
      rewrite (lookup_tail _ _ (S pF) 1) by (unfold pF; lia). reflexivity. }
  assert (Hp3 : promises w3 =
     promises w ++
     [{| p_state := st;
         p_kind := FetchIO ("https://jsonplaceholder.typicode.com/users/"
                            +:+ pretty uid);
         p_handled := true |};
      {| p_state := Rejected err; p_kind := Internal; p_handled := true |};
      {| p_state := Rejected err; p_kind := Internal; p_handled := false |};
      {| p_state := Fulfilled VUndefined; p_kind := Internal;
         p_handled := false |}]).
  { rewrite E3. erewrite promises_settle.
    - world_steps. rewrite Hp2'.
      rewrite (insert_tail _ _ (S (S pF)) 2) by (unfold pF; lia). reflexivity.
    - world_steps. rewrite Hp2'.
      rewrite (lookup_tail _ _ (S (S pF)) 2) by (unfold pF; lia).
      reflexivity. }
  split_and!.
  - rewrite Hp1. rewrite (lookup_tail _ _ (S (S pF)) 2) by (unfold pF; lia).
    reflexivity.
  - rewrite Hp3. rewrite (lookup_tail _ _ (S pF) 1) by (unfold pF; lia).
    reflexivity.
  - rewrite Hp3. rewrite (lookup_tail _ _ (S (S pF)) 2) by (unfold pF; lia).
    reflexivity.
  - rewrite E3, reactions_settle. world_steps. rewrite Hr2'.
    rewrite (insert_tail _ _ (S tB) 1) by (unfold tB; lia). reflexivity.
  - exists rsp. split; [|exact Hsent].
    rewrite E3, responses_settle. world_steps.
    rewrite E2, responses_settle. world_steps. rewrite Hs2, Hs1.
    apply lookup_snoc.
  - rewrite E3, log_settle. world_steps. rewrite E2, log_settle. world_steps.
    exact Hl2.
Qed.

(** * Further properties of the source *)

(** ** The [/fetch-user] route, step by step *)

Lemma exec_fetchUser_full (o : nat) (id : Z) (c : JsVal) (w : World) :
  exists k,
    exec o (fetchUser id) c w =
      (OSusp (length (promises w)) k c,
       set_promises
         (promises w ++
          [{| p_state := Pending;
              p_kind := FetchIO ("https://jsonplaceholder.typicode.com/users/"
                                 +:+ pretty id);
              p_handled := true |}]) w)
    /\ fetchUser_rest o id k.
Proof.
  unfold fetchUser. exec_steps.
  eexists. split; [rewrite <- mark_new; reflexivity|]. split.
  - intros r c' w' Hok. exec_steps. rewrite Hok. reflexivity.
  - intros r c' w' Hok. exec_steps. rewrite Hok. exec_steps.
    eexists. split; [rewrite <- mark_new; reflexivity|].
    intros v l lg w1 Ha. exec_steps. rewrite exec_bind.
    rewrite (exec_getLogger o _ w1 lg (ambient_frame _ _ _ Ha)).
    reflexivity.
Qed.

Lemma exec_fetch_user_work_full (o res : nat) (uid : Z) (l : loc)
    (lg : Logger) (w : World) :
  ambient w l lg ->
  exists kB kA,
    exec o (fetch_user_work res uid) (VMap l) w =
      (OSusp (S (length (promises w))) kA (VMap l),
       set_promises
         (promises w ++
          [{| p_state := Pending;
              p_kind := FetchIO ("https://jsonplaceholder.typicode.com/users/"
                                 +:+ pretty uid);
              p_handled := true |};
           {| p_state := Pending; p_kind := Internal; p_handled := true |}])
         (set_reactions
            (reactions w ++
             [Some {| r_awaits := length (promises w); r_k := kB;
                      r_ctx := VMap l; r_origin := o;
                      r_settles := S (length (promises w)) |}])
            (set_log
               (log w ++ [(o, mk_record Info lg [] "fetching user data")])
               w)))
    /\ fetchUser_rest o uid kB
    /\ work_rest o res kA.
Proof.
  intros Ha. unfold fetch_user_work. rewrite exec_bind.
  rewrite (exec_getLogger o _ w lg (ambient_frame _ _ _ Ha)).
  exec_steps.
  set (w1 := set_log _ w).
  destruct (exec_fetchUser_full o uid (VMap l) w1) as (kB & E & HB).
  rewrite E. exec_steps. world_steps.
  rewrite length_app. cbn [length]. rewrite Nat.add_1_r.
  match goal with
  | |- context [mark_handled ?p ?X] =>
      match X with
      | context [set_promises (?ps ++ [?c]) _] =>
          rewrite (mark_handled_last ps c X p eq_refl)
            by (rewrite length_app; cbn [length]; lia)
      end
  end.
  cbn [p_state p_kind]. unfold w1. world_steps.
  rewrite <- app_assoc. cbn [app].
  exists kB. eexists. split; [reflexivity|]. split; [exact HB|].
  intros v c w0 r Hr Hs. exec_steps. rewrite Hr, Hs. reflexivity.
Qed.

Lemma prelude_clock (req : Request) (res : nat) (w : World) :
  clock (prelude req res w) = clock w.
Proof.
  unfold prelude, upd_response.
  destruct (wants_uuid req); world_steps;
    match goal with
    | |- context [responses ?W !! res] => destruct (responses W !! res)
    end; reflexivity.
Qed.

Lemma arrive_fetch_user_full (req : Request) (w : World) :
  req_route req = RouteFetchUser ->
  fetch_user_arrived req w (arrive uuid_gen random_digit req w).
Proof.
  intros Hroute. unfold fetch_user_arrived, arrive. rewrite exec_middleware.
  destruct (prelude_fresh req w) as (Hh & Hl & Hr & Hs & Hu & Hp & Hd).
  pose proof (prelude_clock req (length (responses w))
                (set_responses (responses w ++ [new_response]) w)) as Hc.
  set (res := length (responses w)) in *.
  set (id := assigned_id req (uuids w)) in *.
  set (p := prelude req res _) in *. world_steps.
  unfold express_next. rewrite Hroute.
  set (lg1 := child (child logger [("request.id", SStr id)])
                [("request.id", SStr id)]).
  assert (Ha : ambient p (S (length (heap w))) lg1).
  { eexists. split.
    - rewrite Hh. rewrite lookup_app_r by lia.
      replace (S (length (heap w)) - length (heap w))%nat with 1%nat by lia.
      reflexivity.
    - apply lookup_insert_eq. }
  exec_steps. unfold fetch_user_handler. exec_steps. rewrite exec_bind.
  rewrite Hd.
  set (uid := random_digit (digits w) + 1).
  set (lg2 := child lg1 [("user.id", SNum uid)]).
  set (w0 := set_digits _ p).
  assert (Ha0 : ambient w0 (S (length (heap w))) lg1) by exact Ha.
  rewrite (exec_withLogContext res _ _ _ w0 lg1 (ambient_frame _ _ _ Ha0)).
  rewrite exec_run_ret.
  set (w1 := bound_world w0 _ lg1 _).
  assert (Ha1 : ambient w1 (length (heap w0)) lg2)
    by apply ambient_bound_world.
  destruct (exec_fetch_user_work_full res res uid _ lg2 w1 Ha1)
    as (kB & kA & E & HB & HA).
  exec_steps. rewrite E. exec_steps.
  exists {| r_awaits := length (promises w1); r_k := kB;
            r_ctx := VMap (length (heap w0)); r_origin := res;
            r_settles := S (length (promises w1)) |}.
  exists {| r_awaits := S (length (promises w1)); r_k := kA;
            r_ctx := VMap (length (heap w0)); r_origin := res;
            r_settles := length
              (promises w1 ++
               [{| p_state := Pending;
                   p_kind := FetchIO
                     ("https://jsonplaceholder.typicode.com/users/"
                      +:+ pretty uid);
                   p_handled := true |};
                {| p_state := Pending; p_kind := Internal;
                   p_handled := true |}]) |}.
  eexists. eexists. eexists.
  cbn [r_awaits r_k r_ctx r_origin r_settles].
  assert (Ep : promises w1 = promises w) by exact Hp.
  assert (Eh : heap w0 = heap p) by reflexivity.
  assert (Er : reactions w1 = reactions w) by exact Hr.
  assert (Elog : log w1 = log p) by reflexivity.
  assert (Es : responses w1 = responses p) by reflexivity.
  assert (Ec : clock w1 = clock w) by exact Hc.
  assert (Eh1 : heap w1 =
                heap p ++
                [<["logger" := VLogger lg2]>
                   (inherited w0 (VMap (S (length (heap w)))))])
    by reflexivity.
  world_steps. rewrite Ep, Er, Eh, Elog, Es, Ec, Eh1, Hh, Hl, Hs.
  rewrite <- !app_assoc, !length_app. cbn [app length].
  replace (length (promises w) + 2)%nat with (S (S (length (promises w))))
    by lia.
  replace (length (heap w) + 2)%nat with (S (S (length (heap w)))) by lia.
  split_and!; try reflexivity; try assumption.
  apply lookup_insert_eq.
Qed.

(** Looking up and updating a promise, a chain or a response that sits
    among the last few of its table. *)
Ltac tail_lookup :=
  first
    [ rewrite (lookup_tail _ _ _ 0) by (cbn [length]; lia)
    | rewrite (lookup_tail _ _ _ 1) by (cbn [length]; lia)
    | rewrite (lookup_tail _ _ _ 2) by (cbn [length]; lia)
    | rewrite (lookup_tail _ _ _ 3) by (cbn [length]; lia)
    | rewrite (lookup_tail _ _ _ 4) by (cbn [length]; lia) ].

Ltac tail_insert :=
  first
    [ rewrite (insert_tail _ _ _ 0) by (cbn [length]; lia)
    | rewrite (insert_tail _ _ _ 1) by (cbn [length]; lia)
    | rewrite (insert_tail _ _ _ 2) by (cbn [length]; lia)
    | rewrite (insert_tail _ _ _ 3) by (cbn [length]; lia)
    | rewrite (insert_tail _ _ _ 4) by (cbn [length]; lia) ].

Ltac norm_world :=
  unfold set_heap, set_promises, set_reactions, set_responses, set_log,
    set_uuids, set_digits, set_clock, add_reaction;
  cbn [heap promises reactions responses log uuids digits clock].

Ltac table_steps :=
  repeat first
    [ tail_lookup | tail_insert | progress norm_world
    | rewrite <- app_assoc | rewrite length_app
    | progress cbn [lookup list_lookup insert list_insert fmap option_fmap
                    option_map p_state p_kind p_handled r_awaits r_k r_ctx
                    r_origin r_settles res_status res_sent res_finished
                    res_closed res_listeners with_sent with_finished
                    with_status with_closed with_listener new_response
                    conclude fst snd app length]
    | progress world_steps ].



(** When the body of an ok response cannot be read, [response.json()]
    rejects: [fetchUser] stops at its second [await] without writing
    its line, its promise is rejected with the error of the body read,
    the promise of the bound work is rejected with the same error and
    nothing handles it, all three suspensions are over, and the
    request is left without an answer. *)
Theorem fetch_user_body_failure (w : World) (req : Request)
    (r : FetchResponse) (msg : string) :
  req_route req = RouteFetchUser ->
  resp_ok r = true ->
  let pF := length (promises w) in
  let tB := length (reactions w) in
  let res := length (responses w) in
  let w1 := step (Arrive req) w in
  let w' :=
    run [Complete pF (IOResponse r); Resume tB;
         Complete (4 + pF) (IOFailure msg); Resume (2 + tB); Resume (1 + tB)]
      w1 in
  promises w' !! (1 + pF)%nat =
    Some {| p_state := Rejected (VError msg); p_kind := Internal;
            p_handled := true |}
  /\ promises w' !! (2 + pF)%nat =
       Some {| p_state := Rejected (VError msg); p_kind := Internal;
               p_handled := false |}
  /\ reactions w' = reactions w ++ [None; None; None]
  /\ (exists rsp, responses w' !! res = Some rsp /\ res_sent rsp = None /\
                  res_finished rsp = false)
  /\ log w' = log w1.
Proof.
  intros Hroute Hok pF tB res w1 w'.
  destruct (arrive_fetch_user_full req w Hroute)
    as (rB & rA & m0 & m1 & m2 & Hp & Hr & HaB & HsB & HoB & HcB & [_ HB]
        & HaA & HsA & HoA & HcA & HA & Hh & Hm & Hl & Hs & Hc).
  set (uid := random_digit (digits w) + 1) in *.
  set (id := assigned_id req (uuids w)) in *.
  fold pF res in Hp, Hr, HaB, HsB, HoB, HcB, HB, HaA, HsA, HoA, HcA,
    HA, Hh, Hm, Hl, Hs, Hc.
  unfold w', w1. unfold_step.
  destruct (arrive uuid_gen random_digit req w)
    as [h1 ps1 rs1 rsp1 lg1 u1 d1 c1] eqn:Ea.
  world_steps. subst h1 ps1 rs1 rsp1 lg1 c1.
  match goal with
  | |- context [run ?tr ?W] => eassert (E : run tr W = _)
  end.
  { rewrite run_cons. unfold_step. unfold complete. table_steps.
    unfold settle. table_steps.
    rewrite run_cons. unfold_step. unfold resume. table_steps.
    rewrite HoB, HcB, HsB.
    match goal with
    | |- context [exec res (r_k rB (VResponse r)) ?c ?W] =>
        destruct (HB r c W Hok) as (kC & EB & HC); rewrite EB; clear EB
    end.
    table_steps.
    rewrite run_cons. unfold_step. unfold complete. table_steps.
    unfold settle. table_steps.
    rewrite run_cons. unfold_step. unfold resume. table_steps.
    unfold settle. table_steps.
    rewrite run_cons. unfold_step. unfold resume. table_steps.
    rewrite HsA. unfold settle. table_steps.
    unfold_run. cbn [fold_left]. reflexivity. }
  rewrite E. table_steps. split_and!; try reflexivity.
  eexists. split; [reflexivity|]. split; reflexivity.
Qed.


(** [Math.floor(Math.random() * 10)] is one of 0..9, so the user the
    route asks for is one of 1..10; and the number at the end of the
    address that [fetchUser] requests is the [user.id] of the line
    written just before. *)
Theorem fetch_user_id_range (w : World) (req : Request) :
  (forall n, 0 <= random_digit n <= 9) ->
  req_route req = RouteFetchUser ->
  let w' := step (Arrive req) w in
  exists uid line,
    1 <= uid <= 10
    /\ promises w' !! length (promises w) =
         Some {| p_state := Pending;
                 p_kind := FetchIO ("https://jsonplaceholder.typicode.com/users/"
                                    +:+ pretty uid);
                 p_handled := true |}
    /\ log w' !! S (length (log w)) = Some (length (responses w), line)
    /\ rec_msg line = "fetching user data"
    /\ field "user.id" (rec_fields line) = Some (SNum uid).
Proof.
  intros Hdigit Hroute w'.
  destruct (arrive_fetch_user_full req w Hroute)
    as (rB & rA & m0 & m1 & m2 & Hp & _ & _ & _ & _ & _ & _
        & _ & _ & _ & _ & _ & _ & _ & Hl & _).
  unfold w'. unfold_step.
  exists (random_digit (digits w) + 1). eexists. split_and!.
  - specialize (Hdigit (digits w)). lia.
  - specialize (Hdigit (digits w)). lia.
  - rewrite Hp. tail_lookup. reflexivity.
  - rewrite Hl. tail_lookup. reflexivity.
  - reflexivity.
  - reflexivity.
Qed.


(** [withLogContext] takes whatever truthy value the current store
    holds under ["logger"] for the parent logger.  When that value is
    not a logger, [parentLogger.child] is not a function: the call
    throws a [TypeError] before a store is allocated, and the callback
    is never run. *)
Theorem withLogContext_not_a_logger (o : nat) (data : Obj) (callback : Prog)
    (l : loc) (m : gmap string JsVal) (v : JsVal) (w : World) :
  heap w !! l = Some m ->
  m !! "logger" = Some v ->
  truthy v = true ->
  (forall lg, v <> VLogger lg) ->
  exec o (withLogContext data callback) (VMap l) w =
    (OThrow (VError "TypeError: parentLogger.child is not a function"), w).
Proof.
  intros Hl Hm Ht Hv. unfold withLogContext. exec_steps. rewrite Hl.
  rewrite Hm. cbn [default from_option id]. exec_steps.
  unfold js_or. rewrite Ht.
  destruct v; try reflexivity. exfalso. eapply Hv. reflexivity.
Qed.


(** ** The monotonic clock *)

Lemma clock_upd_response (res : nat) (f : Response -> Response) (w : World) :
  clock (upd_response res f w) = clock w.
Proof. unfold upd_response. destruct (responses w !! res); reflexivity. Qed.

Lemma clock_mark_handled (p : promise) (w : World) :
  clock (mark_handled p w) = clock w.
Proof. destruct (mark_handled_eq p w) as (ps & -> & _). reflexivity. Qed.

Lemma clock_settle (p : promise) (st : PState) (w : World) :
  clock (settle p st w) = clock w.
Proof. destruct (settle_eq p st w) as (ps & -> & _). reflexivity. Qed.

(** No operation of the program sets the clock. *)
Lemma exec_clock (c : Prog) (o : nat) (ctx : JsVal) (w : World) :
  clock (snd (exec o c ctx w)) = clock w.
Proof.
  revert o ctx w.
  induction c as [v|e|k IH|store cb IHcb k IH|src k IH|m key k IH
                 |m key v k IH|r k IH|k IH|k IH|k IH|body IHb k IH
                 |v k IH|url k IH|r k IH|res ev l IHl k IH|res k IH
                 |res code k IH|res body k IH];
    intros o ctx w; exec_steps; try reflexivity.
  - apply IH.
  - specialize (IHcb o store w).
    destruct (exec o cb store w) as [[v|e|q kk c'] w1]; cbn [snd] in *;
      [rewrite IH|..]; exact IHcb.
  - destruct src as [l|]; [destruct (heap w !! l)|]; rewrite ?IH; reflexivity.
  - destruct (heap w !! m); rewrite ?IH; reflexivity.
  - destruct (heap w !! m); rewrite ?IH; reflexivity.
  - rewrite IH. reflexivity.
  - apply IH.
  - rewrite IH. reflexivity.
  - rewrite IH. reflexivity.
  - specialize (IHb o ctx w).
    destruct (exec o body ctx w) as [[v|e|q kk c'] w1]; cbn [snd] in *;
      exec_steps; rewrite IH; exact IHb.
  - destruct v; cbn [snd]; rewrite clock_mark_handled; reflexivity.
  - rewrite IH. reflexivity.
  - rewrite IH. reflexivity.
  - rewrite IH. apply clock_upd_response.
  - destruct (responses w !! res); rewrite ?IH; reflexivity.
  - rewrite IH. apply clock_upd_response.
  - destruct (responses w !! res) as [r|]; [|reflexivity].
    destruct (res_sent r); [reflexivity|].
    rewrite IH. apply clock_upd_response.
Qed.

Lemma emit_clock (res : nat) (ev : string) (ls : list (string * Prog))
    (ctx : JsVal) (w : World) :
  clock (emit uuid_gen random_digit res ev ls ctx w) = clock w.
Proof.
  revert w. induction ls as [|[ev' l] ls IH]; intros w; cbn [emit].
  - reflexivity.
  - rewrite IH. destruct (String.eqb ev' ev); [apply exec_clock|reflexivity].
Qed.

Lemma conclude_clock (o : nat) (p : promise) (r : Outcome * World) :
  clock (conclude o p r) = clock (snd r).
Proof.
  destruct r as [[v|e|q k c] w]; unfold conclude; cbn [snd];
    rewrite ?clock_settle; reflexivity.
Qed.

(** The clock of the process only moves when time passes. *)
Lemma step_clock (e : Event) (w : World) :
  clock (step e w) =
  match e with
  | Elapse d => clock w + Z.of_N d
  | _ => clock w
  end.
Proof.
  destruct e as [req|p io|t|res ctx|res ctx|d]; unfold_step.
  - unfold arrive.
    match goal with
    | |- context [exec ?o ?c ?ctx ?W] =>
        pose proof (exec_clock c o ctx W) as H;
        destruct (exec o c ctx W) as [[v|e|q k c'] w2]
    end; cbn [snd] in H; try exact H.
    destruct (responses w2 !! _) as [[? [?|] ? ? ?]|]; try exact H.
    rewrite clock_upd_response. exact H.
  - unfold complete. destruct (promises w !! p) as [c|]; [|reflexivity].
    destruct (p_kind c), io; rewrite ?clock_settle; reflexivity.
  - unfold resume. destruct (reactions w !! t) as [[r|]|]; try reflexivity.
    destruct (p_state <$> promises w !! r_awaits r) as [[|v|e]|];
      try reflexivity; rewrite conclude_clock; cbn [snd];
      rewrite ?exec_clock; reflexivity.
  - unfold finish. destruct (responses w !! res) as [r|]; [|reflexivity].
    destruct (res_sent r), (res_finished r), (res_closed r); try reflexivity.
    rewrite emit_clock. apply clock_upd_response.
  - unfold close. destruct (responses w !! res) as [r|]; [|reflexivity].
    destruct (res_closed r); [reflexivity|].
    rewrite emit_clock. apply clock_upd_response.
  - reflexivity.
Qed.


Lemma run_app (a b : list Event) (w : World) :
  run (a ++ b) w = run b (run a w).
Proof. unfold_run. apply fold_left_app. Qed.

Lemma elapsed_nonneg (tr : list Event) : 0 <= elapsed tr.
Proof.
  induction tr as [|e tr IH]; [reflexivity|].
  cbn [elapsed fold_right]. fold (elapsed tr). destruct e; lia.
Qed.

(** The clock after a stretch of a run: what it was, plus the time
    that passed. *)
Lemma run_clock (tr : list Event) (w : World) :
  clock (run tr w) = clock w + elapsed tr.
Proof.
  revert w. induction tr as [|e tr IH]; intros w.
  - unfold_run. cbn [fold_left elapsed fold_right]. lia.
  - rewrite run_cons, IH, step_clock. cbn [elapsed fold_right].
    fold (elapsed tr). destruct e; lia.
Qed.

Lemma step_clock_le (e : Event) (w : World) : clock w <= clock (step e w).
Proof. rewrite step_clock. destruct e; lia. Qed.

(** ** What one turn of the loop does to the responses and the log *)

(** ["finish"] on a response that is due for it: the response is
    marked, and its listener writes the completion line. *)
Lemma finish_due (w : World) (res : nat) (ctx : JsVal)
    (r : Response) (body : JsVal) (start : Z) (lg : Logger) :
  responses w !! res = Some r ->
  res_sent r = Some body -> res_finished r = false -> res_closed r = false ->
  res_listeners r = [("finish", on_finish res start lg)] ->
  exists lvl msg,
    finish uuid_gen random_digit res ctx w =
      set_log
        (log w ++
         [(res, mk_record lvl lg
                  [("duration_ms", SNum (clock w - start));
                   ("status_code", SNum (res_status r))] msg)])
        (set_responses (<[res := with_finished r]> (responses w)) w).
Proof.
  intros Hr Hs Hf Hc Hl. unfold finish. rewrite Hr, Hs, Hf, Hc, Hl.
  cbn [emit String.eqb Ascii.eqb Bool.eqb]. unfold upd_response. rewrite Hr.
  set (wf := set_responses _ w).
  assert (Hrf : responses wf !! res = Some (with_finished r)).
  { unfold wf. world_steps. apply list_lookup_insert_eq.
    eapply lookup_lt_Some. exact Hr. }
  destruct (exec_on_finish res res start lg ctx wf _ Hrf) as (lvl & msg & E).
  rewrite E. exists lvl, msg. reflexivity.
Qed.

(** ["finish"] on any other response does nothing. *)
Lemma finish_undue (w : World) (res : nat) (ctx : JsVal) :
  (forall r, responses w !! res = Some r ->
     res_sent r = None \/ res_finished r = true \/ res_closed r = true) ->
  finish uuid_gen random_digit res ctx w = w.
Proof.
  intros H. unfold finish. destruct (responses w !! res) as [r|]; [|reflexivity].
  destruct (H r eq_refl) as [E|[E|E]]; rewrite E; [reflexivity|..].
  - destruct (res_sent r); reflexivity.
  - destruct (res_sent r), (res_finished r); reflexivity.
Qed.

(** The connection of a response goes away: no listener of the source
    hears of it. *)
Lemma close_eq (reqs : list Request) (w : World) (res : nat) (ctx : JsVal) :
  Inv reqs w ->
  close uuid_gen random_digit res ctx w = w \/
  exists r, responses w !! res = Some r /\
    close uuid_gen random_digit res ctx w =
      set_responses (<[res := with_closed r]> (responses w)) w.
Proof.
  intros I. unfold close.
  destruct (responses w !! res) as [r|] eqn:Hr; [|left; reflexivity].
  destruct (res_closed r); [left; reflexivity|]. right. exists r.
  split; [reflexivity|].
  destruct (inv_listeners _ _ _ _ I res r Hr) as (id & start & _ & ->).
  cbn [emit String.eqb Ascii.eqb Bool.eqb]. unfold upd_response. rewrite Hr.
  reflexivity.
Qed.

(** A suspended chain that runs on writes no completion line. *)
Lemma resume_log (reqs : list Request) (w : World) (t : nat) :
  Inv reqs w ->
  exists added,
    log (resume uuid_gen random_digit t w) = log w ++ added /\
    Forall (fun e => is_completion (snd e) = false) added.
Proof.
  intros I. unfold resume.
  assert (Hnone : exists added : list (nat * LogRecord),
            log w = log w ++ added /\
            Forall (fun e => is_completion (snd e) = false) added)
    by (exists []; split; [symmetry; apply app_nil_r|constructor]).
  destruct (reactions w !! t) as [[r|]|] eqn:Ht; try exact Hnone.
  destruct (inv_reactions _ _ _ _ I t r Ht)
    as (l & lg & id & n & Hc & Ha & Hid & Hg & Hk).
  destruct (p_state <$> promises w !! r_awaits r) as [[|v|e]|];
    try exact Hnone.
  - set (w0 := set_reactions (<[t := None]> (reactions w)) w).
    assert (Ha0 : ambient w0 l lg) by exact Ha.
    rewrite Hc.
    destruct (contract_run n _ l lg (r_k r) v w0 Hk Ha0) as [He _].
    destruct (eff_log _ _ _ _ He) as (added & El & Fa).
    exists added. split.
    + destruct (exec (r_origin r) (r_k r v) (VMap l) w0) as [[v'|e'|q k' c] w1];
        cbn [snd] in El; unfold conclude;
        try match goal with
            | |- context [settle ?p ?st ?W] =>
                destruct (settle_eq p st W) as (ps & -> & _)
            end; world_steps; exact El.
    + eapply Forall_impl; [exact Fa|]. intros x [msg ->].
      apply (ambient_line_good reqs (r_origin r) id lg msg Hid Hg).
  - unfold conclude.
    match goal with
    | |- context [settle ?p ?st ?W] =>
        destruct (settle_eq p st W) as (ps & -> & _)
    end. exact Hnone.
Qed.

(** A response keeps its listeners through every turn. *)
Lemma step_listeners (reqs : list Request) (w : World) (e : Event) (i : nat)
    (r : Response) :
  Inv reqs w -> responses w !! i = Some r ->
  exists r', responses (step e w) !! i = Some r' /\
             res_listeners r' = res_listeners r.
Proof.
  intros I Hi.
  destruct e as [req|p io|t|res ctx|res ctx|d]; unfold_step.
  - destruct (arrive_adds req w)
      as (_ & _ & _ & rsp & _ & _ & _ & _ & _ & Hs & _).
    rewrite Hs. exists r. split; [apply lookup_app_l_Some; exact Hi|reflexivity].
  - exists r. split; [|reflexivity]. unfold complete.
    destruct (promises w !! p) as [c|]; [|exact Hi].
    destruct (p_kind c), io; rewrite ?responses_settle; exact Hi.
  - destruct (resume_inv reqs w t I) as (_ & _ & [_ Hs]).
    destruct (Hs i r Hi) as (r' & Hr' & Hl & _). eauto.
  - destruct (responses w !! res) as [r0|] eqn:Hr0.
    + destruct (res_sent r0) as [body|] eqn:Hsent;
        [destruct (res_finished r0) eqn:Hfin;
         [|destruct (res_closed r0) eqn:Hcl]|];
        try (rewrite finish_undue;
             [eauto|intros r1 H1; rewrite Hr0 in H1; injection H1 as <-;
                    solve [auto]]).
      destruct (inv_listeners _ _ _ _ I res r0 Hr0) as (id & start & _ & Hl).
      destruct (finish_due w res ctx r0 body start _ Hr0 Hsent Hfin Hcl Hl)
        as (lvl & msg & ->).
      world_steps. destruct (decide (i = res)) as [->|Hne].
      * rewrite Hr0 in Hi. injection Hi as <-. exists (with_finished r0).
        split; [|reflexivity]. apply list_lookup_insert_eq.
        eapply lookup_lt_Some. exact Hr0.
      * exists r. split; [|reflexivity].
        rewrite list_lookup_insert_ne by auto. exact Hi.
    + rewrite finish_undue; [eauto|]. intros r1 H1. rewrite Hr0 in H1.
      discriminate.
  - destruct (close_eq reqs w res ctx I) as [->|(r0 & Hr0 & ->)]; [eauto|].
    world_steps. destruct (decide (i = res)) as [->|Hne].
    + rewrite Hr0 in Hi. injection Hi as <-. exists (with_closed r0).
      split; [|reflexivity]. apply list_lookup_insert_eq.
      eapply lookup_lt_Some. exact Hr0.
    + exists r. split; [|reflexivity].
      rewrite list_lookup_insert_ne by auto. exact Hi.
  - exists r. split; [exact Hi|reflexivity].
Qed.


Lemma line_plain_sane (r : LogRecord) :
  is_completion r = false -> sane_duration r.
Proof.
  unfold is_completion, sane_duration. intros H v Hv. rewrite Hv in H.
  discriminate.
Qed.

Lemma entry_record_plain (req : Request) (id : string) :
  is_completion (entry_record req id) = false.
Proof.
  unfold is_completion, entry_record, opt_field.
  destruct (req_ip req), (req_headers req !! "user-agent"); reflexivity.
Qed.

Lemma info_line_plain (id : string) (lg : Logger) (msg : string) :
  good_logger id lg -> is_completion (mk_record Info lg [] msg) = false.
Proof.
  intros [_ H]. unfold is_completion. cbn [rec_fields mk_record].
  rewrite app_nil_r, H. reflexivity.
Qed.

(** The duration a completion line reports. *)
Lemma completion_line_duration (lvl : Level) (lg : Logger) (t code : Z)
    (msg : string) :
  field "duration_ms"
    (rec_fields (mk_record lvl lg [("duration_ms", SNum t);
                                   ("status_code", SNum code)] msg)) =
    Some (SNum t).
Proof. cbn [rec_fields mk_record]. rewrite field_app. reflexivity. Qed.

Lemma step_started (reqs : list Request) (w : World) (e : Event) :
  Inv reqs w -> started w -> started (step e w).
Proof.
  intros I S i r' Hi'.
  pose proof (step_clock_le e w) as Hc.
  destruct (responses w !! i) as [r|] eqn:Hi.
  - destruct (step_listeners reqs w e i r I Hi) as (r'' & Hr'' & Hl).
    rewrite Hi' in Hr''. injection Hr'' as <-.
    destruct (S i r Hi) as (start & lg & Hs & Hle).
    exists start, lg. split; [congruence|lia].
  - apply lookup_ge_None in Hi.
    pose proof (lookup_lt_Some _ _ _ Hi') as Hlt.
    destruct (step_inv reqs w e I) as [I' _].
    pose proof (inv_responses _ _ _ _ I') as Hlen'.
    pose proof (inv_responses _ _ _ _ I) as Hlen.
    rewrite length_app in Hlen'.
    destruct e as [req|p io|t|res ctx|res ctx|d];
      cbn [arrivals flat_map app length] in Hlen'; try lia.
    revert Hi' Hc. unfold_step. intros Hi' Hc.
    destruct (arrive_adds req w)
      as (_ & _ & _ & rsp & _ & _ & _ & _ & _ & Hs & Hls & _).
    rewrite Hs in Hi'.
    assert (i = length (responses w)) as -> by lia.
    rewrite lookup_snoc in Hi'. injection Hi' as <-.
    eexists. eexists. split; [exact Hls|exact Hc].
Qed.

Lemma step_sane (reqs : list Request) (w : World) (e : Event) :
  Inv reqs w -> started w ->
  Forall (fun x => sane_duration (snd x)) (log w) ->
  Forall (fun x => sane_duration (snd x)) (log (step e w)).
Proof.
  intros I S F.
  destruct e as [req|p io|t|res ctx|res ctx|d]; unfold_step.
  - destruct (arrive_adds req w)
      as (_ & added & _ & _ & _ & Hl & Ha & _).
    rewrite Hl. apply Forall_app. split; [exact F|]. constructor.
    + apply line_plain_sane, entry_record_plain.
    + eapply Forall_impl; [exact Ha|]. intros x (lg & msg & -> & Hg).
      eapply line_plain_sane, info_line_plain. exact Hg.
  - unfold complete. destruct (promises w !! p) as [c|]; [|exact F].
    destruct (p_kind c), io; rewrite ?log_settle; exact F.
  - destruct (resume_log reqs w t I) as (added & -> & Fa).
    apply Forall_app. split; [exact F|].
    eapply Forall_impl; [exact Fa|]. intros x Hx.
    apply line_plain_sane. exact Hx.
  - destruct (responses w !! res) as [r0|] eqn:Hr0.
    + destruct (res_sent r0) as [body|] eqn:Hsent;
        [destruct (res_finished r0) eqn:Hfin;
         [|destruct (res_closed r0) eqn:Hcl]|];
        try (rewrite finish_undue;
             [exact F|intros r1 H1; rewrite Hr0 in H1; injection H1 as <-;
                      solve [auto]]).
      destruct (S res r0 Hr0) as (start & lg & Hl & Hle).
      destruct (finish_due w res ctx r0 body start lg Hr0 Hsent Hfin Hcl Hl)
        as (lvl & msg & ->).
      world_steps. apply Forall_app. split; [exact F|].
      constructor; [|constructor]. cbn [snd]. intros v Hv.
      rewrite completion_line_duration in Hv. injection Hv as <-.
      eexists. split; [reflexivity|lia].
    + rewrite finish_undue; [exact F|]. intros r1 H1. rewrite Hr0 in H1.
      discriminate.
  - destruct (close_eq reqs w res ctx I) as [->|(r0 & Hr0 & ->)]; exact F.
  - exact F.
Qed.

Lemma run_timed (tr : list Event) :
  started (run tr init) /\
  Forall (fun x => sane_duration (snd x)) (log (run tr init)).
Proof.
  induction tr as [|e tr [IS IF]] using rev_ind.
  - split; [|constructor]. intros i r H. cbn in H.
    rewrite lookup_nil in H. discriminate.
  - rewrite run_snoc. pose proof (run_inv tr) as I. split.
    + eapply step_started; eassumption.
    + eapply step_sane; eassumption.
Qed.

(** [performance.now()] never goes back, so no line of any run reports
    a negative [duration_ms], whatever was interleaved between the
    arrival of its request and the end of its response. *)
Theorem duration_nonneg (tr : list Event) (o : nat) (rcd : LogRecord)
    (v : Scalar) :
  In (o, rcd) (log (run tr init)) ->
  field "duration_ms" (rec_fields rcd) = Some v ->
  exists d, v = SNum d /\ 0 <= d.
Proof.
  intros Hin Hv. destruct (run_timed tr) as [_ F].
  rewrite Forall_forall in F. apply (F (o, rcd)); [|exact Hv].
  apply list_elem_of_In. exact Hin.
Qed.


Lemma run_listeners (tr tr' : list Event) (i : nat) (r : Response) :
  responses (run tr init) !! i = Some r ->
  exists r', responses (run (tr ++ tr') init) !! i = Some r' /\
             res_listeners r' = res_listeners r.
Proof.
  intros Hi. induction tr' as [|e tr' IH] using rev_ind.
  - rewrite app_nil_r. eauto.
  - destruct IH as (r1 & Hr1 & Hl1). rewrite app_assoc, run_snoc.
    destruct (step_listeners _ _ e i r1 (run_inv (tr ++ tr')) Hr1)
      as (r2 & Hr2 & Hl2).
    exists r2. split; [exact Hr2|congruence].
Qed.

(** The [duration_ms] of a completion line is the time that passed
    between the arrival of its request and the ["finish"] of its
    response, whatever else the process did in between; its
    [status_code] is the status of the response at that moment. *)
Theorem completion_duration (tr1 tr2 : list Event) (req : Request)
    (ctx : JsVal) (r : Response) (body : JsVal) :
  let res := length (arrivals tr1) in
  let w := run (tr1 ++ Arrive req :: tr2) init in
  responses w !! res = Some r ->
  res_sent r = Some body -> res_finished r = false -> res_closed r = false ->
  exists line,
    log (step (Finish res ctx) w) = log w ++ [(res, line)]
    /\ field "duration_ms" (rec_fields line) = Some (SNum (elapsed tr2))
    /\ field "status_code" (rec_fields line) = Some (SNum (res_status r)).
Proof.
  intros res w Hr Hsent Hfin Hcl.
  pose proof (run_inv tr1) as I1.
  pose proof (inv_responses _ _ _ _ I1) as Hlen. fold res in Hlen.
  destruct (arrive_adds req (run tr1 init))
    as (_ & _ & _ & rsp & _ & _ & _ & _ & _ & Hs & Hls & _).
  rewrite Hlen in Hls.
  assert (HA : responses (run (tr1 ++ [Arrive req]) init) !! res = Some rsp).
  { rewrite run_snoc. unfold_step. rewrite Hs, <- Hlen. apply lookup_snoc. }
  destruct (run_listeners _ tr2 res rsp HA) as (r' & Hr' & Hl').
  rewrite <- app_assoc in Hr'. cbn [app] in Hr'. fold w in Hr'.
  rewrite Hr in Hr'. injection Hr' as <-. rewrite Hls in Hl'.
  assert (Hclock : clock w = clock (run tr1 init) + elapsed tr2).
  { unfold w. rewrite run_app, run_cons, run_clock, step_clock. reflexivity. }
  unfold_step.
  destruct (finish_due w res ctx r body _ _ Hr Hsent Hfin Hcl Hl')
    as (lvl & msg & ->).
  world_steps. eexists. split; [reflexivity|]. split.
  - rewrite completion_line_duration. do 2 f_equal. lia.
  - cbn [rec_fields mk_record]. rewrite field_app. reflexivity.
Qed.


(** ** Requests do not touch each other's responses *)

Lemma confined_bind (o : nat) (c : Prog) (f : JsVal -> Prog) :
  confined o c -> (forall v, confined o (f v)) -> confined o (bind c f).
Proof.
  intros Hc Hf. induction Hc; cbn [bind]; try (constructor; auto).
  apply Hf.
Qed.

Lemma moved_refl (o : nat) (w : World) : confined_world w -> moved o w w.
Proof.
  intros Hw. split; try reflexivity; [exact Hw|].
  exists []. split; [symmetry; apply app_nil_r|constructor].
Qed.

Lemma moved_trans (o : nat) (w1 w2 w3 : World) :
  moved o w1 w2 -> moved o w2 w3 -> moved o w1 w3.
Proof.
  intros [_ L1 O1 (a1 & R1 & F1)] [W2 L2 O2 (a2 & R2 & F2)]. split.
  - exact W2.
  - congruence.
  - intros i Hi. rewrite O2, O1 by exact Hi. reflexivity.
  - exists (a1 ++ a2). split.
    + rewrite R2, R1, app_assoc. reflexivity.
    + apply Forall_app. split; assumption.
Qed.

Lemma moved_then_same (o : nat) (w w1 w2 : World) :
  moved o w w1 ->
  responses w2 = responses w1 -> reactions w2 = reactions w1 ->
  moved o w w2.
Proof.
  intros [[W1 W1'] L1 O1 (a1 & R1 & F1)] Hs Hr. split.
  - split.
    + intros i r. rewrite Hs. apply W1.
    + intros t r. rewrite Hr. apply W1'.
  - congruence.
  - intros i Hi. rewrite Hs. apply O1. exact Hi.
  - exists a1. split; [congruence|exact F1].
Qed.

Lemma moved_then_add (o : nat) (w w1 w2 : World) (rc : Reaction) :
  moved o w w1 ->
  responses w2 = responses w1 -> reactions w2 = reactions w1 ++ [Some rc] ->
  r_origin rc = o -> (forall v, confined o (r_k rc v)) ->
  moved o w w2.
Proof.
  intros [[W1 W1'] L1 O1 (a1 & R1 & F1)] Hs Hr Ho Hk. split.
  - split.
    + intros i r. rewrite Hs. apply W1.
    + intros t r. rewrite Hr. intros H v.
      apply lookup_app_Some in H as [H|[_ H]]; [apply W1' with t; exact H|].
      destruct (t - length (reactions w1))%nat; [|discriminate].
      injection H as <-. rewrite Ho. apply Hk.
  - congruence.
  - intros i Hi. rewrite Hs. apply O1. exact Hi.
  - exists (a1 ++ [Some rc]). split.
    + rewrite Hr, R1, app_assoc. reflexivity.
    + apply Forall_app. split; [exact F1|]. repeat constructor. eauto.
Qed.

Lemma moved_then_upd (o : nat) (w w1 : World) (f : Response -> Response) :
  moved o w w1 ->
  (forall r, Forall (fun l => confined o (snd l)) (res_listeners r) ->
             Forall (fun l => confined o (snd l)) (res_listeners (f r))) ->
  moved o w (upd_response o f w1).
Proof.
  intros Hm Hf. unfold upd_response.
  destruct (responses w1 !! o) as [r|] eqn:Hr; [|exact Hm].
  destruct Hm as [[W1 W1'] L1 O1 (a1 & R1 & F1)]. split; world_steps.
  - split; world_steps; [|exact W1'].
    intros i r' Hi. destruct (decide (i = o)) as [->|Hne].
    + rewrite list_lookup_insert_eq in Hi by (eapply lookup_lt_Some; exact Hr).
      injection Hi as <-. apply Hf. apply (W1 o r Hr).
    + rewrite list_lookup_insert_ne in Hi by auto. apply (W1 i r' Hi).
  - rewrite length_insert. exact L1.
  - intros i Hi. rewrite list_lookup_insert_ne by auto. apply O1. exact Hi.
  - exists a1. split; [exact R1|exact F1].
Qed.

Lemma exec_after (o : nat) (w W : World) (c : Prog) (ctx : JsVal) :
  (forall ctx w, confined_world w ->
     moved o w (snd (exec o c ctx w)) /\ susp_ok o (fst (exec o c ctx w))) ->
  moved o w W ->
  moved o w (snd (exec o c ctx W)) /\ susp_ok o (fst (exec o c ctx W)).
Proof.
  intros IH Hm. destruct (IH ctx W (mv_world _ _ _ Hm)) as [H1 H2].
  split; [eapply moved_trans; eassumption|exact H2].
Qed.

(** Running a confined program: the tables of the process move as
    [moved] says. *)
Lemma exec_confined (o : nat) (c : Prog) :
  confined o c ->
  forall ctx w, confined_world w ->
    moved o w (snd (exec o c ctx w)) /\ susp_ok o (fst (exec o c ctx w)).
Proof.
  induction 1 as [v|e|k _ IH|s cb k _ IHcb _ IH|src k _ IH|m key k _ IH
                 |m key x k _ IH|r k _ IH|k _ IH|k _ IH|k _ IH
                 |body k _ IHb _ IH|x k Hk _|url k _ IH|r k _ IH
                 |ev l k Hl _ _ IH|k _ IH|code k _ IH|body k _ IH];
    intros ctx w Hw; exec_steps.
  - split; [apply moved_refl; exact Hw|exact I].
  - split; [apply moved_refl; exact Hw|exact I].
  - apply IH. exact Hw.
  - destruct (IHcb s w Hw) as [Hm Hs].
    destruct (exec o cb s w) as [[v|e|q kk c'] w1]; cbn [fst snd] in *.
    + apply (exec_after o w w1 _ _ (IH v)). exact Hm.
    + split; [exact Hm|exact I].
    + split; [exact Hm|exact I].
  - pose proof (moved_refl o w Hw) as Hm.
    destruct src as [l|]; [destruct (heap w !! l)|];
      try (split; [exact Hm|exact I]);
      apply (exec_after o w _ _ _ (IH _));
      apply (moved_then_same o w w); auto.
  - pose proof (moved_refl o w Hw) as Hm.
    destruct (heap w !! m); [|split; [exact Hm|exact I]].
    apply IH. exact Hw.
  - pose proof (moved_refl o w Hw) as Hm.
    destruct (heap w !! m); [|split; [exact Hm|exact I]].
    apply (exec_after o w _ _ _ (IH _)).
    apply (moved_then_same o w w); auto.
  - apply (exec_after o w _ _ _ (IH _)).
    apply (moved_then_same o w w); auto using moved_refl.
  - apply IH. exact Hw.
  - apply (exec_after o w _ _ _ (IH _)).
    apply (moved_then_same o w w); auto using moved_refl.
  - apply (exec_after o w _ _ _ (IH _)).
    apply (moved_then_same o w w); auto using moved_refl.
  - destruct (IHb ctx w Hw) as [Hm Hs].
    destruct (exec o body ctx w) as [[v|e|q kk c'] w1]; cbn [fst snd] in *;
      exec_steps; apply (exec_after o w _ _ _ (IH _)).
    + apply (moved_then_same o w w1); auto.
    + apply (moved_then_same o w w1); auto.
    + eapply (moved_then_add o w w1); [exact Hm|reflexivity|reflexivity
                                       |reflexivity|exact Hs].
  - destruct x; cbn [fst snd]; (split; [|exact Hk]);
      match goal with
      | |- context [mark_handled ?p ?W] =>
          destruct (mark_handled_eq p W) as (ps & -> & _)
      end;
      apply (moved_then_same o w w); auto using moved_refl.
  - apply (exec_after o w _ _ _ (IH _)).
    apply (moved_then_same o w w); auto using moved_refl.
  - apply (exec_after o w _ _ _ (IH _)).
    apply (moved_then_same o w w); auto using moved_refl.
  - apply (exec_after o w _ _ _ (IH _)).
    apply moved_then_upd; [apply moved_refl; exact Hw|].
    intros r0 F. cbn [with_listener res_listeners].
    apply Forall_app. split; [exact F|]. repeat constructor. exact Hl.
  - destruct (responses w !! o);
      [apply IH; exact Hw|split; [apply moved_refl; exact Hw|exact I]].
  - apply (exec_after o w _ _ _ (IH _)).
    apply moved_then_upd; [apply moved_refl; exact Hw|]. auto.
  - destruct (responses w !! o) as [r0|];
      [|split; [apply moved_refl; exact Hw|exact I]].
    destruct (res_sent r0);
      [split; [apply moved_refl; exact Hw|exact I]|].
    apply (exec_after o w _ _ _ (IH _)).
    apply moved_then_upd; [apply moved_refl; exact Hw|]. auto.
Qed.


(** The functions of the source, one by one. *)

Lemma confined_opt_get (o : nat) (store : JsVal) (key : string) :
  confined o (opt_get store key).
Proof. destruct store; repeat constructor. Qed.

Lemma confined_map_set (o : nat) (m : JsVal) (key : string) (v : JsVal) :
  confined o (map_set m key v).
Proof. destruct m; repeat constructor. Qed.

Lemma confined_new_Map (o : nat) (src : JsVal) : confined o (new_Map src).
Proof. destruct src; repeat constructor. Qed.

Lemma confined_logger_child (o : nat) (lg : JsVal) (data : Obj) :
  confined o (logger_child lg data).
Proof. destruct lg; repeat constructor. Qed.

Lemma confined_log_at (o : nat) (lvl : Level) (lg : JsVal) (payload : Obj)
    (msg : string) :
  confined o (log_at lvl lg payload msg).
Proof. destruct lg; repeat constructor. Qed.

Lemma confined_withLogContext (o : nat) (data : Obj) (callback : Prog) :
  confined o callback -> confined o (withLogContext data callback).
Proof.
  intros Hc. unfold withLogContext, getStore.
  repeat first
    [ apply confined_bind | intro | apply confined_opt_get
    | apply confined_logger_child | apply confined_new_Map
    | apply confined_map_set | exact Hc | constructor ].
Qed.

Lemma confined_getLogger (o : nat) : confined o getLogger.
Proof.
  unfold getLogger, getStore.
  repeat first
    [ apply confined_bind | intro | apply confined_opt_get | constructor ].
Qed.

Lemma confined_fetchUser (o : nat) (id : Z) : confined o (fetchUser id).
Proof.
  unfold fetchUser. cbn [bind]. constructor. intros p. constructor.
  intros [| | | | | | |r|]; try (unfold type_error; constructor).
  destruct (negb (resp_ok r)); [constructor|].
  cbn [bind]. constructor. intros q. constructor. intros user.
  apply confined_bind; [apply confined_getLogger|]. intros lg.
  apply confined_bind; [apply confined_log_at|]. intros _. constructor.
Qed.

Lemma confined_fetch_user_work (res : nat) (userID : Z) :
  confined res (fetch_user_work res userID).
Proof.
  unfold fetch_user_work.
  apply confined_bind; [apply confined_getLogger|]. intros lg.
  apply confined_bind; [apply confined_log_at|]. intros _.
  cbn [bind]. constructor; [apply confined_fetchUser|]. intros p.
  repeat (constructor; intros).
Qed.

Lemma confined_fetch_user_handler (res : nat) :
  confined res (fetch_user_handler res).
Proof.
  unfold fetch_user_handler. constructor. intros digit.
  apply confined_bind; [|intros _; constructor].
  apply confined_withLogContext. constructor;
    [apply confined_fetch_user_work|intros v; constructor].
Qed.

Lemma confined_express_next (req : Request) (res : nat) :
  confined res (express_next req res).
Proof.
  unfold express_next. destruct (req_route req).
  - constructor; [apply confined_fetch_user_handler|intros v; constructor].
  - cbn [bind]. repeat (constructor; intros).
Qed.

Lemma confined_on_finish (res : nat) (start : Z) (lg : Logger) :
  confined res (on_finish res start lg).
Proof.
  unfold on_finish. constructor. intros statusCode. constructor. intros now.
  destruct (500 <=? statusCode); [|destruct (400 <=? statusCode)];
    apply confined_log_at.
Qed.

Lemma confined_middleware (req : Request) (res : nat) (next : Prog) :
  confined res next -> confined res (middleware req res next).
Proof.
  intros Hn. unfold middleware. constructor. intros start.
  assert (Hrest : forall requestId,
            confined res
              (log_at Info
                 (VLogger (child logger [("request.id", SStr requestId)]))
                 ([("http.request.method", SStr (req_method req));
                   ("url.path", SStr (req_url req))]
                  ++ opt_field "client.address" (req_ip req)
                  ++ opt_field "user_agent.original"
                       (req_headers req !! "user-agent"))
                 ("incoming " +:+ req_method req +:+ " request to "
                  +:+ req_url req) ;;;
               ResOn res "finish"
                 (on_finish res start
                    (child logger [("request.id", SStr requestId)])) Ret ;;;
               let! store := new_Map VUndefined in
               Run store
                 (let! s := getStore in
                  map_set s "logger"
                    (VLogger (child logger [("request.id", SStr requestId)])) ;;;
                  withLogContext [("request.id", SStr requestId)] next ;;;
                  Ret VUndefined)
                 (fun _ => Ret VUndefined))).
  { intros requestId.
    apply confined_bind; [apply confined_log_at|]. intros _.
    apply confined_bind;
      [constructor; [apply confined_on_finish|intros v; constructor]|].
    intros _. apply confined_bind; [apply confined_new_Map|]. intros store.
    constructor; [|intros v; constructor].
    unfold getStore. cbn [bind]. constructor. intros s.
    apply confined_bind; [apply confined_map_set|]. intros _.
    apply confined_bind; [apply confined_withLogContext; exact Hn|].
    intros _. constructor. }
  unfold or_else.
  destruct (req_headers req !! "x-request-id") as [s|];
    [destruct (String.eqb s "")|]; try apply Hrest;
    constructor; apply Hrest.
Qed.


(** The turns of the event loop. *)

Lemma emit_moved (res : nat) (ev : string) (ls : list (string * Prog))
    (ctx : JsVal) (w0 w : World) :
  Forall (fun l => confined res (snd l)) ls ->
  moved res w0 w ->
  moved res w0 (emit uuid_gen random_digit res ev ls ctx w).
Proof.
  intros F. revert w. induction F as [|[ev' l] ls Hl _ IH]; intros w Hm;
    cbn [emit]; [exact Hm|].
  apply IH. destruct (String.eqb ev' ev); [|exact Hm].
  apply (exec_after res w0 w l ctx (exec_confined res l Hl) Hm).
Qed.

Lemma finish_moved (res : nat) (ctx : JsVal) (w : World) :
  confined_world w -> moved res w (finish uuid_gen random_digit res ctx w).
Proof.
  intros Hw. pose proof (moved_refl res w Hw) as Hm. unfold finish.
  destruct (responses w !! res) as [r|] eqn:Hr; [|exact Hm].
  destruct (res_sent r), (res_finished r), (res_closed r); try exact Hm.
  apply emit_moved; [apply (proj1 Hw res r Hr)|].
  apply moved_then_upd; [exact Hm|]. auto.
Qed.

Lemma close_moved (res : nat) (ctx : JsVal) (w : World) :
  confined_world w -> moved res w (close uuid_gen random_digit res ctx w).
Proof.
  intros Hw. pose proof (moved_refl res w Hw) as Hm. unfold close.
  destruct (responses w !! res) as [r|] eqn:Hr; [|exact Hm].
  destruct (res_closed r); [exact Hm|].
  apply emit_moved; [apply (proj1 Hw res r Hr)|].
  apply moved_then_upd; [exact Hm|]. auto.
Qed.

Lemma conclude_moved (o : nat) (p : promise) (w0 : World)
    (r : Outcome * World) :
  moved o w0 (snd r) -> susp_ok o (fst r) -> moved o w0 (conclude o p r).
Proof.
  destruct r as [[v|e|q k c] w1]; cbn [fst snd]; intros Hm Hs; unfold conclude.
  - destruct (settle_eq p (Fulfilled v) w1) as (ps & -> & _).
    apply (moved_then_same o w0 w1); auto.
  - destruct (settle_eq p (Rejected e) w1) as (ps & -> & _).
    apply (moved_then_same o w0 w1); auto.
  - eapply (moved_then_add o w0 w1); [exact Hm|reflexivity|reflexivity
                                      |reflexivity|exact Hs].
Qed.

Lemma confined_tombstone (t : nat) (w : World) :
  confined_world w ->
  confined_world (set_reactions (<[t := None]> (reactions w)) w).
Proof.
  intros [W1 W2]. split; world_steps; [exact W1|].
  intros t' r H. apply list_lookup_insert_Some in H as [(_ & ? & _)|[_ H]];
    [discriminate|]. apply (W2 t' r H).
Qed.

(** A chain that runs on: nothing happens, or the tables move from
    the state in which its entry is struck out. *)
Lemma resume_moved (t : nat) (w : World) :
  confined_world w ->
  resume uuid_gen random_digit t w = w \/
  exists r, reactions w !! t = Some (Some r) /\
    moved (r_origin r) (set_reactions (<[t := None]> (reactions w)) w)
      (resume uuid_gen random_digit t w).
Proof.
  intros Hw. unfold resume.
  destruct (reactions w !! t) as [[r|]|] eqn:Ht; try (left; reflexivity).
  pose proof (confined_tombstone t w Hw) as Hw0.
  destruct (p_state <$> promises w !! r_awaits r) as [[|v|e]|];
    try (left; reflexivity); right; exists r; (split; [reflexivity|]).
  - destruct (exec_confined (r_origin r) (r_k r v) (proj2 Hw t r Ht v)
                (r_ctx r) _ Hw0) as [Hm Hs].
    apply conclude_moved; assumption.
  - apply conclude_moved; [apply moved_refl; exact Hw0|exact I].
Qed.

Lemma lookup_snoc_ne {A} (l : list A) (x : A) (i : nat) :
  i <> length l -> (l ++ [x]) !! i = l !! i.
Proof.
  intros Hne. destruct (decide (i < length l)%nat) as [Hlt|Hge].
  - apply lookup_app_l. exact Hlt.
  - rewrite (lookup_ge_None_2 l) by lia. apply lookup_ge_None_2.
    rewrite length_app. cbn [length]. lia.
Qed.

Lemma confined_new_response (w : World) :
  confined_world w ->
  confined_world (set_responses (responses w ++ [new_response]) w).
Proof.
  intros [W1 W2]. split; world_steps; [|exact W2].
  intros i r H. apply lookup_app_Some in H as [H|[_ H]]; [apply (W1 i r H)|].
  destruct (i - length (responses w))%nat; [|discriminate].
  injection H as <-. constructor.
Qed.

(** An arrival, seen from the state in which its response object has
    been created. *)
Lemma arrive_moved (req : Request) (w : World) :
  confined_world w ->
  moved (length (responses w))
    (set_responses (responses w ++ [new_response]) w)
    (arrive uuid_gen random_digit req w).
Proof.
  intros Hw. unfold arrive.
  set (res := length (responses w)).
  set (w1 := set_responses (responses w ++ [new_response]) w).
  pose proof (confined_new_response w Hw) as Hw1. fold w1 in Hw1.
  destruct (exec_confined res _
              (confined_middleware req res _ (confined_express_next req res))
              VUndefined w1 Hw1) as [Hm _].
  destruct (exec res (middleware req res (express_next req res)) VUndefined w1)
    as [[v|e|q k c] w2]; cbn [snd] in Hm; try exact Hm.
  destruct (responses w2 !! res) as [[? [?|] ? ? ?]|]; try exact Hm.
  apply moved_then_upd; [exact Hm|]. auto.
Qed.

Lemma step_confined (e : Event) (w : World) :
  confined_world w -> confined_world (step e w).
Proof.
  intros Hw. destruct e as [req|p io|t|res ctx|res ctx|d]; unfold_step.
  - apply (mv_world _ _ _ (arrive_moved req w Hw)).
  - unfold complete. destruct (promises w !! p) as [c|]; [|exact Hw].
    destruct (p_kind c), io; try exact Hw;
      match goal with
      | |- context [settle ?p ?st ?W] =>
          destruct (settle_eq p st W) as (ps & -> & _)
      end; exact Hw.
  - destruct (resume_moved t w Hw) as [->|(r & _ & Hm)];
      [exact Hw|apply (mv_world _ _ _ Hm)].
  - apply (mv_world _ _ _ (finish_moved res ctx w Hw)).
  - apply (mv_world _ _ _ (close_moved res ctx w Hw)).
  - exact Hw.
Qed.

Lemma run_confined (tr : list Event) : confined_world (run tr init).
Proof.
  induction tr as [|e tr IH] using rev_ind.
  - split; intros i r H; cbn in H; rewrite lookup_nil in H; discriminate.
  - rewrite run_snoc. apply step_confined. exact IH.
Qed.

(** A turn that does not concern request [i] leaves its response as
    it is. *)
Lemma step_other (e : Event) (w : World) (i : nat) :
  confined_world w -> concerns i w e = false ->
  responses (step e w) !! i = responses w !! i.
Proof.
  intros Hw Hc.
  destruct e as [req|p io|t|res ctx|res ctx|d]; unfold_step;
    cbn [concerns] in Hc.
  - apply Nat.eqb_neq in Hc.
    rewrite (mv_other _ _ _ (arrive_moved req w Hw)) by auto.
    world_steps. apply lookup_snoc_ne. auto.
  - unfold complete. destruct (promises w !! p) as [c|]; [|reflexivity].
    destruct (p_kind c), io; rewrite ?responses_settle; reflexivity.
  - destruct (resume_moved t w Hw) as [->|(r & Ht & Hm)]; [reflexivity|].
    rewrite Ht in Hc. apply Nat.eqb_neq in Hc.
    rewrite (mv_other _ _ _ Hm) by auto. reflexivity.
  - apply Nat.eqb_neq in Hc.
    apply (mv_other _ _ _ (finish_moved res ctx w Hw)). auto.
  - apply Nat.eqb_neq in Hc.
    apply (mv_other _ _ _ (close_moved res ctx w Hw)). auto.
  - reflexivity.
Qed.

(** No turn of the event loop that runs another request's code --
    another arrival, another request's chain running on, the end of
    another response or connection -- changes the response of request
    [i]: its status, its body, its flags and its listeners stay as
    they are. *)
Theorem response_isolation (tr : list Event) (e : Event) (i : nat) :
  concerns i (run tr init) e = false ->
  responses (step e (run tr init)) !! i = responses (run tr init) !! i.
Proof. apply step_other. apply run_confined. Qed.


(** ** The end of the process *)

Lemma live_run_cons (e : Event) (tr : list Event) (w : World) :
  live_run uuid_gen random_digit (e :: tr) w =
  live_run uuid_gen random_digit tr (live_step uuid_gen random_digit e w).
Proof. reflexivity. Qed.

Lemma live_run_app (a b : list Event) (w : World) :
  live_run uuid_gen random_digit (a ++ b) w =
  live_run uuid_gen random_digit b (live_run uuid_gen random_digit a w).
Proof. unfold live_run. apply fold_left_app. Qed.

(** A doomed process stays as it is. *)
Lemma live_run_doomed (tr : list Event) (w : World) :
  doomed w = true -> live_run uuid_gen random_digit tr w = w.
Proof.
  intros Hd. induction tr as [|e tr IH]; [reflexivity|].
  rewrite live_run_cons. unfold live_step. rewrite Hd. exact IH.
Qed.

(** Whatever the process goes through, the event loop can go through:
    what holds in every run holds for the process. *)
Lemma live_run_is_run (tr : list Event) (w : World) :
  exists tr', live_run uuid_gen random_digit tr w = run tr' w.
Proof.
  induction tr as [|e tr [tr' IH]] using rev_ind.
  - exists []. reflexivity.
  - rewrite live_run_app. cbn [live_run fold_left]. unfold live_step.
    fold (live_run uuid_gen random_digit tr w).
    destruct (doomed (live_run uuid_gen random_digit tr w)).
    + exists tr'. exact IH.
    + exists (tr' ++ [e]). rewrite run_snoc, IH. reflexivity.
Qed.

(** One more event for a process whose promises are those of [w],
    which is not doomed, and a few more. *)
Ltac alive Hd :=
  rewrite live_run_cons; unfold live_step, doomed; cbn [promises];
  rewrite existsb_app, Hd;
  cbn [existsb unhandled p_state p_handled negb orb].

(** A [/fetch-user] request whose [fetch] fails ends the process.
    When the two suspended functions have run on with the failure,
    the promise of the bound work is rejected and nothing handles it:
    the process is doomed.  The request has not been answered and has
    written nothing but its first two lines; and whatever events
    follow, none has any effect -- the request is never answered and
    gets no completion line, and no request that comes later is
    served. *)
Theorem fetch_user_failure_fatal (w : World) (req : Request) (io : IOResult)
    (err : JsVal) (tr' : list Event) :
  doomed w = false ->
  req_route req = RouteFetchUser ->
  fetch_failure io = Some err ->
  let pF := length (promises w) in
  let tB := length (reactions w) in
  let res := length (responses w) in
  let fail := [Arrive req; Complete pF io; Resume tB; Resume (S tB)] in
  let w3 := live_run uuid_gen random_digit fail w in
  doomed w3 = true
  /\ live_run uuid_gen random_digit (fail ++ tr') w = w3
  /\ promises w3 !! S (S pF) =
       Some {| p_state := Rejected err; p_kind := Internal;
               p_handled := false |}
  /\ (exists r, responses w3 !! res = Some r /\
                res_sent r = None /\ res_finished r = false)
  /\ log w3 = log (step (Arrive req) w).
Proof.
  intros Hd Hroute Hfail pF tB res fail w3. unfold doomed in Hd.
  destruct (arrive_fetch_user_full req w Hroute)
    as (rB & rA & m0 & m1 & m2 & Hp & Hr & HaB & HsB & HoB & HcB & [HB _]
        & HaA & HsA & HoA & HcA & HA & Hh & Hm & Hl & Hs & Hc).
  set (uid := random_digit (digits w) + 1) in *.
  set (id := assigned_id req (uuids w)) in *.
  fold pF res in Hp, Hr, HaB, HsB, HoB, HcB, HB, HaA, HsA, HoA, HcA,
    HA, Hh, Hm, Hl, Hs, Hc.
  assert (Hfinal : forall W,
            w3 = W -> doomed W = true ->
            doomed w3 = true /\
            live_run uuid_gen random_digit (fail ++ tr') w = w3).
  { intros W E HW. rewrite <- E in HW. split; [exact HW|].
    rewrite live_run_app. fold w3. apply live_run_doomed. exact HW. }
  unfold_step.
  destruct (arrive uuid_gen random_digit req w)
    as [h1 ps1 rs1 rsp1 lg1 u1 d1 c1] eqn:Ea.
  world_steps. subst h1 ps1 rs1 rsp1 lg1 c1.
  destruct io as [r|text|msg]; cbn [fetch_failure] in Hfail;
    [destruct (resp_ok r) eqn:Hok|..]; try discriminate;
    injection Hfail as <-;
    eassert (E : w3 = _).
  - unfold w3, fail. rewrite live_run_cons. unfold live_step, doomed.
    rewrite Hd. unfold_step. rewrite Ea.
    alive Hd. unfold_step. unfold complete. table_steps.
    unfold settle. table_steps.
    alive Hd. unfold_step. unfold resume. table_steps.
    rewrite HoB, HcB, HsB, HB by exact Hok.
    table_steps. unfold settle. table_steps.
    alive Hd. unfold_step. unfold resume. table_steps.
    rewrite HsA. unfold settle. table_steps.
    cbn [live_run fold_left]. reflexivity.
  - destruct (Hfinal _ E) as [H1 H2].
    { unfold doomed. cbn [promises]. rewrite existsb_app.
      cbn [existsb unhandled p_state p_handled negb orb].
      apply orb_true_r. }
    split; [exact H1|]. split; [exact H2|]. rewrite E. table_steps.
    split; [reflexivity|]. split; [|reflexivity].
    eexists. split; [reflexivity|]. split; reflexivity.
  - unfold w3, fail. rewrite live_run_cons. unfold live_step, doomed.
    rewrite Hd. unfold_step. rewrite Ea.
    alive Hd. unfold_step. unfold complete. table_steps.
    unfold settle. table_steps.
    alive Hd. unfold_step. unfold resume. table_steps.
    rewrite HsB. unfold settle. table_steps.
    alive Hd. unfold_step. unfold resume. table_steps.
    rewrite HsA. unfold settle. table_steps.
    cbn [live_run fold_left]. reflexivity.
  - destruct (Hfinal _ E) as [H1 H2].
    { unfold doomed. cbn [promises]. rewrite existsb_app.
      cbn [existsb unhandled p_state p_handled negb orb].
      apply orb_true_r. }
    split; [exact H1|]. split; [exact H2|]. rewrite E. table_steps.
    split; [reflexivity|]. split; [|reflexivity].
    eexists. split; [reflexivity|]. split; reflexivity.
Qed.

End Laws.

(** * The server-sent events server: properties *)

(** ** One event at a time *)

Lemma sse_request_eq (header : option string) (srv : SseServer) :
  sse_step (SseRequest header) srv =
    {| sse_streams :=
         sse_streams srv ++ [answered header (length (sse_timers srv))];
       sse_timers := sse_timers srv ++ [Some (length (sse_streams srv))] |}.
Proof.
  unfold sse_step, sse_handler, setHeader, writeHead, flushHeaders,
    setInterval, on_close, upd_stream.
  cbn [sse_streams sse_timers]. rewrite lookup_snoc, insert_snoc.
  cbn [sse_streams sse_timers]. rewrite lookup_snoc, insert_snoc.
  cbn [sse_streams sse_timers]. rewrite lookup_snoc, insert_snoc.
  cbn [sse_streams sse_timers]. rewrite lookup_snoc, insert_snoc.
  reflexivity.
Qed.

Lemma sse_tick_eq (id : nat) (now : string) (srv : SseServer) :
  sse_inv srv ->
  sse_step (SseTick id now) srv =
    match sse_streams srv !! id with
    | Some s =>
        if st_ended s then srv
        else {| sse_streams :=
                  <[id := st_write (sse_frame now) s]> (sse_streams srv);
                sse_timers := sse_timers srv |}
    | None => srv
    end.
Proof.
  intros [Hlen Hinv]. unfold sse_step, sse_tick.
  destruct (sse_streams srv !! id) as [s|] eqn:Hs.
  - destruct (Hinv id s Hs) as (_ & _ & ->).
    destruct (st_ended s); [reflexivity|].
    unfold res_write, upd_stream. rewrite Hs. reflexivity.
  - apply lookup_ge_None in Hs. rewrite <- Hlen in Hs.
    apply lookup_ge_None in Hs. rewrite Hs. reflexivity.
Qed.

Lemma sse_close_eq (c : nat) (srv : SseServer) :
  sse_inv srv ->
  sse_step (SseClose c) srv =
    match sse_streams srv !! c with
    | Some s =>
        {| sse_streams := <[c := st_end s]> (sse_streams srv);
           sse_timers := <[c := None]> (sse_timers srv) |}
    | None => srv
    end.
Proof.
  intros [Hlen Hinv]. unfold sse_step, sse_close.
  destruct (sse_streams srv !! c) as [s|] eqn:Hs; [|reflexivity].
  destruct (Hinv c s Hs) as (-> & _ & _). cbn [fold_left].
  unfold res_end, clearInterval, upd_stream. cbn [sse_streams sse_timers].
  rewrite Hs. reflexivity.
Qed.

Lemma sse_step_inv (e : SseEvent) (srv : SseServer) :
  sse_inv srv -> sse_inv (sse_step e srv).
Proof.
  intros I. pose proof I as [Hlen Hinv]. destruct e as [header|id now|c].
  - rewrite sse_request_eq. split; cbn [sse_streams sse_timers].
    + rewrite !length_app. cbn [length]. lia.
    + intros c s Hs. apply lookup_app_Some in Hs as [Hs|[Hge Hs]].
      * destruct (Hinv c s Hs) as (H1 & H2 & H3). split_and!; try assumption.
        apply lookup_app_l_Some. exact H3.
      * destruct (c - length (sse_streams srv))%nat eqn:E; [|discriminate].
        injection Hs as <-. assert (c = length (sse_streams srv)) as -> by lia.
        cbn [answered st_listen st_flushHeaders st_writeHead st_setHeader
             new_stream st_on_close st_late_writes st_ended app].
        rewrite Hlen. split_and!; try reflexivity.
        rewrite <- Hlen at 1. apply lookup_snoc.
  - rewrite sse_tick_eq by exact I.
    destruct (sse_streams srv !! id) as [s|] eqn:Hs; [|exact I].
    destruct (st_ended s) eqn:He; [exact I|].
    split; cbn [sse_streams sse_timers].
    + rewrite length_insert. exact Hlen.
    + intros c s' Hs'. destruct (decide (c = id)) as [->|Hne].
      * rewrite list_lookup_insert_eq in Hs' by (eapply lookup_lt_Some; exact Hs).
        injection Hs' as <-. destruct (Hinv id s Hs) as (H1 & H2 & H3).
        unfold st_write. rewrite He.
        cbn [st_on_close st_late_writes st_ended].
        rewrite He in H3. auto.
      * rewrite list_lookup_insert_ne in Hs' by auto. apply (Hinv c s' Hs').
  - rewrite sse_close_eq by exact I.
    destruct (sse_streams srv !! c) as [s|] eqn:Hs; [|exact I].
    split; cbn [sse_streams sse_timers].
    + rewrite !length_insert. exact Hlen.
    + intros c' s' Hs'. destruct (decide (c' = c)) as [->|Hne].
      * rewrite list_lookup_insert_eq in Hs' by (eapply lookup_lt_Some; exact Hs).
        injection Hs' as <-. destruct (Hinv c s Hs) as (H1 & H2 & H3).
        cbn [st_end st_on_close st_late_writes st_ended].
        split_and!; try assumption.
        apply list_lookup_insert_eq. rewrite Hlen.
        eapply lookup_lt_Some. exact Hs.
      * rewrite list_lookup_insert_ne in Hs' by auto.
        destruct (Hinv c' s' Hs') as (H1 & H2 & H3). split_and!; try assumption.
        rewrite list_lookup_insert_ne by auto. exact H3.
Qed.

Lemma sse_run_snoc (tr : list SseEvent) (e : SseEvent) (srv : SseServer) :
  sse_run (tr ++ [e]) srv = sse_step e (sse_run tr srv).
Proof. unfold sse_run. apply fold_left_app. Qed.

Lemma sse_run_app (a b : list SseEvent) (srv : SseServer) :
  sse_run (a ++ b) srv = sse_run b (sse_run a srv).
Proof. unfold sse_run. apply fold_left_app. Qed.

Lemma sse_run_inv_from (tr : list SseEvent) (srv : SseServer) :
  sse_inv srv -> sse_inv (sse_run tr srv).
Proof.
  intros I. induction tr as [|e tr IH] using rev_ind; [exact I|].
  rewrite sse_run_snoc. apply sse_step_inv. exact IH.
Qed.

Lemma sse_init_inv : sse_inv sse_init.
Proof.
  split; [reflexivity|]. intros c s H. cbn in H. rewrite lookup_nil in H.
  discriminate.
Qed.

Lemma sse_run_inv (tr : list SseEvent) : sse_inv (sse_run tr sse_init).
Proof. apply sse_run_inv_from, sse_init_inv. Qed.

(** ** Runs of the server *)

(** The timer of a response is cleared before the response is ended,
    and a cleared timer never fires: in no run does [res.write] come
    after [res.end], for any client. *)
Theorem sse_no_write_after_end (tr : list SseEvent) :
  Forall (fun s => st_late_writes s = 0%nat)
    (sse_streams (sse_run tr sse_init)).
Proof.
  apply Forall_lookup. intros c s Hs.
  destruct (sse_run_inv tr) as [_ H]. apply (H c s Hs).
Qed.

Lemma sse_requests_app (a b : list SseEvent) :
  sse_requests (a ++ b) = sse_requests a ++ sse_requests b.
Proof. unfold sse_requests. apply flat_map_app. Qed.

(** Every response keeps the head the handler gave it. *)
Lemma sse_heads (tr : list SseEvent) :
  length (sse_streams (sse_run tr sse_init)) = length (sse_requests tr) /\
  forall c header, sse_requests tr !! c = Some header ->
    exists s id, sse_streams (sse_run tr sse_init) !! c = Some s /\
      st_status s = st_status (answered header id) /\
      st_headers s = st_headers (answered header id) /\
      st_flushed s = true.
Proof.
  induction tr as [|e tr [IHlen IH]] using rev_ind.
  - split; [reflexivity|]. intros c header H. cbn in H.
    rewrite lookup_nil in H. discriminate.
  - rewrite sse_run_snoc, sse_requests_app.
    pose proof (sse_run_inv tr) as I. set (srv := sse_run tr sse_init) in *.
    destruct e as [header|id now|c0].
    + rewrite sse_request_eq. cbn [sse_streams sse_requests flat_map app].
      split; [rewrite !length_app, IHlen; reflexivity|].
      intros c h Hc. apply lookup_app_Some in Hc as [Hc|[Hge Hc]].
      * destruct (IH c h Hc) as (s & id & Hs & H). exists s, id.
        split; [apply lookup_app_l_Some; exact Hs|exact H].
      * destruct (c - length (sse_requests tr))%nat eqn:E; [|discriminate].
        injection Hc as <-. eexists. eexists. split.
        -- assert (c = length (sse_streams srv)) as -> by lia.
           apply lookup_snoc.
        -- split_and!; reflexivity.
    + rewrite sse_tick_eq by exact I.
      cbn [sse_requests flat_map app]. rewrite app_nil_r.
      destruct (sse_streams srv !! id) as [s0|] eqn:Hs0;
        [destruct (st_ended s0) eqn:He|]; try (split; assumption).
      cbn [sse_streams]. split; [rewrite length_insert; exact IHlen|].
      intros c h Hc. destruct (IH c h Hc) as (s & id' & Hs & H1 & H2 & H3).
      destruct (decide (c = id)) as [->|Hne].
      * rewrite Hs0 in Hs. injection Hs as <-.
        exists (st_write (sse_frame now) s0), id'.
        split; [apply list_lookup_insert_eq; eapply lookup_lt_Some; exact Hs0|].
        unfold st_write. rewrite He. auto.
      * exists s, id'. split; [|auto].
        rewrite list_lookup_insert_ne by auto. exact Hs.
    + rewrite sse_close_eq by exact I.
      cbn [sse_requests flat_map app]. rewrite app_nil_r.
      destruct (sse_streams srv !! c0) as [s0|] eqn:Hs0;
        try (split; assumption).
      cbn [sse_streams]. split; [rewrite length_insert; exact IHlen|].
      intros c h Hc. destruct (IH c h Hc) as (s & id' & Hs & H1 & H2 & H3).
      destruct (decide (c = c0)) as [->|Hne].
      * rewrite Hs0 in Hs. injection Hs as <-. exists (st_end s0), id'.
        split; [apply list_lookup_insert_eq; eapply lookup_lt_Some; exact Hs0|].
        auto.
      * exists s, id'. split; [|auto].
        rewrite list_lookup_insert_ne by auto. exact Hs.
Qed.

(** The head of the answer to the [c]-th request, at any later time:
    status 200, already flushed, an event stream that proxies must not
    buffer -- the header set with [setHeader] is still there after
    [writeHead] -- and the [Origin] of the request echoed as the
    allowed origin, or ["*"] when the request had none or an empty
    one. *)
Theorem sse_head (tr : list SseEvent) (c : nat) (header : option string) :
  sse_requests tr !! c = Some header ->
  exists s, sse_streams (sse_run tr sse_init) !! c = Some s
    /\ st_status s = Some 200
    /\ st_flushed s = true
    /\ st_headers s !! "Content-Type" = Some "text/event-stream"
    /\ st_headers s !! "X-Accel-Buffering" = Some "no"
    /\ st_headers s !! "Access-Control-Allow-Credentials" = Some "true"
    /\ st_headers s !! "Access-Control-Allow-Origin" =
         Some (match header with
               | Some o => if String.eqb o "" then "*" else o
               | None => "*"
               end).
Proof.
  intros Hc. destruct (sse_heads tr) as [_ H].
  destruct (H c header Hc) as (s & id & Hs & H1 & H2 & H3).
  exists s. split; [exact Hs|]. rewrite H1, H2.
  split_and!; try reflexivity; try exact H3.
Qed.

Lemma sse_run_cons (e : SseEvent) (tr : list SseEvent) (srv : SseServer) :
  sse_run (e :: tr) srv = sse_run tr (sse_step e srv).
Proof. reflexivity. Qed.

(** What client [c] has been sent after [tr], from any state of the
    server: what it had been sent before, then what it is due. *)
Lemma sse_due_run (tr : list SseEvent) (c : nat) :
  forall srv s', sse_inv srv ->
    sse_streams (sse_run tr srv) !! c = Some s' ->
    let before := default [] (st_chunks <$> sse_streams srv !! c) in
    let live := default false (negb ∘ st_ended <$> sse_streams srv !! c) in
    st_chunks s' =
      before ++ map sse_frame (sse_due c (length (sse_streams srv)) live tr).
Proof.
  induction tr as [|e tr IH]; intros srv s' I Hs'.
  - cbn in Hs'. rewrite Hs'. cbn. symmetry. apply app_nil_r.
  - rewrite sse_run_cons in Hs'.
    specialize (IH _ s' (sse_step_inv e srv I) Hs'). cbn zeta in IH.
    rewrite IH. clear IH Hs'. cbn zeta.
    destruct e as [header|id now|c0]; cbn [sse_due].
    + rewrite sse_request_eq. cbn [sse_streams].
      rewrite length_app. cbn [length]. rewrite Nat.add_1_r.
      destruct (decide (c = length (sse_streams srv))) as [->|Hne].
      * rewrite lookup_snoc, Nat.eqb_refl, orb_true_r.
        rewrite (lookup_ge_None_2 (sse_streams srv)) by lia. reflexivity.
      * rewrite lookup_snoc_ne by exact Hne.
        replace (Nat.eqb (length (sse_streams srv)) c) with false
          by (symmetry; apply Nat.eqb_neq; auto).
        rewrite orb_false_r. reflexivity.
    + rewrite sse_tick_eq by exact I.
      destruct (decide (id = c)) as [->|Hne].
      * rewrite Nat.eqb_refl, andb_true_r.
        destruct (sse_streams srv !! c) as [s|] eqn:Hs; cbn;
          [destruct (st_ended s) eqn:He; cbn|].
        -- rewrite Hs. cbn. rewrite He. reflexivity.
        -- rewrite list_lookup_insert_eq by (eapply lookup_lt_Some; exact Hs).
           rewrite length_insert. unfold st_write. rewrite He. cbn.
           rewrite <- app_assoc. reflexivity.
        -- rewrite Hs. reflexivity.
      * replace (Nat.eqb id c) with false
          by (symmetry; apply Nat.eqb_neq; auto).
        rewrite andb_false_r.
        destruct (sse_streams srv !! id) as [s|] eqn:Hs;
          [destruct (st_ended s) eqn:He|]; try reflexivity.
        cbn [sse_streams]. rewrite length_insert.
        rewrite list_lookup_insert_ne by auto. reflexivity.
    + rewrite sse_close_eq by exact I.
      destruct (decide (c0 = c)) as [->|Hne].
      * rewrite Nat.eqb_refl. cbn [negb]. rewrite andb_false_r.
        destruct (sse_streams srv !! c) as [s|] eqn:Hs; cbn.
        -- rewrite list_lookup_insert_eq by (eapply lookup_lt_Some; exact Hs).
           rewrite length_insert. reflexivity.
        -- rewrite Hs. reflexivity.
      * replace (Nat.eqb c0 c) with false
          by (symmetry; apply Nat.eqb_neq; auto).
        cbn [negb]. rewrite andb_true_r.
        destruct (sse_streams srv !! c0) as [s|] eqn:Hs; [|reflexivity].
        cbn [sse_streams]. rewrite length_insert.
        rewrite list_lookup_insert_ne by auto. reflexivity.
Qed.

(** What a client has received is exactly what it is due: one frame
    [data: <time>] followed by an empty line for every tick of its
    timer between its request and the end of its connection, in order;
    nothing before, nothing after, and nothing meant for anyone
    else. *)
Theorem sse_body (tr : list SseEvent) (c : nat) (s : SseStream) :
  sse_streams (sse_run tr sse_init) !! c = Some s ->
  st_chunks s = map sse_frame (sse_due c 0 false tr).
Proof.
  intros Hs. apply (sse_due_run tr c sse_init s sse_init_inv Hs).
Qed.

Lemma sse_step_ended (e : SseEvent) (srv : SseServer) (c : nat)
    (s : SseStream) :
  sse_inv srv ->
  sse_streams srv !! c = Some s -> st_ended s = true ->
  sse_streams (sse_step e srv) !! c = Some s.
Proof.
  intros I Hs He. destruct e as [header|id now|c0].
  - rewrite sse_request_eq. apply lookup_app_l_Some. exact Hs.
  - rewrite sse_tick_eq by exact I.
    destruct (sse_streams srv !! id) as [s0|] eqn:Hs0;
      [destruct (st_ended s0) eqn:He0|]; try exact Hs.
    cbn [sse_streams]. rewrite list_lookup_insert_ne; [exact Hs|].
    intros ->. congruence.
  - rewrite sse_close_eq by exact I.
    destruct (sse_streams srv !! c0) as [s0|] eqn:Hs0; [|exact Hs].
    cbn [sse_streams]. destruct (decide (c0 = c)) as [->|Hne].
    + rewrite Hs in Hs0. injection Hs0 as <-.
      rewrite list_lookup_insert_eq by (eapply lookup_lt_Some; exact Hs).
      f_equal. destruct s. cbn in He. subst. reflexivity.
    + rewrite list_lookup_insert_ne by auto. exact Hs.
Qed.

(** Once the connection of a client has gone, its response is final:
    whatever happens afterwards -- ticks of any timer, its ["close"]
    coming again, other clients -- not a chunk is added to it. *)
Theorem sse_closed_is_final (tr tr' : list SseEvent) (c : nat)
    (s : SseStream) :
  sse_streams (sse_run tr sse_init) !! c = Some s ->
  st_ended s = true ->
  sse_streams (sse_run (tr ++ tr') sse_init) !! c = Some s.
Proof.
  intros Hs He. induction tr' as [|e tr' IH] using rev_ind.
  - rewrite app_nil_r. exact Hs.
  - rewrite app_assoc, sse_run_snoc.
    apply sse_step_ended; [apply sse_run_inv|exact IH|exact He].
Qed.

(** The end of one client's connection stops that client's timer and
    no other: every other response, and every other timer, is as it
    was. *)
Theorem sse_close_spares_others (tr : list SseEvent) (c c' : nat) :
  c' <> c ->
  let srv := sse_run tr sse_init in
  sse_streams (sse_step (SseClose c) srv) !! c' = sse_streams srv !! c'
  /\ sse_timers (sse_step (SseClose c) srv) !! c' = sse_timers srv !! c'.
Proof.
  intros Hne srv. rewrite sse_close_eq by apply sse_run_inv.
  destruct (sse_streams srv !! c) as [s|]; [|split; reflexivity].
  cbn [sse_streams sse_timers].
  rewrite !list_lookup_insert_ne by auto. split; reflexivity.
Qed.

(** No timer is left running for a client that has gone, and none is
    stopped for a client that is still there: the timer that request
    [c] set is running exactly as long as its response has not been
    ended. *)
Theorem sse_timer_runs_while_open (tr : list SseEvent) (c : nat)
    (s : SseStream) :
  sse_streams (sse_run tr sse_init) !! c = Some s ->
  sse_timers (sse_run tr sse_init) !! c =
    Some (if st_ended s then None else Some c).
Proof.
  intros Hs. destruct (sse_run_inv tr) as [_ H]. apply (H c s Hs).
Qed.

(** * The properties on sample inputs *)

Lemma sample_uuid_distinct (i j : nat) : sample_uuid i = sample_uuid j -> i = j.
Proof.
  unfold sample_uuid. intros H. apply (inj _) in H. apply (inj _) in H. exact H.
Qed.

Lemma sample_uuid_nonempty (i : nat) : sample_uuid i <> "".
Proof. unfold sample_uuid. discriminate. Qed.

(** With no store at all, [getLogger()] is the base logger. *)
Lemma getLogger_fallback_witness :
  exec sample_uuid sample_digit 0 getLogger VUndefined init =
  (ORet (VLogger logger), init).
Proof.
  apply (getLogger_fallback sample_uuid sample_digit 0 VUndefined init).
  left. reflexivity.
Defined.

(** A 404 is logged at level warn. *)
Lemma completion_severity_witness :
  exists msg,
    exec sample_uuid sample_digit 0 (on_finish 0 0 logger) VUndefined
      (set_responses [with_status 404 new_response] init) =
    (ORet VUndefined,
     set_log
       [(0%nat, mk_record Warn logger
                  [("duration_ms", SNum 0); ("status_code", SNum 404)] msg)]
       (set_responses [with_status 404 new_response] init)).
Proof.
  destruct (completion_severity sample_uuid sample_digit 0 0 0 logger
              VUndefined (set_responses [with_status 404 new_response] init)
              (with_status 404 new_response) eq_refl)
    as (lvl & msg & E & _ & _ & _ & _ & _ & _ & H404 & _).
  exists msg. rewrite (H404 eq_refl) in E. exact E.
Defined.

(** The unit of work's result comes back unchanged. *)
Lemma withLogContext_transparent_witness :
  exec sample_uuid sample_digit 0
    (withLogContext [("user.id", SNum 7)] (Ret (VNum 42))) VUndefined init =
  (ORet (VNum 42), bound_world init VUndefined logger [("user.id", SNum 7)]).
Proof.
  apply (withLogContext_transparent sample_uuid sample_digit 0
           [("user.id", SNum 7)] (Ret (VNum 42)) VUndefined init logger
           (frame_absent init)).
  reflexivity.
Defined.

(** The parent's store is still what it was. *)
Lemma withLogContext_preserves_parent_witness :
  heap (bound_world one_store (VMap 0) [[("request.id", SStr "r-1")]]
          [("user.id", SNum 7)]) !! 0%nat =
  Some {[ "logger" := VLogger [[("request.id", SStr "r-1")]] ]}.
Proof.
  assert (H1 : heap one_store !! 0%nat =
               Some {[ "logger" := VLogger [[("request.id", SStr "r-1")]] ]})
    by reflexivity.
  assert (H2 : ({[ "logger" := VLogger [[("request.id", SStr "r-1")]] ]}
                  : gmap string JsVal) !! "logger" =
               Some (VLogger [[("request.id", SStr "r-1")]]))
    by (vm_compute; reflexivity).
  pose proof (withLogContext_preserves_parent sample_uuid sample_digit 0
                [("user.id", SNum 7)] (Ret VUndefined) 0 _ _ one_store H1 H2)
    as (_ & _ & _ & H & _).
  exact H.
Defined.

(** On a key bound twice the inner binding is the one read. *)
Lemma withLogContext_nested_witness :
  field "a"
    (rec_fields
       (mk_record Info
          (child (child logger [("a", SNum 1); ("b", SNum 2)])
             [("a", SNum 3); ("c", SNum 4)]) [] "work")) = Some (SNum 3)
  /\ field "b"
       (rec_fields
          (mk_record Info
             (child (child logger [("a", SNum 1); ("b", SNum 2)])
                [("a", SNum 3); ("c", SNum 4)]) [] "work")) = Some (SNum 2).
Proof.
  pose proof (withLogContext_nested sample_uuid sample_digit 0
                [("a", SNum 1); ("b", SNum 2)] [("a", SNum 3); ("c", SNum 4)]
                (Ret VUndefined) VUndefined init logger (frame_absent init))
    as (_ & _ & _ & _ & H).
  split; [exact (H Info [] "work" "a")|exact (H Info [] "work" "b")].
Defined.

(** A [/fetch-user] request that was served and whose response has
    finished has one completion line. *)
Lemma completion_once_witness :
  completions 0 (log (run sample_uuid sample_digit served init)) = 1%nat.
Proof.
  assert (H : exists r,
             responses (run sample_uuid sample_digit served init) !! 0%nat
               = Some r /\ res_finished r = true).
  { eexists. split; vm_compute; reflexivity. }
  destruct H as (r & Hr & Hf).
  destruct (completion_once sample_uuid sample_digit served 0 r Hr) as [E _].
  rewrite Hf in E. exact E.
Defined.

(** C2 as stated fails: the client of request 0 goes away early, the
    handler still runs to its end and answers, every chain is over,
    and the request has no completion line. *)
Lemma completion_missing_after_close :
  (res_sent <$> responses (run sample_uuid sample_digit early_close init) !! 0%nat)
    = Some (Some (VJson "{}"))
  /\ reactions (run sample_uuid sample_digit early_close init)
     = [None; None; None]
  /\ completions 0 (log (run sample_uuid sample_digit early_close init))
     <> 1%nat.
Proof. vm_compute. split_and!; try reflexivity. discriminate. Qed.

(** The completion line of the 404 has its three fields. *)
Lemma completion_fields_witness :
  exists start lvl msg,
    log (step sample_uuid sample_digit (Finish 0 VUndefined)
           (run sample_uuid sample_digit [Arrive stray_request] init)) =
    log (run sample_uuid sample_digit [Arrive stray_request] init) ++
    [(0%nat,
      {| rec_level := lvl;
         rec_fields :=
           [("request.id", SStr "uuid-0");
            ("duration_ms", SNum (0 - start));
            ("status_code", SNum 404)];
         rec_msg := msg |})].
Proof.
  edestruct (completion_fields sample_uuid sample_digit
               [Arrive stray_request] 0) as [(id & start & lvl & msg & Hid & E) _].
  - vm_compute. reflexivity.
  - discriminate.
  - reflexivity.
  - reflexivity.
  - vm_compute in Hid. injection Hid as <-.
    exists start, lvl, msg. exact E.
Defined.

(** The second request has no header: its entry line carries the
    generator's first identifier. *)
Lemma request_id_rule_witness :
  entry_of
    (log (run sample_uuid sample_digit
            [Arrive fetch_request; Arrive stray_request] init)) 1 =
  Some (entry_record stray_request "uuid-0").
Proof.
  destruct (request_id_rule sample_uuid sample_digit
              sample_uuid_distinct sample_uuid_nonempty
              [Arrive fetch_request; Arrive stray_request] 1 stray_request
              eq_refl) as (id & Hid & He & _).
  vm_compute in Hid. injection Hid as <-. exact He.
Defined.

(** The network is down: the promise of the bound work ends rejected
    and unhandled. *)
Lemma fetch_user_failure_unhandled_witness :
  promises
    (run sample_uuid sample_digit
       [Complete 0 (IOFailure "network down"); Resume 0; Resume 1]
       (step sample_uuid sample_digit (Arrive fetch_request) init)) !! 2%nat =
  Some {| p_state := Rejected (VError "network down"); p_kind := Internal;
          p_handled := false |}.
Proof.
  apply (fetch_user_failure_unhandled sample_uuid sample_digit init
           fetch_request (IOFailure "network down") (VError "network down")
           eq_refl eq_refl).
Defined.

(** ** Further properties, on sample inputs *)


(** The body of the answer is not JSON. *)
Lemma fetch_user_body_failure_witness :
  promises
    (run sample_uuid sample_digit
       [Complete 0 (IOResponse ok_response); Resume 0;
        Complete 4 (IOFailure "Unexpected token"); Resume 2; Resume 1]
       (step sample_uuid sample_digit (Arrive fetch_request) init)) !! 2%nat =
  Some {| p_state := Rejected (VError "Unexpected token");
          p_kind := Internal; p_handled := false |}.
Proof.
  exact (proj1 (proj2 (fetch_user_body_failure sample_uuid sample_digit init
                         fetch_request ok_response "Unexpected token"
                         eq_refl eq_refl))).
Defined.

(** With the digit 6, user 7 is asked for and logged. *)
Lemma fetch_user_id_range_witness :
  exists uid line,
    1 <= uid <= 10
    /\ promises (step sample_uuid sample_digit (Arrive fetch_request) init)
         !! 0%nat =
       Some {| p_state := Pending;
               p_kind := FetchIO ("https://jsonplaceholder.typicode.com/users/"
                                  +:+ pretty uid);
               p_handled := true |}
    /\ log (step sample_uuid sample_digit (Arrive fetch_request) init)
         !! 1%nat = Some (0%nat, line)
    /\ rec_msg line = "fetching user data"
    /\ field "user.id" (rec_fields line) = Some (SNum uid).
Proof.
  apply (fetch_user_id_range sample_uuid sample_digit init fetch_request).
  - intros n. unfold sample_digit. lia.
  - reflexivity.
Defined.

(** A store whose ["logger"] entry is a string. *)
Lemma withLogContext_not_a_logger_witness :
  let w := set_heap [{[ "logger" := VStr "console" ]}] init in
  exec sample_uuid sample_digit 0
    (withLogContext [("user.id", SNum 7)] (Ret VUndefined)) (VMap 0) w =
  (OThrow (VError "TypeError: parentLogger.child is not a function"), w).
Proof.
  apply (withLogContext_not_a_logger sample_uuid sample_digit 0 _ _ 0%nat
           {[ "logger" := VStr "console" ]} (VStr "console")).
  - reflexivity.
  - reflexivity.
  - reflexivity.
  - intros lg. discriminate.
Defined.

(** The completion line of the 404 reports 7 ms. *)
Lemma duration_nonneg_witness : exists d, SNum 7 = SNum d /\ 0 <= d.
Proof.
  apply (duration_nonneg sample_uuid sample_digit
           [Arrive stray_request; Elapse 7; Finish 0 VUndefined] 0%nat
           {| rec_level := Warn;
              rec_fields := [("request.id", SStr (sample_uuid 0));
                             ("duration_ms", SNum 7);
                             ("status_code", SNum 404)];
              rec_msg := "client error" |}).
  - vm_compute. right. left. reflexivity.
  - reflexivity.
Defined.

(** 3 ms and 4 ms pass between the arrival of the request and the end
    of its response, while another request arrives. *)
Lemma completion_duration_witness :
  exists line,
    log (run sample_uuid sample_digit
           [Arrive stray_request; Elapse 3; Arrive fetch_request; Elapse 4;
            Finish 0 VUndefined] init) !! 3%nat = Some (0%nat, line)
    /\ field "duration_ms" (rec_fields line) = Some (SNum 7).
Proof.
  assert (H : exists r,
             responses (run sample_uuid sample_digit
                          ([] ++ Arrive stray_request
                                 :: [Elapse 3; Arrive fetch_request; Elapse 4])
                          init) !! 0%nat = Some r
             /\ res_sent r = Some (VStr "Not Found")
             /\ res_finished r = false /\ res_closed r = false).
  { eexists. split_and!; vm_compute; reflexivity. }
  destruct H as (r & Hr & Hs & Hf & Hc).
  destruct (completion_duration sample_uuid sample_digit []
              [Elapse 3; Arrive fetch_request; Elapse 4] stray_request
              VUndefined r (VStr "Not Found") Hr Hs Hf Hc)
    as (line & Hl & Hd & _).
  exists line. split; [|exact Hd].
  exact (f_equal (fun l => l !! 3%nat) Hl).
Defined.

(** The chain of request 0 runs on: the response of request 1 is as it
    was. *)
Lemma response_isolation_witness :
  let tr := [Arrive fetch_request; Arrive fetch_request;
             Complete 0 (IOResponse ok_response)] in
  responses (step sample_uuid sample_digit (Resume 0)
               (run sample_uuid sample_digit tr init)) !! 1%nat =
  responses (run sample_uuid sample_digit tr init) !! 1%nat.
Proof.
  intros tr.
  apply (response_isolation sample_uuid sample_digit tr (Resume 0) 1).
  vm_compute. reflexivity.
Defined.

(** The remote service answers 503: the process is over, and the
    request that comes afterwards is not served. *)
Lemma fetch_user_failure_fatal_witness :
  let fail := [Arrive fetch_request; Complete 0 (IOResponse unavailable);
               Resume 0; Resume 1] in
  doomed (live_run sample_uuid sample_digit fail init) = true
  /\ live_run sample_uuid sample_digit
       (fail ++ [Finish 0 VUndefined; Arrive stray_request]) init =
     live_run sample_uuid sample_digit fail init.
Proof.
  intros fail.
  pose proof (fetch_user_failure_fatal sample_uuid sample_digit init
                fetch_request (IOResponse unavailable)
                (VError "Failed to fetch user: 503 Service Unavailable")
                [Finish 0 VUndefined; Arrive stray_request]
                eq_refl eq_refl eq_refl) as H.
  split; [exact (proj1 H)|exact (proj1 (proj2 H))].
Defined.

Lemma sse_head_witness :
  exists s, sse_streams (sse_run two_clients sse_init) !! 0%nat = Some s /\
    st_headers s !! "Access-Control-Allow-Origin" = Some "https://a.example".
Proof.
  destruct (sse_head two_clients 0 (Some "https://a.example") eq_refl)
    as (s & Hs & _ & _ & _ & _ & _ & Ho).
  exists s. split; [exact Hs|exact Ho].
Defined.

Lemma sse_body_witness :
  exists s, sse_streams (sse_run two_clients sse_init) !! 0%nat = Some s /\
    st_chunks s = [sse_frame "10:00:00"; sse_frame "10:00:01"].
Proof.
  assert (H : exists s,
             sse_streams (sse_run two_clients sse_init) !! 0%nat = Some s).
  { eexists. vm_compute. reflexivity. }
  destruct H as (s & Hs). exists s. split; [exact Hs|].
  exact (sse_body two_clients 0 s Hs).
Defined.

Lemma sse_closed_is_final_witness :
  st_chunks <$>
    sse_streams
      (sse_run (two_clients ++ [SseTick 0 "10:00:03"; SseClose 0;
                                SseRequest None; SseTick 2 "10:00:04"])
         sse_init) !! 0%nat =
  Some [sse_frame "10:00:00"; sse_frame "10:00:01"].
Proof.
  assert (H : exists s,
             sse_streams (sse_run two_clients sse_init) !! 0%nat = Some s
             /\ st_ended s = true
             /\ st_chunks s = [sse_frame "10:00:00"; sse_frame "10:00:01"]).
  { eexists. split_and!; vm_compute; reflexivity. }
  destruct H as (s & Hs & He & Hc).
  rewrite (sse_closed_is_final two_clients
             [SseTick 0 "10:00:03"; SseClose 0; SseRequest None;
              SseTick 2 "10:00:04"] 0 s Hs He).
  cbn [fmap option_fmap option_map]. rewrite Hc. reflexivity.
Defined.

Lemma sse_close_spares_others_witness :
  sse_timers
    (sse_step (SseClose 0) (sse_run [SseRequest None; SseRequest None] sse_init))
    !! 1%nat = Some (Some 1%nat).
Proof.
  assert (H : 1%nat <> 0%nat) by lia.
  exact (proj2 (sse_close_spares_others [SseRequest None; SseRequest None]
                  0 1 H)).
Defined.

Lemma sse_timer_runs_while_open_witness :
  sse_timers (sse_run two_clients sse_init) !! 0%nat = Some None
  /\ sse_timers (sse_run two_clients sse_init) !! 1%nat = Some (Some 1%nat).
Proof.
  assert (H0 : exists s,
             sse_streams (sse_run two_clients sse_init) !! 0%nat = Some s
             /\ st_ended s = true).
  { eexists. split; vm_compute; reflexivity. }
  assert (H1 : exists s,
             sse_streams (sse_run two_clients sse_init) !! 1%nat = Some s
             /\ st_ended s = false).
  { eexists. split; vm_compute; reflexivity. }
  destruct H0 as (s0 & Hs0 & He0). destruct H1 as (s1 & Hs1 & He1).
  pose proof (sse_timer_runs_while_open two_clients 0 s0 Hs0) as T0.
  pose proof (sse_timer_runs_while_open two_clients 1 s1 Hs1) as T1.
  rewrite He0 in T0. rewrite He1 in T1. split; assumption.
Defined.
